(** * The IPAM address-allocation engine of terraform-provider-github-ipam

    A shallow embedding of the Go sources of the provider's [ipam] package
    (pools.go, allocations.go, allocator.go), of the contiguous search of
    [internal/resources/allocation_resource.go], of the block search of the
    earlier pool resource and of [WithRetry] of the package [client],
    followed by the properties the specification states about them and by
    further properties read off the code.

    Conventions.
    - A Go [int] is a [Z]; the unsigned types [uint32] and [uint64] are [Z]
      with the wrap-around written out ([u32], [u64]).
    - A [net.IP] and a [net.IPMask] are the list of their bytes, most
      significant first; Go's [nil] slice is the empty list.
    - A function returning [(T, error)] returns an [outcome T]: [Ret] for a
      normal result, [Err] for a returned error and [Panic] where the Go
      run time aborts (index out of range, division by zero, negative shift
      count, nil dereference in a callee).
    - Errors are values of the type [error], one constructor per
      [fmt.Errorf] site, carrying the arguments that the message prints.
    - [time.Now] is an explicit argument of the operation that reads it. *)

From Stdlib Require Import ZArith Lia String Ascii List Bool.
From stdpp Require Import base gmap strings list.

Local Open Scope Z_scope.

(** ** Outcomes of fallible code *)

Inductive error : Type :=
| ErrInvalidContainerCIDR (containerCIDR : string)
    (* "invalid container CIDR %s: %w" *)
| ErrPrefixLargerThanContainer (prefixLen containerPrefixLen : Z)
    (* "requested prefix /%d is larger than container /%d" *)
| ErrPrefixExceedsAddressSize (prefixLen bits : Z)
    (* "requested prefix /%d exceeds address size /%d" *)
| ErrNoBlockInCIDR (prefixLen : Z) (containerCIDR : string)
    (* "no available /%d block in %s" *)
| ErrNoBlockInPool (prefixLen : Z) (reason : skipped)
    (* "no available /%d block in pool: %s" *)
| ErrNoBlockInPoolTried (prefixLen : Z) (tried : Z) (skippedReasons : list skipped)
    (* "no available /%d block in pool (tried %d CIDRs): %v" *)
| ErrInvalidCIDR (cidr : string)
    (* "invalid CIDR %s: %w" and "invalid CIDR: %w" *)
| ErrOverlapsExisting (newCIDR existingCIDR existingName : string)
    (* "CIDR %s overlaps with existing allocation %s (%s)" *)
| ErrPoolHasNoAllocations (poolID : string)
    (* "pool %s has no allocations" *)
| ErrAllocationNotFound (id poolID : string)
    (* "allocation %s not found in pool %s" *)
| ErrInvalidTargetCIDR (targetCIDR : string)
    (* "invalid target CIDR %q: %w" *)
| ErrNoContiguousSpace (prefixLen : Z) (targetCIDR : string) (beforeReason afterReason : sideReason)
    (* "no contiguous /%d space available adjacent to %s: before: %s; after: %s" *)

(** One entry of [skippedReasons]: [fmt.Sprintf("%s: %v", poolCIDRStr, err)]. *)
with skipped : Type :=
| Skipped (poolCIDRStr : string) (err : error)

(** The reasons [findContiguousCIDR] records for a side of the anchor. *)
with sideReason : Type :=
| BeforeOutsidePool (beforeCIDR : string)
    (* "before block %s is outside pool boundaries" *)
| BeforeOverlaps (beforeCIDR : string)
    (* "before block %s overlaps with existing allocation" *)
| BeforeNoBoundary (prefixLen blockSize : Z)
    (* "no valid /%d boundary before target (alignment requires address divisible by %d)" *)
| BeforeTooCloseToStart
    (* "target is too close to start of address space for a block before it" *)
| AfterOutsidePool (afterCIDR : string)
    (* "after block %s is outside pool boundaries" *)
| AfterOverlaps (afterCIDR : string)
    (* "after block %s overlaps with existing allocation" *)
| AfterNoBoundary (prefixLen : Z) (afterStart : string) (blockSize : Z).
    (* "no valid /%d boundary after target (target end %s not aligned to block size %d)" *)

Inductive outcome (A : Type) : Type :=
| Ret (a : A)
| Err (e : error)
| Panic.

Arguments Ret {A} a.
Arguments Err {A} e.
Arguments Panic {A}.

#[export] Instance outcome_ret : MRet outcome := fun A a => Ret a.

#[export] Instance outcome_bind : MBind outcome := fun A B k m =>
  match m with
  | Ret a => k a
  | Err e => Err e
  | Panic => Panic
  end.

(** ** Machine integers *)

Definition u32 (z : Z) : Z := z mod 2 ^ 32.
Definition u64 (z : Z) : Z := z mod 2 ^ 64.

Definition len {A : Type} (l : list A) : Z := Z.of_nat (length l).

(** ** math/big: the two conversions the allocator uses *)

Module big.

(** [SetBytes]: the bytes read as a big-endian unsigned integer. *)
Definition SetBytes (buf : list Z) : Z :=
  fold_left (fun acc b => acc * 256 + b) buf 0.

(** The [n] low-order bytes of [x], most significant first. *)
Fixpoint be_bytes (n : nat) (x : Z) : list Z :=
  match n with
  | O => []
  | S k => be_bytes k (x / 256) ++ [x mod 256]
  end.

Definition byteLen (x : Z) : nat :=
  if x <=? 0 then O else Z.to_nat (Z.log2 x / 8 + 1).

(** [Bytes]: the big-endian bytes of [x] without leading zero bytes
    (the empty slice for zero). *)
Definition Bytes (x : Z) : list Z := be_bytes (byteLen x) x.

End big.

(** ** Package net: addresses, masks and networks *)

Module net.

Definition IP := list Z.
Definition IPMask := list Z.

Record IPNet : Type := mkIPNet { netIP : IP; netMask : IPMask }.

Definition IPv4len : Z := 4.
Definition IPv6len : Z := 16.

Definition v4InV6Prefix : list Z := [0; 0; 0; 0; 0; 0; 0; 0; 0; 0; 255; 255].

Definition isZeros (p : list Z) : bool := forallb (fun b => b =? 0) p.
Definition allFF (p : list Z) : bool := forallb (fun b => b =? 255) p.

Definition bytes_eqb (p q : list Z) : bool :=
  (len p =? len q) && forallb (fun xy => fst xy =? snd xy) (combine p q).

(** [ip.To4()]: the 4-byte form of an IPv4 address, or nil. *)
Definition To4 (ip : IP) : IP :=
  if len ip =? IPv4len then ip
  else if (len ip =? IPv6len) && isZeros (firstn 10 ip)
          && (nth 10 ip 0 =? 255) && (nth 11 ip 0 =? 255)
       then skipn 12 ip
       else [].

(** [ip.To16()]: the 16-byte form (IPv4 addresses become IPv4-mapped), or
    nil when the length is neither 4 nor 16. *)
Definition To16 (ip : IP) : IP :=
  if len ip =? IPv4len then v4InV6Prefix ++ ip
  else if len ip =? IPv6len then ip
  else [].

(** [net.CIDRMask(ones, bits)]. *)
Fixpoint maskBytes (l : nat) (n : Z) : list Z :=
  match l with
  | O => []
  | S l' =>
      if 8 <=? n then 255 :: maskBytes l' (n - 8)
      else (255 - Z.shiftr 255 n) :: maskBytes l' 0
  end.

Definition CIDRMask (ones bits : Z) : IPMask :=
  if negb (bits =? 8 * IPv4len) && negb (bits =? 8 * IPv6len) then []
  else if (ones <? 0) || (bits <? ones) then []
  else maskBytes (Z.to_nat (bits / 8)) ones.

(** [simpleMaskLength]: the number of leading one bits of a mask made of
    ones followed by zeros, and -1 for any other mask. *)
Fixpoint leadingOnes (fuel : nat) (v : Z) : Z * Z :=
  match fuel with
  | O => (0, v)
  | S f =>
      if negb (Z.land v 128 =? 0)
      then let '(n, v') := leadingOnes f ((v * 2) mod 256) in (n + 1, v')
      else (0, v)
  end.

Fixpoint simpleMaskLength (mask : IPMask) : Z :=
  match mask with
  | [] => 0
  | v :: rest =>
      if v =? 255 then
        let n := simpleMaskLength rest in
        if n =? -1 then -1 else 8 + n
      else
        let '(n, v') := leadingOnes 8 v in
        if negb (v' =? 0) then -1
        else if isZeros rest then n else -1
  end.

(** [m.Size()]. *)
Definition Size (m : IPMask) : Z * Z :=
  let ones := simpleMaskLength m in
  if ones =? -1 then (0, 0) else (ones, len m * 8).

(** [ip.Mask(mask)]. *)
Definition IP_Mask (ip : IP) (mask : IPMask) : IP :=
  let mask := if (len mask =? IPv6len) && (len ip =? IPv4len) && allFF (firstn 12 mask)
              then skipn 12 mask else mask in
  let ip := if (len mask =? IPv4len) && (len ip =? IPv6len)
               && bytes_eqb (firstn 12 ip) v4InV6Prefix
            then skipn 12 ip else ip in
  if negb (len ip =? len mask) then []
  else map (fun xy => Z.land (fst xy) (snd xy)) (combine ip mask).

(** [networkNumberAndMask]: [None] stands for the pair of nils. *)
Definition networkNumberAndMask (n : IPNet) : option (IP * IPMask) :=
  let ip4 := To4 (netIP n) in
  let ipok := if len ip4 =? 0 then
                if len (netIP n) =? IPv6len then Some (netIP n) else None
              else Some ip4 in
  match ipok with
  | None => None
  | Some ip =>
      let m := netMask n in
      if len m =? IPv4len then
        if len ip =? IPv4len then Some (ip, m) else None
      else if len m =? IPv6len then
        if len ip =? IPv4len then Some (ip, skipn 12 m) else Some (ip, m)
      else None
  end.

(** [n.Contains(ip)]. *)
Definition Contains (n : IPNet) (ip : IP) : bool :=
  match networkNumberAndMask n with
  | None =>
      (* nn is nil: only an address of length zero passes the length test *)
      let ip' := if len (To4 ip) =? 0 then ip else To4 ip in
      len ip' =? 0
  | Some (nn, m) =>
      let ip' := if len (To4 ip) =? 0 then ip else To4 ip in
      if negb (len ip' =? len nn) then false
      else forallb (fun t => Z.land (fst (fst t)) (snd t) =? Z.land (snd (fst t)) (snd t))
                   (combine (combine nn ip') m)
  end.

End net.

Import net.

(** ** Package github.com/apparentlymart/go-cidr/cidr *)

Module cidr.

(** [ipToInt]: panics on a length that is neither 4 nor 16. *)
Definition ipToInt (ip : IP) : outcome (Z * Z) :=
  if len ip =? IPv4len then Ret (big.SetBytes ip, 32)
  else if len ip =? IPv6len then Ret (big.SetBytes ip, 128)
  else Panic.

(** [intToIP]: writes the bytes of the integer at the end of a slice of
    [bits/8] bytes; an integer with more bytes indexes out of range. *)
Definition intToIP (ipInt : Z) (bits : Z) : outcome IP :=
  let ipBytes := big.Bytes ipInt in
  let n := bits / 8 in
  if n <? len ipBytes then Panic
  else Ret (repeat 0 (Z.to_nat (n - len ipBytes)) ++ ipBytes).

(** [cidr.AddressRange(network)]: the first and the last address. *)
Definition AddressRange (network : IPNet) : outcome (IP * IP) :=
  let firstIP := netIP network in
  let '(prefixLen, bits) := Size (netMask network) in
  if prefixLen =? bits then Ret (firstIP, firstIP)
  else
    '(firstIPInt, bits) ← ipToInt firstIP;
    (* hostLen := uint(bits) - uint(prefixLen): a negative difference wraps
       to an astronomically large shift count, which the run time cannot
       allocate *)
    if bits - prefixLen <? 0 then Panic
    else
      let lastIPInt := Z.lor (Z.shiftl 1 (bits - prefixLen) - 1) firstIPInt in
      lastIP ← intToIP lastIPInt bits;
      Ret (firstIP, lastIP).

Definition checkIPv4 (ip : IP) : IP :=
  if len (To4 ip) =? 0 then ip else To4 ip.

(** The carry loop of [Inc], from the last byte to the first. *)
Fixpoint incBytes (rev_ip : list Z) : list Z :=
  match rev_ip with
  | [] => []
  | b :: rest =>
      let b' := (b + 1) mod 256 in
      if 0 <? b' then b' :: rest else b' :: incBytes rest
  end.

(** [cidr.Inc(ip)]: the address plus one, wrapping around at the top. *)
Definition Inc (ip : IP) : IP :=
  rev (incBytes (rev (checkIPv4 ip))).

End cidr.

(** ** Text of addresses

    [net.ParseCIDR] and the method [String] of [net.IPNet] belong to the Go standard
    library, not to this repository.  The engine is defined over any pair of
    them: [ParseCIDR] answers [None] where Go returns an error, and only the
    network (the second result of Go's function) is kept, as every caller
    discards the first.  [GoNetText] below is the instance used to run the
    engine on concrete text. *)

Class NetText : Type := {
  ParseCIDR : string -> option IPNet;
  IPNet_String : IPNet -> string
}.

(** Decimal printing, [%d]. *)
Fixpoint utoa_aux (fuel : nat) (n : Z) (acc : string) : string :=
  match fuel with
  | O => acc
  | S f =>
      let acc' := String (ascii_of_nat (48 + Z.to_nat (n mod 10))) acc in
      if n / 10 =? 0 then acc' else utoa_aux f (n / 10) acc'
  end.

Definition itoa (n : Z) : string :=
  if n <? 0 then String "-" (utoa_aux (S (Z.to_nat (Z.log2 (- n)))) (- n) EmptyString)
  else utoa_aux (S (Z.to_nat (Z.log2 n))) n EmptyString.

(** ** Package ipam: pools.go *)

(** [PoolDefinition]: a pool of pools.yaml. *)
Record PoolDefinition : Type := mkPoolDefinition {
  PoolCIDR : list string;
  Description : string;
  PoolMetadata : gmap string string;
  PoolReserved : bool
}.

(** [uint32(x) << n] for a shift count that is not negative. *)
Definition shl32 (x n : Z) : Z := u32 (Z.shiftl x n).
Definition shl64 (x n : Z) : Z := u64 (Z.shiftl x n).

(** [ipToUint32]: 0 for an address that has no 4-byte form. *)
Definition ipToUint32 (ip : IP) : Z :=
  match To4 ip with
  | [b0; b1; b2; b3] =>
      Z.lor (Z.lor (Z.lor (shl32 b0 24) (shl32 b1 16)) (shl32 b2 8)) (u32 b3)
  | _ => 0
  end.

(** [networksOverlap], the version of pools.go that computes both ranges
    in [uint32]. *)
Definition networksOverlap (a b : IPNet) : bool :=
  let aStart := ipToUint32 (netIP a) in
  let '(aOnes, aBits) := Size (netMask a) in
  let aEnd := u32 (u32 (aStart + shl32 1 (aBits - aOnes)) - 1) in
  let bStart := ipToUint32 (netIP b) in
  let '(bOnes, bBits) := Size (netMask b) in
  let bEnd := u32 (u32 (bStart + shl32 1 (bBits - bOnes)) - 1) in
  (aStart <=? bEnd) && (bStart <=? aEnd).

(** [networksOverlap] as the earlier revision of pools.go and
    pool_resource.go wrote it. *)
Definition networksOverlap_contains (a b : IPNet) : bool :=
  Contains a (netIP b) || Contains b (netIP a).

(** ** Package ipam: allocations.go *)

(** [Allocation].  [Reserved] and [ContiguousWith] are the two fields that
    allocation_resource.go reads besides the six of allocations.go. *)
Record Allocation : Type := mkAllocation {
  CIDR : string;
  ID : string;
  Name : string;
  ParentCIDR : option string;
  Metadata : gmap string string;
  CreatedAt : string;
  Reserved : bool;
  ContiguousWith : option string
}.

(** [AllocationsDatabase]; [Allocations = None] is Go's nil map. *)
Record AllocationsDatabase : Type := mkAllocationsDatabase {
  Version : string;
  Allocations : option (gmap string (list Allocation))
}.

Definition NewAllocationsDatabase : AllocationsDatabase :=
  {| Version := "1.0"; Allocations := Some ∅ |}.

(** [d.GetAllocationsForPool(poolID)]. *)
Definition GetAllocationsForPool (d : AllocationsDatabase) (poolID : string) : list Allocation :=
  match Allocations d with
  | None => []
  | Some m => default [] (m !! poolID)
  end.

Definition withCreatedAt (alloc : Allocation) (t : string) : Allocation :=
  {| CIDR := CIDR alloc; ID := ID alloc; Name := Name alloc;
     ParentCIDR := ParentCIDR alloc; Metadata := Metadata alloc;
     CreatedAt := t;
     Reserved := Reserved alloc; ContiguousWith := ContiguousWith alloc |}.

(** [d.AddAllocation(poolID, alloc)]; [now] is the value of
    [time.Now().UTC().Format(time.RFC3339)] at the call. *)
Definition AddAllocation (now : string) (d : AllocationsDatabase)
    (poolID : string) (alloc : Allocation) : AllocationsDatabase :=
  let m := match Allocations d with
           | None => ∅
           | Some m => m
           end in
  let alloc := withCreatedAt alloc now in
  {| Version := Version d;
     Allocations := Some (<[poolID := default [] (m !! poolID) ++ [alloc]]> m) |}.

(** The loop of [RemoveAllocation]: the allocations kept and whether one
    was dropped. *)
Fixpoint removeLoop (id : string) (allocations : list Allocation)
    (newAllocations : list Allocation) (found : bool) : list Allocation * bool :=
  match allocations with
  | [] => (newAllocations, found)
  | alloc :: rest =>
      if String.eqb (ID alloc) id then removeLoop id rest newAllocations true
      else removeLoop id rest (newAllocations ++ [alloc]) found
  end.

(** [d.RemoveAllocation(poolID, id)]: the database after the call and the
    error returned, if any. *)
Definition RemoveAllocation (d : AllocationsDatabase) (poolID id : string)
    : AllocationsDatabase * option error :=
  match Allocations d with
  | None => (d, Some (ErrPoolHasNoAllocations poolID))
  | Some m =>
      match m !! poolID with
      | None => (d, Some (ErrPoolHasNoAllocations poolID))
      | Some allocations =>
          let '(newAllocations, found) := removeLoop id allocations [] false in
          if negb found then (d, Some (ErrAllocationNotFound id poolID))
          else ({| Version := Version d;
                   Allocations := Some (<[poolID := newAllocations]> m) |}, None)
      end
  end.

(** ** Package ipam: allocator.go *)

(** [sortableAllocation]. *)
Record sortableAllocation : Type := mkSortable {
  network : IPNet;
  alloc : Allocation
}.

(** [compareIPs]: both operands are widened with [To16] and compared byte
    by byte over the length of the first; reading past the end of the
    second panics. *)
Fixpoint compareBytes (a b : list Z) : outcome Z :=
  match a with
  | [] => Ret 0
  | x :: a' =>
      match b with
      | [] => Panic
      | y :: b' =>
          if x <? y then Ret (-1)
          else if y <? x then Ret 1
          else compareBytes a' b'
      end
  end.

Definition compareIPs (a b : IP) : outcome Z :=
  compareBytes (To16 a) (To16 b).

(** [cloneIP]. *)
Definition cloneIP (ip : IP) : IP := ip.

(** [alignToPrefix]. *)
Definition alignToPrefix (ip : IP) (prefixLen bits : Z) : outcome IP :=
  let ipInt := big.SetBytes (To16 ip) in
  (* blockSize.Lsh(blockSize, uint(bits-prefixLen)): a negative difference
     becomes a shift count that no machine can allocate *)
  if bits - prefixLen <? 0 then Panic
  else
    let blockSize := Z.shiftl 1 (bits - prefixLen) in
    let remainder := ipInt mod blockSize in
    let ipInt := if negb (remainder =? 0) then ipInt - remainder + blockSize else ipInt in
    let ipBytes := big.Bytes ipInt in
    (* copy(result[16-len(ipBytes):], ipBytes) *)
    if 16 <? len ipBytes then Panic
    else
      let result := repeat 0 (Z.to_nat (16 - len ipBytes)) ++ ipBytes in
      if len ip =? 4 then Ret (To4 result) else Ret result.

(** [filterTopLevelAllocations]. *)
Fixpoint filterTopLevelAllocations (allocations : list Allocation) : list Allocation :=
  match allocations with
  | [] => []
  | alloc :: rest =>
      match ParentCIDR alloc with
      | None => alloc :: filterTopLevelAllocations rest
      | Some _ => filterTopLevelAllocations rest
      end
  end.

(** [sort.Slice] with the comparison of [findNextInCIDR].  Each element is
    moved left while it is less than its left neighbour (Go's insertion
    sort, which [sort.Slice] runs on slices of at most twelve elements; on
    longer slices it gives the same order whenever the network addresses
    are distinct).  [sort.Slice] is not stable: on a longer slice two
    entries of the same network address can be left in the other order,
    and [findNextInCIDRWith] below leaves the procedure open for the
    properties that have to hold of every such order.  [sortedRev] is the
    sorted prefix, last element first. *)
Fixpoint insertLeft (x : sortableAllocation) (sortedRev : list sortableAllocation)
    : outcome (list sortableAllocation) :=
  match sortedRev with
  | [] => Ret [x]
  | y :: rest =>
      c ← compareIPs (netIP (network x)) (netIP (network y));
      if c <? 0 then r ← insertLeft x rest; Ret (y :: r)
      else Ret (x :: y :: rest)
  end.

Fixpoint sortLoop (data : list sortableAllocation) (sortedRev : list sortableAllocation)
    : outcome (list sortableAllocation) :=
  match data with
  | [] => Ret (rev sortedRev)
  | x :: rest => s ← insertLeft x sortedRev; sortLoop rest s
  end.

Definition sortSlice (data : list sortableAllocation) : outcome (list sortableAllocation) :=
  sortLoop data [].

Section Allocator.

Context `{NetText}.

(** [filterAllocationsInCIDR]. *)
Fixpoint filterAllocationsInCIDR (allocations : list Allocation) (container : IPNet)
    : list Allocation :=
  match allocations with
  | [] => []
  | alloc :: rest =>
      match ParseCIDR (CIDR alloc) with
      | None => filterAllocationsInCIDR rest container
      | Some allocNet =>
          if Contains container (netIP allocNet)
          then alloc :: filterAllocationsInCIDR rest container
          else filterAllocationsInCIDR rest container
      end
  end.

(** The parsing loop of [findNextInCIDR]: entries that do not parse are
    skipped. *)
Fixpoint parseSortable (relevantAllocations : list Allocation) : list sortableAllocation :=
  match relevantAllocations with
  | [] => []
  | a :: rest =>
      match ParseCIDR (CIDR a) with
      | None => parseSortable rest
      | Some network => {| network := network; alloc := a |} :: parseSortable rest
      end
  end.

(** The gap scan of [findNextInCIDR]: the loop over the sorted allocations
    and the test of the last candidate after it. *)
Fixpoint gapScan (containerCIDR : string) (containerNet : IPNet) (prefixLen bits : Z)
    (sortable : list sortableAllocation) (candidateIP : IP) : outcome string :=
  match sortable with
  | existing :: rest =>
      let candidateNet := {| netIP := candidateIP; netMask := CIDRMask prefixLen bits |} in
      '(_, candidateEnd) ← cidr.AddressRange candidateNet;
      c ← compareIPs candidateEnd (netIP (network existing));
      if (c <=? 0) && Contains containerNet candidateIP && Contains containerNet candidateEnd
      then Ret (IPNet_String candidateNet)
      else
        '(_, existingEnd) ← cidr.AddressRange (network existing);
        candidateIP ← alignToPrefix (cidr.Inc existingEnd) prefixLen bits;
        gapScan containerCIDR containerNet prefixLen bits rest candidateIP
  | [] =>
      let candidateNet := {| netIP := candidateIP; netMask := CIDRMask prefixLen bits |} in
      '(_, candidateEnd) ← cidr.AddressRange candidateNet;
      '(_, containerEnd) ← cidr.AddressRange containerNet;
      if Contains containerNet candidateIP then
        c ← compareIPs candidateEnd containerEnd;
        if c <=? 0 then Ret (IPNet_String candidateNet)
        else Err (ErrNoBlockInCIDR prefixLen containerCIDR)
      else Err (ErrNoBlockInCIDR prefixLen containerCIDR)
  end.

(** [findNextInCIDR]. *)
Definition findNextInCIDR (containerCIDR : string) (existingAllocations : list Allocation)
    (prefixLen : Z) : outcome string :=
  match ParseCIDR containerCIDR with
  | None => Err (ErrInvalidContainerCIDR containerCIDR)
  | Some containerNet =>
      let '(containerPrefixLen, bits) := Size (netMask containerNet) in
      if prefixLen <? containerPrefixLen
      then Err (ErrPrefixLargerThanContainer prefixLen containerPrefixLen)
      else if bits <? prefixLen
      then Err (ErrPrefixExceedsAddressSize prefixLen bits)
      else
        let relevantAllocations := filterAllocationsInCIDR existingAllocations containerNet in
        sortable ← sortSlice (parseSortable relevantAllocations);
        candidateIP ← alignToPrefix (cloneIP (netIP containerNet)) prefixLen bits;
        gapScan containerCIDR containerNet prefixLen bits sortable candidateIP
  end.

(** [findNextInCIDR] with the call of [sort.Slice] left open: [sort] is
    the procedure that orders the slice, and [findNextInCIDR] is
    [findNextInCIDRWith sortSlice]. *)
Definition findNextInCIDRWith
    (sort : list sortableAllocation -> outcome (list sortableAllocation))
    (containerCIDR : string) (existingAllocations : list Allocation)
    (prefixLen : Z) : outcome string :=
  match ParseCIDR containerCIDR with
  | None => Err (ErrInvalidContainerCIDR containerCIDR)
  | Some containerNet =>
      let '(containerPrefixLen, bits) := Size (netMask containerNet) in
      if prefixLen <? containerPrefixLen
      then Err (ErrPrefixLargerThanContainer prefixLen containerPrefixLen)
      else if bits <? prefixLen
      then Err (ErrPrefixExceedsAddressSize prefixLen bits)
      else
        let relevantAllocations := filterAllocationsInCIDR existingAllocations containerNet in
        sortable ← sort (parseSortable relevantAllocations);
        candidateIP ← alignToPrefix (cloneIP (netIP containerNet)) prefixLen bits;
        gapScan containerCIDR containerNet prefixLen bits sortable candidateIP
  end.

(** The loop of [FindNextAvailableInPool] over the CIDRs that remain, with
    the reasons collected so far; [tried] is [len(poolDef.CIDR)]. *)
Fixpoint poolLoop (tried : Z) (cidrs : list string) (topLevelAllocations : list Allocation)
    (prefixLen : Z) (skippedReasons : list skipped) : outcome string :=
  match cidrs with
  | poolCIDRStr :: rest =>
      match findNextInCIDR poolCIDRStr topLevelAllocations prefixLen with
      | Ret cidrResult => Ret cidrResult
      | Err err =>
          poolLoop tried rest topLevelAllocations prefixLen
                   (skippedReasons ++ [Skipped poolCIDRStr err])
      | Panic => Panic
      end
  | [] =>
      match skippedReasons with
      | [reason] => Err (ErrNoBlockInPool prefixLen reason)
      | _ => Err (ErrNoBlockInPoolTried prefixLen tried skippedReasons)
      end
  end.

(** [FindNextAvailableInPool]: mode 1, allocation from the CIDRs of a pool. *)
Definition FindNextAvailableInPool (poolDef : PoolDefinition)
    (existingAllocations : list Allocation) (prefixLen : Z) : outcome string :=
  let topLevelAllocations := filterTopLevelAllocations existingAllocations in
  poolLoop (len (PoolCIDR poolDef)) (PoolCIDR poolDef) topLevelAllocations prefixLen [].

(** [FindNextAvailableInParent]: mode 2, sub-allocation inside a parent. *)
Definition FindNextAvailableInParent (parentCIDR : string)
    (childAllocations : list Allocation) (prefixLen : Z) : outcome string :=
  findNextInCIDR parentCIDR childAllocations prefixLen.

(** [ValidateNoOverlap]. *)
Fixpoint validateLoop (newCIDR : string) (newNet : IPNet) (existingAllocations : list Allocation)
    : option error :=
  match existingAllocations with
  | [] => None
  | existing :: rest =>
      match ParseCIDR (CIDR existing) with
      | None => validateLoop newCIDR newNet rest
      | Some existingNet =>
          if networksOverlap newNet existingNet
          then Some (ErrOverlapsExisting newCIDR (CIDR existing) (Name existing))
          else validateLoop newCIDR newNet rest
      end
  end.

Definition ValidateNoOverlap (existingAllocations : list Allocation) (newCIDR : string)
    : option error :=
  match ParseCIDR newCIDR with
  | None => Some (ErrInvalidCIDR newCIDR)
  | Some newNet => validateLoop newCIDR newNet existingAllocations
  end.

(** The summing loop of [CalculateAvailableSpace], in [uint64]. *)
Fixpoint sumAllocated (relevant : list Allocation) (allocatedAddresses : Z) : Z :=
  match relevant with
  | [] => allocatedAddresses
  | a :: rest =>
      match ParseCIDR (CIDR a) with
      | None => sumAllocated rest allocatedAddresses
      | Some allocNet =>
          let '(allocPrefixLen, allocBits) := Size (netMask allocNet) in
          sumAllocated rest (u64 (allocatedAddresses + shl64 1 (allocBits - allocPrefixLen)))
      end
  end.

(** [CalculateAvailableSpace]. *)
Definition CalculateAvailableSpace (containerCIDR : string) (allocations : list Allocation)
    : outcome Z :=
  match ParseCIDR containerCIDR with
  | None => Err (ErrInvalidCIDR containerCIDR)
  | Some containerNet =>
      let '(prefixLen, bits) := Size (netMask containerNet) in
      let totalAddresses := shl64 1 (bits - prefixLen) in
      let relevant := filterAllocationsInCIDR allocations containerNet in
      let allocatedAddresses := sumAllocated relevant 0 in
      if totalAddresses <? allocatedAddresses then Ret 0
      else Ret (totalAddresses - allocatedAddresses)
  end.

(** ** Package resources: the contiguous search of allocation_resource.go *)

(** [uint32ToIP]. *)
Definition uint32ToIP (n : Z) : string :=
  itoa (Z.land (Z.shiftr n 24) 255) +:+ "." +:+
  itoa (Z.land (Z.shiftr n 16) 255) +:+ "." +:+
  itoa (Z.land (Z.shiftr n 8) 255) +:+ "." +:+
  itoa (Z.land n 255).

(** [fmt.Sprintf("%s/%d", uint32ToIP(start), prefixLen)]. *)
Definition blockCIDR (start prefixLen : Z) : string :=
  uint32ToIP start +:+ "/" +:+ itoa prefixLen.

(** [isInPool]. *)
Fixpoint isInPoolLoop (candidateNet : IPNet) (poolCIDRs : list string) : bool :=
  match poolCIDRs with
  | [] => false
  | poolCIDR :: rest =>
      match ParseCIDR poolCIDR with
      | None => isInPoolLoop candidateNet rest
      | Some poolNet =>
          let candidateStart := ipToUint32 (netIP candidateNet) in
          let '(candidateOnes, candidateBits) := Size (netMask candidateNet) in
          let candidateEnd :=
            u32 (u32 (candidateStart + shl32 1 (candidateBits - candidateOnes)) - 1) in
          let poolStart := ipToUint32 (netIP poolNet) in
          let '(poolOnes, poolBits) := Size (netMask poolNet) in
          let poolEnd := u32 (u32 (poolStart + shl32 1 (poolBits - poolOnes)) - 1) in
          if (poolStart <=? candidateStart) && (candidateEnd <=? poolEnd) then true
          else isInPoolLoop candidateNet rest
      end
  end.

Definition isInPool (pool : PoolDefinition) (cidr : string) : bool :=
  match ParseCIDR cidr with
  | None => false
  | Some candidateNet => isInPoolLoop candidateNet (PoolCIDR pool)
  end.

(** [overlapsAny]: both ends are exclusive and computed in [uint32]. *)
Fixpoint overlapsAnyLoop (candidateStart candidateEnd : Z) (allocs : list Allocation) : bool :=
  match allocs with
  | [] => false
  | alloc :: rest =>
      match ParentCIDR alloc with
      | Some _ => overlapsAnyLoop candidateStart candidateEnd rest
      | None =>
          match ParseCIDR (CIDR alloc) with
          | None => overlapsAnyLoop candidateStart candidateEnd rest
          | Some allocNet =>
              let allocStart := ipToUint32 (netIP allocNet) in
              let '(allocOnes, allocBits) := Size (netMask allocNet) in
              let allocEnd := u32 (allocStart + shl32 1 (allocBits - allocOnes)) in
              if (candidateStart <? allocEnd) && (allocStart <? candidateEnd) then true
              else overlapsAnyLoop candidateStart candidateEnd rest
          end
      end
  end.

Definition overlapsAny (cidr : string) (allocs : list Allocation) : bool :=
  match ParseCIDR cidr with
  | None => true
  | Some candidateNet =>
      let candidateStart := ipToUint32 (netIP candidateNet) in
      let '(candidateOnes, candidateBits) := Size (netMask candidateNet) in
      let candidateEnd := u32 (candidateStart + shl32 1 (candidateBits - candidateOnes)) in
      overlapsAnyLoop candidateStart candidateEnd allocs
  end.

(** One side of [findContiguousCIDR] once its start is known to be a
    multiple of the block size: the block, or the reason it is refused. *)
Definition trySide (pool : PoolDefinition) (allocs : list Allocation)
    (cidr : string) (outside overlap : string -> sideReason) : string + sideReason :=
  if negb (isInPool pool cidr) then inr (outside cidr)
  else if overlapsAny cidr allocs then inr (overlap cidr)
  else inl cidr.

(** [findContiguousCIDR]. *)
Definition findContiguousCIDR (pool : PoolDefinition) (allocs : list Allocation)
    (prefixLen : Z) (targetCIDR : string) : outcome string :=
  match ParseCIDR targetCIDR with
  | None => Err (ErrInvalidTargetCIDR targetCIDR)
  | Some targetNet =>
      let targetStart := ipToUint32 (netIP targetNet) in
      let '(targetOnes, targetBits) := Size (netMask targetNet) in
      let targetSize := shl32 1 (targetBits - targetOnes) in
      let targetEnd := u32 (targetStart + targetSize) in
      (* uint32(1) << (32 - prefixLen): a negative shift count panics *)
      if 32 - prefixLen <? 0 then Panic
      else
        let blockSize := shl32 1 (32 - prefixLen) in
        before ←
          (if blockSize <=? targetStart then
             let beforeStart := u32 (targetStart - blockSize) in
             (* beforeStart % blockSize: division by zero panics *)
             if blockSize =? 0 then Panic
             else if beforeStart mod blockSize =? 0
             then Ret (trySide pool allocs (blockCIDR beforeStart prefixLen)
                               BeforeOutsidePool BeforeOverlaps)
             else Ret (inr (BeforeNoBoundary prefixLen blockSize))
           else Ret (inr BeforeTooCloseToStart));
        match before with
        | inl beforeCIDR => Ret beforeCIDR
        | inr beforeReason =>
            let afterStart := targetEnd in
            if blockSize =? 0 then Panic
            else
              let after :=
                if afterStart mod blockSize =? 0
                then trySide pool allocs (blockCIDR afterStart prefixLen)
                             AfterOutsidePool AfterOverlaps
                else inr (AfterNoBoundary prefixLen (uint32ToIP afterStart) blockSize) in
              match after with
              | inl afterCIDR => Ret afterCIDR
              | inr afterReason =>
                  Err (ErrNoContiguousSpace prefixLen targetCIDR beforeReason afterReason)
              end
        end
  end.

End Allocator.

(** ** The text of Go's package net

    A model of [net.ParseCIDR] (through [netip.ParseAddr]) and of the
    [String] method of [net.IPNet], on which the engine is run below.
    Zoned addresses are rejected, as [net.ParseCIDR] rejects them. *)

Module GoText.

Definition isDigit (c : ascii) : bool :=
  let n := Z.of_nat (nat_of_ascii c) in (48 <=? n) && (n <=? 57).

Definition digitVal (c : ascii) : Z := Z.of_nat (nat_of_ascii c) - 48.

(** The value of a hexadecimal digit, if [c] is one. *)
Definition hexVal (c : ascii) : option Z :=
  let n := Z.of_nat (nat_of_ascii c) in
  if (48 <=? n) && (n <=? 57) then Some (n - 48)
  else if (97 <=? n) && (n <=? 102) then Some (n - 97 + 10)
  else if (65 <=? n) && (n <=? 70) then Some (n - 65 + 10)
  else None.

Definition isDot (c : ascii) : bool := Ascii.eqb c ".".
Definition isColon (c : ascii) : bool := Ascii.eqb c ":".

(** [parseIPv4Fields]: four decimal fields separated by dots, none empty,
    none above 255, none with a leading zero. *)
Fixpoint parseIPv4Fields (s : list ascii) (atStart prevDot : bool) (val digLen : Z)
    (fields : list Z) : option (list Z) :=
  match s with
  | [] => if len fields <? 3 then None else Some (fields ++ [val])
  | c :: rest =>
      if isDigit c then
        if (digLen =? 1) && (val =? 0) then None
        else
          let val' := val * 10 + digitVal c in
          if 255 <? val' then None
          else parseIPv4Fields rest false false val' (digLen + 1) fields
      else if isDot c then
        if atStart || (len rest =? 0) || prevDot then None
        else if len fields =? 3 then None
        else parseIPv4Fields rest false true 0 0 (fields ++ [val])
      else None
  end.

Definition parseIPv4 (s : list ascii) : option (list Z) :=
  parseIPv4Fields s true false 0 0 [].

(** The hexadecimal digits at the head of [s]: their number, their value
    and the rest of [s]; [None] at a fifth digit. *)
Fixpoint hexGroup (s : list ascii) (off acc : Z) : option (Z * Z * list ascii) :=
  match s with
  | [] => Some (off, acc, [])
  | c :: rest =>
      match hexVal c with
      | None => Some (off, acc, s)
      | Some d => if 3 <? off then None else hexGroup rest (off + 1) (acc * 16 + d)
      end
  end.

(** The loop of [parseIPv6]: [ip] holds the bytes parsed so far and
    [ellipsis] the position of the double colon, if one was seen.  The
    result is the bytes and the ellipsis when the whole text was used. *)
Fixpoint parseIPv6Loop (fuel : nat) (s : list ascii) (ip : list Z) (ellipsis : option Z)
    : option (list Z * option Z) :=
  match fuel with
  | O => match s with [] => Some (ip, ellipsis) | _ => None end
  | S fuel' =>
      if 16 <=? len ip then match s with [] => Some (ip, ellipsis) | _ => None end
      else
        match hexGroup s 0 0 with
        | None => None
        | Some (off, acc, rest) =>
            if off =? 0 then None
            else
              match rest with
              | c :: _ =>
                  if isDot c then
                    (* trailing IPv4 *)
                    if (match ellipsis with None => negb (len ip =? 12) | Some _ => false end)
                    then None
                    else if 16 <? len ip + 4 then None
                    else
                      match parseIPv4 s with
                      | None => None
                      | Some v4 => Some (ip ++ v4, ellipsis)
                      end
                  else
                    let ip' := ip ++ [acc / 256; acc mod 256] in
                    if negb (isColon c) then None
                    else
                      match rest with
                      | [_] => None
                      | _ :: c2 :: rest2 =>
                          if isColon c2 then
                            match ellipsis with
                            | Some _ => None
                            | None =>
                                match rest2 with
                                | [] => Some (ip', Some (len ip'))
                                | _ => parseIPv6Loop fuel' rest2 ip' (Some (len ip'))
                                end
                            end
                          else parseIPv6Loop fuel' (c2 :: rest2) ip' ellipsis
                      | [] => None
                      end
              | [] => Some (ip ++ [acc / 256; acc mod 256], ellipsis)
              end
        end
  end.

Definition hasPercent (s : list ascii) : bool :=
  existsb (fun c => Ascii.eqb c "%") s.

(** A leading double colon: the text after it, the ellipsis at position 0
    and whether the text is the double colon alone. *)
Definition leadingEllipsis (s : list ascii) : list ascii * option Z * bool :=
  match s with
  | c1 :: c2 :: rest =>
      if isColon c1 && isColon c2 then (rest, Some 0, len rest =? 0)
      else (s, None, false)
  | _ => (s, None, false)
  end.

Definition parseIPv6 (s : list ascii) : option (list Z) :=
  if hasPercent s then None
  else
    let '(s', ellipsis, onlyEllipsis) := leadingEllipsis s in
    if onlyEllipsis then Some (repeat 0 16)
    else
      match parseIPv6Loop 9 s' [] ellipsis with
      | None => None
      | Some (ip, ellipsis) =>
          if len ip <? 16 then
            match ellipsis with
            | None => None
            | Some e =>
                Some (firstn (Z.to_nat e) ip ++ repeat 0 (Z.to_nat (16 - len ip))
                      ++ skipn (Z.to_nat e) ip)
            end
          else
            match ellipsis with
            | Some _ => None
            | None => Some ip
            end
      end.

(** [netip.ParseAddr]: the first dot, colon or percent sign decides. *)
Fixpoint parseAddrScan (s whole : list ascii) : option (list Z) :=
  match s with
  | [] => None
  | c :: rest =>
      if isDot c then parseIPv4 whole
      else if isColon c then parseIPv6 whole
      else if Ascii.eqb c "%" then None
      else parseAddrScan rest whole
  end.

Definition ParseAddr (s : list ascii) : option (list Z) := parseAddrScan s s.

(** [dtoi]: a run of decimal digits below 0xFFFFFF that is the whole text. *)
Fixpoint dtoi (s : list ascii) (n : Z) (seen : bool) : option Z :=
  match s with
  | [] => if seen then Some n else None
  | c :: rest =>
      if isDigit c then
        let n' := n * 10 + digitVal c in
        if 16777215 <=? n' then None else dtoi rest n' true
      else None
  end.

(** The text before and after the first slash. *)
Fixpoint cutSlash (s : list ascii) (acc : list ascii) : option (list ascii * list ascii) :=
  match s with
  | [] => None
  | c :: rest =>
      if Ascii.eqb c "/" then Some (rev acc, rest) else cutSlash rest (c :: acc)
  end.

(** [net.ParseCIDR], second result. *)
Definition ParseCIDR (s : string) : option IPNet :=
  match cutSlash (list_ascii_of_string s) [] with
  | None => None
  | Some (addr, mask) =>
      match ParseAddr addr with
      | None => None
      | Some ipAddr =>
          let bitLen := len ipAddr * 8 in
          match dtoi mask 0 false with
          | None => None
          | Some n =>
              if bitLen <? n then None
              else
                let m := CIDRMask n bitLen in
                Some {| netIP := IP_Mask (To16 ipAddr) m; netMask := m |}
          end
      end
  end.

(** Lower-case hexadecimal without leading zeros. *)
Definition hexDigit (d : Z) : ascii :=
  nth (Z.to_nat d) (list_ascii_of_string "0123456789abcdef") "0"%char.

Definition hex16 (g : Z) : string :=
  let d3 := g / 4096 in let d2 := (g / 256) mod 16 in
  let d1 := (g / 16) mod 16 in let d0 := g mod 16 in
  if 4096 <=? g then String (hexDigit d3) (String (hexDigit d2) (String (hexDigit d1) (String (hexDigit d0) EmptyString)))
  else if 256 <=? g then String (hexDigit d2) (String (hexDigit d1) (String (hexDigit d0) EmptyString))
  else if 16 <=? g then String (hexDigit d1) (String (hexDigit d0) EmptyString)
  else String (hexDigit d0) EmptyString.

Fixpoint groups16 (ip : list Z) : list Z :=
  match ip with
  | hi :: lo :: rest => (hi * 256 + lo) :: groups16 rest
  | _ => []
  end.

(** The length of the run of zero groups at the head of [g]. *)
Fixpoint zeroRun (g : list Z) : Z :=
  match g with
  | x :: rest => if x =? 0 then 1 + zeroRun rest else 0
  | [] => 0
  end.

(** The first longest run of at least two zero groups, as (start, end). *)
Fixpoint longestZeroRun (g : list Z) (i : Z) (best : Z * Z) : Z * Z :=
  match g with
  | [] => best
  | _ :: rest =>
      let l := zeroRun g in
      let best' := if (2 <=? l) && (snd best - fst best <? l) then (i, i + l) else best in
      longestZeroRun rest (i + 1) best'
  end.

(** The groups after the double colon. *)
Fixpoint print6After (g : list Z) : string :=
  match g with
  | [] => EmptyString
  | x :: rest => hex16 x +:+ (match rest with [] => "" | _ => ":" end) +:+ print6After rest
  end.

Fixpoint print6 (g : list Z) (i : Z) (zeroStart zeroEnd : Z) : string :=
  match g with
  | [] => EmptyString
  | x :: rest =>
      if i =? zeroStart then
        "::" +:+ print6After (skipn (Z.to_nat (zeroEnd - i)) g)
      else
        (if 0 <? i then ":" else "") +:+ hex16 x +:+ print6 rest (i + 1) zeroStart zeroEnd
  end.

Definition hexByte (b : Z) : string :=
  String (hexDigit (b / 16)) (String (hexDigit (b mod 16)) EmptyString).

Definition hexString (p : list Z) : string :=
  fold_right (fun b acc => hexByte b +:+ acc) EmptyString p.

Definition dotted (p : list Z) : string :=
  match p with
  | [a; b; c; d] => itoa a +:+ "." +:+ itoa b +:+ "." +:+ itoa c +:+ "." +:+ itoa d
  | _ => EmptyString
  end.

(** [ip.String()]. *)
Definition IP_String (ip : IP) : string :=
  if len ip =? 0 then "<nil>"
  else if negb (len ip =? 4) && negb (len ip =? 16) then "?" +:+ hexString ip
  else if len (To4 ip) =? 4 then dotted (To4 ip)
  else
    let g := groups16 ip in
    let '(zeroStart, zeroEnd) := longestZeroRun g 0 (255, 255) in
    print6 g 0 zeroStart zeroEnd.

(** [n.String()]. *)
Definition IPNet_String (n : IPNet) : string :=
  match networkNumberAndMask n with
  | None => "<nil>"
  | Some (nn, m) =>
      let l := simpleMaskLength m in
      if l =? -1 then IP_String nn +:+ "/" +:+ hexString m
      else IP_String nn +:+ "/" +:+ itoa l
  end.

End GoText.

#[export] Instance GoNetText : NetText :=
  {| ParseCIDR := GoText.ParseCIDR; IPNet_String := GoText.IPNet_String |}.


(** ** Package ipam: the catalog of pools.go

    Go visits the entries of a map in an order it does not specify.  A
    function that ranges over a map is therefore given the entries in the
    order of the visit, and [visitOf] says which lists can be that order:
    the permutations of the entries of the map. *)

Definition visitOf {V : Type} (m : option (gmap string V)) (entries : list (string * V)) : Prop :=
  match m with
  | None => entries = []
  | Some m => entries ≡ₚ map_to_list m
  end.

(** The errors of pools.go. *)
Inductive poolsError : Type :=
| ErrPoolNotFound (poolID : string)
    (* "pool %s not found" *)
| ErrPoolNoCIDRs (poolID : string)
    (* "pool %s has no CIDRs defined" *)
| ErrPoolInvalidCIDR (poolID cidrStr : string)
    (* "pool %s has invalid CIDR %s: %w" *)
| ErrPoolOverlaps (poolID cidrStr : string).
    (* "pool %s CIDR %s overlaps with another pool" *)

(** [PoolsConfig]; [Pools = None] is Go's nil map. *)
Record PoolsConfig : Type := mkPoolsConfig {
  Pools : option (gmap string PoolDefinition)
}.

Definition NewPoolsConfig : PoolsConfig := {| Pools := Some ∅ |}.

(** [p.GetPool(poolID)]: [None] stands for [(nil, false)]. *)
Definition GetPool (p : PoolsConfig) (poolID : string) : option PoolDefinition :=
  match Pools p with
  | None => None
  | Some m => m !! poolID
  end.

(** [p.AddPool(poolID, pool)]. *)
Definition AddPool (p : PoolsConfig) (poolID : string) (pool : PoolDefinition) : PoolsConfig :=
  let m := match Pools p with
           | None => ∅
           | Some m => m
           end in
  {| Pools := Some (<[poolID := pool]> m) |}.

(** [p.RemovePool(poolID)]: the catalog after the call and the error. *)
Definition RemovePool (p : PoolsConfig) (poolID : string) : PoolsConfig * option poolsError :=
  match Pools p with
  | None => (p, Some (ErrPoolNotFound poolID))
  | Some m =>
      match m !! poolID with
      | None => (p, Some (ErrPoolNotFound poolID))
      | Some _ => ({| Pools := Some (delete poolID m) |}, None)
      end
  end.

(** [p.ListPoolIDs()], for the entries of the map in the order of the
    visit; a nil map has no entries and gives Go's nil slice. *)
Definition ListPoolIDs (entries : list (string * PoolDefinition)) : list string :=
  map fst entries.

Section Catalog.

Context `{NetText}.

(** The inner loop of [ValidatePools] over the CIDRs of one pool:
    [allNetworks] after the loop, or the error. *)
Fixpoint validateCIDRs (poolID : string) (cidrs : list string) (allNetworks : list IPNet)
    : list IPNet + poolsError :=
  match cidrs with
  | [] => inl allNetworks
  | cidrStr :: rest =>
      match ParseCIDR cidrStr with
      | None => inr (ErrPoolInvalidCIDR poolID cidrStr)
      | Some network =>
          if existsb (fun existing => networksOverlap network existing) allNetworks
          then inr (ErrPoolOverlaps poolID cidrStr)
          else validateCIDRs poolID rest (allNetworks ++ [network])
      end
  end.

(** The outer loop of [ValidatePools] over the pools in the order of the
    visit. *)
Fixpoint validateLoopPools (entries : list (string * PoolDefinition)) (allNetworks : list IPNet)
    : option poolsError :=
  match entries with
  | [] => None
  | (poolID, pool) :: rest =>
      match PoolCIDR pool with
      | [] => Some (ErrPoolNoCIDRs poolID)
      | _ =>
          match validateCIDRs poolID (PoolCIDR pool) allNetworks with
          | inr err => Some err
          | inl allNetworks' => validateLoopPools rest allNetworks'
          end
      end
  end.

(** [p.ValidatePools()] when the map is visited in the order [entries]
    (the empty list for the nil map, on which the function returns at
    once). *)
Definition ValidatePools (entries : list (string * PoolDefinition)) : option poolsError :=
  validateLoopPools entries [].

End Catalog.

(** ** Package ipam: the scans of allocations.go *)

(** The inner loop of the two finders: the first allocation of the list
    that satisfies the test. *)
Fixpoint findFirst (test : Allocation -> bool) (allocations : list Allocation)
    : option Allocation :=
  match allocations with
  | [] => None
  | a :: rest => if test a then Some a else findFirst test rest
  end.

(** The outer loop of the two finders over the pools in the order of the
    visit: the allocation found and its pool. *)
Fixpoint findInPools (test : Allocation -> bool) (entries : list (string * list Allocation))
    : option (Allocation * string) :=
  match entries with
  | [] => None
  | (poolID, allocations) :: rest =>
      match findFirst test allocations with
      | Some a => Some (a, poolID)
      | None => findInPools test rest
      end
  end.

(** [d.FindAllocationByID(id)] when the map is visited in the order
    [entries]; [None] stands for [(nil, "", false)]. *)
Definition FindAllocationByID (entries : list (string * list Allocation)) (id : string)
    : option (Allocation * string) :=
  findInPools (fun a => String.eqb (ID a) id) entries.

(** [d.FindAllocationByCIDR(cidr)], likewise. *)
Definition FindAllocationByCIDR (entries : list (string * list Allocation)) (cidr : string)
    : option (Allocation * string) :=
  findInPools (fun a => String.eqb (CIDR a) cidr) entries.

Definition hasParent (parentCIDR : string) (a : Allocation) : bool :=
  match ParentCIDR a with
  | Some p => String.eqb p parentCIDR
  | None => false
  end.

(** [d.GetAllocationsForParent(parentCIDR)] when the map is visited in
    the order [entries]. *)
Fixpoint GetAllocationsForParent (entries : list (string * list Allocation))
    (parentCIDR : string) : list Allocation :=
  match entries with
  | [] => []
  | (_, allocations) :: rest =>
      List.filter (hasParent parentCIDR) allocations
      ++ GetAllocationsForParent rest parentCIDR
  end.

(** [d.AllAllocations()] when the map is visited in the order [entries]. *)
Fixpoint AllAllocations (entries : list (string * list Allocation)) : list Allocation :=
  match entries with
  | [] => []
  | (_, allocations) :: rest => allocations ++ AllAllocations rest
  end.

(** ** Package client: retry.go *)

(** [RetryConfig].  The delays are [time.Duration] values, in nanoseconds;
    the field [JitterPct] is a [float64] that, like [BaseDelay] and
    [MaxDelay], enters only the length of the wait between two attempts. *)
Record RetryConfig : Type := mkRetryConfig {
  MaxRetries : Z;
  BaseDelay : Z;
  MaxDelay : Z
}.

(** What [WithRetry] returns when it does not return [nil]. *)
Inductive retryError (E : Type) : Type :=
| FromFunc (err : E)
    (* return err *)
| FromContext
    (* return ctx.Err() *)
| ErrExceededMaxRetries (maxRetries : Z) (lastErr : option E).
    (* "exceeded max retries (%d): %w" *)

Arguments FromFunc {E} err.
Arguments FromContext {E}.
Arguments ErrExceededMaxRetries {E} maxRetries lastErr.

(** [WithRetry].  The function [fn] is called once for each attempt, in
    increasing order, so what it returns is given by attempt: the pair
    [(shouldRetry, err)].  [ctxDone attempt] tells whether, in the [select]
    that follows the attempt, the context is done before the timer fires.
    [remaining] counts the iterations that the [for] loop has left. *)
Fixpoint retryLoop {E : Type} (config : RetryConfig) (fn : Z -> bool * option E)
    (ctxDone : Z -> bool) (remaining : nat) (attempt : Z) (lastErr : option E)
    : option (retryError E) :=
  match remaining with
  | O => Some (ErrExceededMaxRetries (MaxRetries config) lastErr)
  | S remaining' =>
      if attempt <=? MaxRetries config then
        let '(shouldRetry, err) := fn attempt in
        match err with
        | None => None
        | Some e =>
            if negb shouldRetry then Some (FromFunc e)
            else if (attempt <? MaxRetries config) && ctxDone attempt then Some FromContext
            else retryLoop config fn ctxDone remaining' (attempt + 1) (Some e)
        end
      else Some (ErrExceededMaxRetries (MaxRetries config) lastErr)
  end.

Definition WithRetry {E : Type} (ctxDone : Z -> bool) (config : RetryConfig)
    (fn : Z -> bool * option E) : option (retryError E) :=
  retryLoop config fn ctxDone (Z.to_nat (MaxRetries config + 1)) 0 None.

(** ** Package resources: the search of the earlier pool_resource.go

    [findNextAvailableCIDR] steps through the blocks of a parent range in
    [uint32].  Its loop has no bound of its own (the counter wraps around
    at 2^32), so the model counts the iterations it is allowed:
    [Unfinished] is the answer of a loop that was cut short. *)

Inductive searchError : Type :=
| ErrInvalidParentCIDR (parentCIDR : string)
    (* "invalid parent CIDR %s: %w" *)
| ErrPrefixLargerThanParent (prefixLen parentPrefixLen : Z)
    (* "requested prefix /%d is larger than parent range /%d" *)
| ErrNoBlockInParent (prefixLen : Z) (parentCIDR : string).
    (* "no available /%d block in %s" *)

Inductive searchResult : Type :=
| Found (cidr : string)
| Failed (err : searchError)
| Aborted
| Unfinished.

(** [uint32ToCIDR]. *)
Definition uint32ToCIDR (ip prefixLen : Z) : string :=
  itoa (Z.land (Z.shiftr ip 24) 255) +:+ "." +:+
  itoa (Z.land (Z.shiftr ip 16) 255) +:+ "." +:+
  itoa (Z.land (Z.shiftr ip 8) 255) +:+ "." +:+
  itoa (Z.land ip 255) +:+ "/" +:+ itoa prefixLen.

Section EarlierSearch.

Context `{NetText}.

(** The loop over the candidate blocks. *)
Fixpoint searchLoop (iterations : nat) (parentCIDR : string) (existingNets : list IPNet)
    (prefixLen step endIP candidateStart : Z) : searchResult :=
  match iterations with
  | O => Unfinished
  | S iterations' =>
      if u32 (u32 (candidateStart + step) - 1) <=? endIP then
        let candidateNet := uint32ToCIDR candidateStart prefixLen in
        match ParseCIDR candidateNet with
        | None =>
            searchLoop iterations' parentCIDR existingNets prefixLen step endIP
                       (u32 (candidateStart + step))
        | Some candidateIPNet =>
            if existsb (fun existing => networksOverlap_contains candidateIPNet existing)
                       existingNets
            then searchLoop iterations' parentCIDR existingNets prefixLen step endIP
                            (u32 (candidateStart + step))
            else Found candidateNet
        end
      else Failed (ErrNoBlockInParent prefixLen parentCIDR)
  end.

(** [findNextAvailableCIDR], cut after [iterations] turns of its loop. *)
Definition findNextAvailableCIDR (iterations : nat) (parentCIDR : string)
    (existingCIDRs : list string) (prefixLen : Z) : searchResult :=
  match ParseCIDR parentCIDR with
  | None => Failed (ErrInvalidParentCIDR parentCIDR)
  | Some parentNet =>
      let parentPrefixLen := fst (Size (netMask parentNet)) in
      if prefixLen <? parentPrefixLen
      then Failed (ErrPrefixLargerThanParent prefixLen parentPrefixLen)
      else
        let existingNets := omap ParseCIDR existingCIDRs in
        let stepBits := 32 - prefixLen in
        (* uint32(1) << stepBits: a negative shift count panics *)
        if stepBits <? 0 then Aborted
        else
          let step := shl32 1 stepBits in
          let startIP := ipToUint32 (netIP parentNet) in
          if 32 - parentPrefixLen <? 0 then Aborted
          else
            let endIP := u32 (u32 (startIP + shl32 1 (32 - parentPrefixLen)) - 1) in
            (* startIP % step: division by zero panics *)
            if step =? 0 then Aborted
            else
              let startIP :=
                if negb (startIP mod step =? 0) then u32 ((startIP / step + 1) * step)
                else startIP in
              searchLoop iterations parentCIDR existingNets prefixLen step endIP startIP
  end.

End EarlierSearch.

(** ** Vocabulary of the properties *)

(** The three-valued order on integers. *)
Definition cmp3 (x y : Z) : Z :=
  if x <? y then -1 else if y <? x then 1 else 0.

Definition isByte (b : Z) : bool := (0 <=? b) && (b <? 256).

(** An address as Go holds it: 4 or 16 bytes. *)
Definition validIP (ip : IP) : bool :=
  ((len ip =? 4) || (len ip =? 16)) && forallb isByte ip.

(** A network as [net.ParseCIDR] returns it for IPv4 text: four bytes, a
    CIDR mask of 32 bits, and no bit set outside the mask. *)
Definition IPv4Network (n : IPNet) : bool :=
  (len (netIP n) =? 4) && forallb isByte (netIP n)
  && (snd (Size (netMask n)) =? 32)
  && bytes_eqb (netMask n) (CIDRMask (fst (Size (netMask n))) 32)
  && bytes_eqb (IP_Mask (netIP n) (netMask n)) (netIP n).

(** The first and the last address of a network, as unsigned integers. *)
Definition firstAddress (n : IPNet) : Z := big.SetBytes (netIP n).

Definition lastAddress (n : IPNet) : Z :=
  firstAddress n + 2 ^ (snd (Size (netMask n)) - fst (Size (netMask n))) - 1.

(** The existing list without the entries that have a parent reference. *)
Definition isTopLevel (a : Allocation) : bool :=
  match ParentCIDR a with
  | None => true
  | Some _ => false
  end.

Definition withoutSubAllocations (existing : list Allocation) : list Allocation :=
  List.filter isTopLevel existing.

(** An allocation that carries only a CIDR, and a pool that carries only
    its ranges. *)
Definition allocOf (cidr : string) : Allocation :=
  {| CIDR := cidr; ID := ""; Name := ""; ParentCIDR := None; Metadata := ∅;
     CreatedAt := ""; Reserved := false; ContiguousWith := None |}.

Definition poolOf (cidrs : list string) : PoolDefinition :=
  {| PoolCIDR := cidrs; Description := ""; PoolMetadata := ∅; PoolReserved := false |}.

(** The entries that the gap scan of [findNextInCIDR] works on: those
    whose CIDR parses and whose network address the container contains. *)
Definition scanned `{NetText} (container : IPNet) (a : Allocation) : bool :=
  match ParseCIDR (CIDR a) with
  | Some n => Contains container (netIP n)
  | None => false
  end.

Definition parsable `{NetText} (a : Allocation) : bool :=
  match ParseCIDR (CIDR a) with
  | Some _ => true
  | None => false
  end.

(** The check that a byte [b] left unchanged by the mask byte [m] is a
    multiple of [256 - m]. *)
Definition maskByteCheck (m b : Z) : bool :=
  implb (Z.land b m =? b) (b mod (256 - m) =? 0).

(** The check that, for a byte [a] left unchanged by the mask byte [m],
    a byte [x] agrees with [a] under [m] exactly when it lies in the
    [256 - m] values from [a] on. *)
Definition containsByteCheck (m a x : Z) : bool :=
  implb (Z.land a m =? a)
        (Bool.eqb (Z.land a m =? Z.land x m) ((a <=? x) && (x <? a + (256 - m)))).

(** The outcome of [FindNextAvailableInPool] when every range was refused. *)
Definition poolFailure (prefixLen tried : Z) (skippedReasons : list skipped) : outcome string :=
  match skippedReasons with
  | [reason] => Err (ErrNoBlockInPool prefixLen reason)
  | _ => Err (ErrNoBlockInPoolTried prefixLen tried skippedReasons)
  end.

(** The networks of a catalog, in the order in which [ValidatePools]
    meets them. *)
Definition poolNets `{NetText} (entries : list (string * PoolDefinition)) : list IPNet :=
  flat_map (fun e => omap ParseCIDR (PoolCIDR (snd e))) entries.

(** Every pool has a CIDR and every CIDR parses. *)
Definition poolsWellFormed `{NetText} (entries : list (string * PoolDefinition)) : Prop :=
  Forall (fun e => PoolCIDR (snd e) <> []
                   /\ Forall (fun c => ParseCIDR c <> None) (PoolCIDR (snd e))) entries.

(** No network of the list overlaps one that comes before it. *)
Definition noOverlapIn (nets : list IPNet) : Prop :=
  ForallOrdPairs (fun earlier later => networksOverlap later earlier = false) nets.

(** The number of addresses that [CalculateAvailableSpace] counts for an
    entry: [uint64(1) << (bits - ones)] of its network, and nothing for an
    entry that does not parse. *)
Definition addressCount `{NetText} (a : Allocation) : Z :=
  match ParseCIDR (CIDR a) with
  | Some allocNet => shl64 1 (snd (Size (netMask allocNet)) - fst (Size (netMask allocNet)))
  | None => 0
  end.

(** The sum of the counts of a list, before any wrap-around. *)
Definition countedAddresses `{NetText} (allocations : list Allocation) : Z :=
  fold_right Z.add 0 (map addressCount allocations).

(** Every attempt before [attempt] failed with a request to retry, and the
    context was not done in the wait that followed it. *)
Definition retriedUntil {E : Type} (fn : Z -> bool * option E) (ctxDone : Z -> bool)
    (attempt : Z) : Prop :=
  forall earlier, 0 <= earlier < attempt ->
    (exists e, fn earlier = (true, Some e)) /\ ctxDone earlier = false.

(** The ways in which [WithRetry] ends, for a result [result]. *)
Definition retryOutcome {E : Type} (config : RetryConfig) (fn : Z -> bool * option E)
    (ctxDone : Z -> bool) (result : option (retryError E)) : Prop :=
  match result with
  | None =>
      exists attempt,
        0 <= attempt <= MaxRetries config /\ retriedUntil fn ctxDone attempt
        /\ snd (fn attempt) = None
  | Some (FromFunc e) =>
      exists attempt,
        0 <= attempt <= MaxRetries config /\ retriedUntil fn ctxDone attempt
        /\ fn attempt = (false, Some e)
  | Some FromContext =>
      exists attempt e,
        0 <= attempt < MaxRetries config /\ retriedUntil fn ctxDone attempt
        /\ fn attempt = (true, Some e) /\ ctxDone attempt = true
  | Some (ErrExceededMaxRetries maxRetries lastErr) =>
      maxRetries = MaxRetries config
      /\ ((MaxRetries config < 0 /\ lastErr = None)
          \/ (0 <= MaxRetries config /\ retriedUntil fn ctxDone (MaxRetries config)
              /\ exists e, fn (MaxRetries config) = (true, Some e) /\ lastErr = Some e))
  end.

(** The 4-byte address of a number below 2^32. *)
Definition ipv4Of (v : Z) : IP := big.be_bytes 4 v.

(** The least multiple of [blockSize] that is not below [v]. *)
Definition roundUp (v blockSize : Z) : Z :=
  if v mod blockSize =? 0 then v else v - v mod blockSize + blockSize.

(** Two networks share no address. *)
Definition disjointRanges (n m : IPNet) : Prop :=
  lastAddress n < firstAddress m \/ lastAddress m < firstAddress n.

(** The range of [n] lies within the range of [container]. *)
Definition withinRange (container n : IPNet) : Prop :=
  firstAddress container <= firstAddress n /\ lastAddress n <= lastAddress container.

(** The IPv4 network of prefix length [prefixLen] that starts at [v]. *)
Definition blockOf (v prefixLen : Z) : IPNet :=
  {| netIP := ipv4Of v; netMask := CIDRMask prefixLen 32 |}.

(** What the properties use of [sort.Slice]: on a slice of IPv4 networks,
    where the comparison cannot fail, it returns, and the slice it leaves
    holds the elements it was given, in some order.  Nothing is said of
    that order, so that a property stated for every such procedure holds
    for Go's sort whatever it does with entries that compare equal. *)
Definition rearranges (sort : list sortableAllocation -> outcome (list sortableAllocation))
    : Prop :=
  forall data, Forall (fun x => IPv4Network (network x) = true) data ->
               exists sorted, sort data = Ret sorted /\ sorted ≡ₚ data.

(** * Properties *)

(** ** The ledger *)

Lemma removeLoop_spec id allocations acc found :
  removeLoop id allocations acc found =
    (acc ++ List.filter (fun a => negb (String.eqb (ID a) id)) allocations,
     found || existsb (fun a => String.eqb (ID a) id) allocations).
Proof.
  revert acc found.
  induction allocations as [|a rest IH]; intros acc found; simpl.
  - by rewrite app_nil_r, orb_false_r.
  - destruct (String.eqb (ID a) id); simpl; rewrite IH.
    + by rewrite orb_true_r.
    + by rewrite <- app_assoc.
Qed.

(** C7. Inserting an allocation stamps it with the time of the insert:
    the pool's list grows by exactly one record at its end, that record is
    the caller's with [CreatedAt] replaced by the clock value, and two
    allocations that differ only in the timestamp supplied by the caller
    leave the same ledger. *)
Theorem AddAllocation_stamps_current_time now d poolID alloc :
  GetAllocationsForPool (AddAllocation now d poolID alloc) poolID
    = GetAllocationsForPool d poolID ++ [withCreatedAt alloc now]
  /\ CreatedAt (withCreatedAt alloc now) = now
  /\ (forall t1 t2,
        AddAllocation now d poolID (withCreatedAt alloc t1)
        = AddAllocation now d poolID (withCreatedAt alloc t2)).
Proof.
  split; [|split].
  - unfold GetAllocationsForPool, AddAllocation; simpl.
    rewrite lookup_insert_eq; simpl.
    destruct (Allocations d) as [m|]; simpl; [done|].
    by rewrite lookup_empty.
  - done.
  - intros t1 t2. done.
Qed.

(** C10. Removal either fails and leaves the ledger as it was (the pool
    has no list, or no allocation of the pool has the id), or succeeds and
    deletes from the pool's list exactly the entries with the id, every
    other pool keeping its list. *)
Theorem RemoveAllocation_all_or_nothing d poolID id :
  let '(d', err) := RemoveAllocation d poolID id in
  match err with
  | Some e =>
      d' = d
      /\ ((e = ErrPoolHasNoAllocations poolID
           /\ (Allocations d ≫= fun m => m !! poolID) = None)
          \/ (e = ErrAllocationNotFound id poolID
              /\ Forall (fun a => ID a <> id) (GetAllocationsForPool d poolID)))
  | None =>
      Version d' = Version d
      /\ (exists a, a ∈ GetAllocationsForPool d poolID /\ ID a = id)
      /\ GetAllocationsForPool d' poolID
         = List.filter (fun a => negb (String.eqb (ID a) id)) (GetAllocationsForPool d poolID)
      /\ (forall other, other <> poolID ->
            GetAllocationsForPool d' other = GetAllocationsForPool d other)
  end.
Proof.
  unfold RemoveAllocation, GetAllocationsForPool.
  destruct (Allocations d) as [m|] eqn:Hm; simpl.
  2: { split; [done|]. left. done. }
  destruct (m !! poolID) as [allocations|] eqn:Hl; simpl.
  2: { split; [done|]. left. done. }
  rewrite removeLoop_spec; simpl.
  destruct (existsb _ allocations) eqn:Hex; simpl.
  - split; [done|]. split; [|split].
    + apply existsb_exists in Hex as (a & Hin & Heq).
      exists a. split; [by apply list_elem_of_In|]. by apply String.eqb_eq.
    + by rewrite lookup_insert_eq.
    + intros other Hne. by rewrite lookup_insert_ne.
  - split; [done|]. right. split; [done|].
    apply Forall_forall. intros a Hin Heq.
    assert (existsb (fun a => String.eqb (ID a) id) allocations = true) as Habs.
    { apply existsb_exists. exists a. split; [by apply list_elem_of_In|].
      by apply String.eqb_eq. }
    congruence.
Qed.

(** ** The search over the ranges of a pool *)

Section PoolSearch.

Context `{NetText}.

Lemma filterTopLevelAllocations_filter existing :
  filterTopLevelAllocations existing = List.filter isTopLevel existing.
Proof.
  induction existing as [|a rest IH]; simpl; [done|].
  unfold isTopLevel. destruct (ParentCIDR a); simpl; by rewrite IH.
Qed.

Lemma filterTopLevelAllocations_idemp existing :
  filterTopLevelAllocations (filterTopLevelAllocations existing)
  = filterTopLevelAllocations existing.
Proof.
  induction existing as [|a rest IH]; simpl; [done|].
  destruct (ParentCIDR a) eqn:Hp; simpl; [done|].
  by rewrite Hp, IH.
Qed.

(** C9. Pool-mode allocation gives the same result on the existing list
    and on that list with every entry that has a parent reference removed:
    sub-allocations do not influence it. *)
Theorem FindNextAvailableInPool_ignores_sub_allocations
    (poolDef : PoolDefinition) (existing : list Allocation) (prefixLen : Z) :
  FindNextAvailableInPool poolDef (withoutSubAllocations existing) prefixLen
  = FindNextAvailableInPool poolDef existing prefixLen.
Proof.
  unfold FindNextAvailableInPool, withoutSubAllocations.
  rewrite <- filterTopLevelAllocations_filter.
  by rewrite filterTopLevelAllocations_idemp.
Qed.

(** Two existing lists with the same top-level entries are
    indistinguishable for pool-mode allocation. *)
Lemma FindNextAvailableInPool_top_level_only poolDef existing1 existing2 prefixLen :
  withoutSubAllocations existing1 = withoutSubAllocations existing2 ->
  FindNextAvailableInPool poolDef existing1 prefixLen
  = FindNextAvailableInPool poolDef existing2 prefixLen.
Proof.
  unfold FindNextAvailableInPool, withoutSubAllocations.
  rewrite !filterTopLevelAllocations_filter. by intros ->.
Qed.

Lemma poolLoop_first_success tried before poolCIDRStr after top prefixLen acc cidrResult :
  Forall (fun c => exists e, findNextInCIDR c top prefixLen = Err e) before ->
  findNextInCIDR poolCIDRStr top prefixLen = Ret cidrResult ->
  poolLoop tried (before ++ poolCIDRStr :: after) top prefixLen acc = Ret cidrResult.
Proof.
  intros Hbefore Hok. revert acc.
  induction Hbefore as [|c before [e He] _ IH]; intros acc; simpl.
  - by rewrite Hok.
  - rewrite He. apply IH.
Qed.

Lemma poolLoop_success_inv tried cidrs top prefixLen acc cidrResult :
  poolLoop tried cidrs top prefixLen acc = Ret cidrResult ->
  exists before poolCIDRStr after,
    cidrs = before ++ poolCIDRStr :: after
    /\ Forall (fun c => exists e, findNextInCIDR c top prefixLen = Err e) before
    /\ findNextInCIDR poolCIDRStr top prefixLen = Ret cidrResult.
Proof.
  revert acc. induction cidrs as [|c rest IH]; intros acc; simpl.
  - destruct acc as [|? [|? ?]]; discriminate.
  - destruct (findNextInCIDR c top prefixLen) as [r|e|] eqn:Hc; [| |discriminate].
    + intros [= ->]. exists [], c, rest. by repeat split.
    + intros Hrest. destruct (IH _ Hrest) as (before & c' & after & -> & Hb & Hc').
      exists (c :: before), c', after. repeat split; [|done].
      constructor; [by exists e|done].
Qed.

Lemma poolLoop_all_refused tried cidrs errs top prefixLen acc :
  Forall2 (fun c e => findNextInCIDR c top prefixLen = Err e) cidrs errs ->
  poolLoop tried cidrs top prefixLen acc
  = poolFailure prefixLen tried (acc ++ zip_with Skipped cidrs errs).
Proof.
  intros Hall. revert acc.
  induction Hall as [|c e cidrs errs He _ IH]; intros acc; simpl.
  - by rewrite app_nil_r.
  - rewrite He, IH. by rewrite <- app_assoc.
Qed.

Lemma poolLoop_error_inv tried cidrs top prefixLen acc err :
  poolLoop tried cidrs top prefixLen acc = Err err ->
  exists errs, Forall2 (fun c e => findNextInCIDR c top prefixLen = Err e) cidrs errs.
Proof.
  revert acc. induction cidrs as [|c rest IH]; intros acc; simpl.
  - intros _. exists []. constructor.
  - destruct (findNextInCIDR c top prefixLen) as [r|e|] eqn:Hc; [discriminate| |discriminate].
    intros Hrest. destruct (IH _ Hrest) as [errs Herrs].
    exists (e :: errs). by constructor.
Qed.

(** C6. On a pool with more than one range the search runs the
    single-range procedure on the ranges in their listed order: a range
    that succeeds after all earlier ranges were refused gives the result;
    a result comes from such a range only; and when every range is refused
    the error lists, in order, every range with its own reason.  An error
    is returned in no other situation. *)
Theorem FindNextAvailableInPool_per_range
    (poolDef : PoolDefinition) (existing : list Allocation) (prefixLen : Z) :
  1 < len (PoolCIDR poolDef) ->
  let top := filterTopLevelAllocations existing in
  let refused c := exists e, findNextInCIDR c top prefixLen = Err e in
  (forall before poolCIDRStr after cidrResult,
      PoolCIDR poolDef = before ++ poolCIDRStr :: after ->
      Forall refused before ->
      findNextInCIDR poolCIDRStr top prefixLen = Ret cidrResult ->
      FindNextAvailableInPool poolDef existing prefixLen = Ret cidrResult)
  /\ (forall cidrResult,
        FindNextAvailableInPool poolDef existing prefixLen = Ret cidrResult ->
        exists before poolCIDRStr after,
          PoolCIDR poolDef = before ++ poolCIDRStr :: after
          /\ Forall refused before
          /\ findNextInCIDR poolCIDRStr top prefixLen = Ret cidrResult)
  /\ (forall errs,
        Forall2 (fun c e => findNextInCIDR c top prefixLen = Err e) (PoolCIDR poolDef) errs ->
        FindNextAvailableInPool poolDef existing prefixLen
        = Err (ErrNoBlockInPoolTried prefixLen (len (PoolCIDR poolDef))
                 (zip_with Skipped (PoolCIDR poolDef) errs)))
  /\ (forall err,
        FindNextAvailableInPool poolDef existing prefixLen = Err err ->
        exists errs,
          Forall2 (fun c e => findNextInCIDR c top prefixLen = Err e) (PoolCIDR poolDef) errs
          /\ err = ErrNoBlockInPoolTried prefixLen (len (PoolCIDR poolDef))
                     (zip_with Skipped (PoolCIDR poolDef) errs)).
Proof.
  intros Hmany top refused.
  assert (forall errs,
    Forall2 (fun c e => findNextInCIDR c top prefixLen = Err e) (PoolCIDR poolDef) errs ->
    FindNextAvailableInPool poolDef existing prefixLen
    = Err (ErrNoBlockInPoolTried prefixLen (len (PoolCIDR poolDef))
             (zip_with Skipped (PoolCIDR poolDef) errs))) as Hrefused.
  { intros errs Hall. unfold FindNextAvailableInPool.
    rewrite (poolLoop_all_refused _ _ errs) by done. simpl.
    pose proof (Forall2_length _ _ _ Hall) as Hlen.
    unfold len in Hmany.
    destruct (PoolCIDR poolDef) as [|c1 [|c2 cs]]; simpl in *; try lia.
    destruct errs as [|e1 [|e2 es]]; simpl in *; try lia. done. }
  split; [|split; [|split]].
  - intros before c after r Hsplit Hbefore Hok. unfold FindNextAvailableInPool.
    rewrite Hsplit. by apply poolLoop_first_success.
  - intros r Hr. unfold FindNextAvailableInPool in Hr.
    by apply poolLoop_success_inv in Hr.
  - exact Hrefused.
  - intros err Herr.
    destruct (poolLoop_error_inv _ _ _ _ _ _ Herr) as [errs Herrs].
    exists errs. split; [done|].
    specialize (Hrefused errs Herrs). congruence.
Qed.

End PoolSearch.

Lemma FindNextAvailableInPool_per_range_witness :
  let poolDef := poolOf ["10.0.0.0/24"; "10.0.1.0/24"] in
  let existing := [allocOf "10.0.0.0/24"; allocOf "10.0.1.0/24"] in
  1 < len (PoolCIDR poolDef)
  /\ FindNextAvailableInPool poolDef existing 25
     = Err (ErrNoBlockInPoolTried 25 2
              [Skipped "10.0.0.0/24" (ErrNoBlockInCIDR 25 "10.0.0.0/24");
               Skipped "10.0.1.0/24" (ErrNoBlockInCIDR 25 "10.0.1.0/24")]).
Proof.
  cbv zeta. split; [reflexivity|].
  refine (proj1 (proj2 (proj2
            (FindNextAvailableInPool_per_range
               (poolOf ["10.0.0.0/24"; "10.0.1.0/24"])
               [allocOf "10.0.0.0/24"; allocOf "10.0.1.0/24"] 25 eq_refl)))
            [ErrNoBlockInCIDR 25 "10.0.0.0/24"; ErrNoBlockInCIDR 25 "10.0.1.0/24"] _).
  repeat constructor.
Defined.

(** ** The entries the gap scan works on *)

Section ScannedEntries.

Context `{NetText}.

Lemma filterAllocationsInCIDR_filter allocations container :
  filterAllocationsInCIDR allocations container
  = List.filter (scanned container) allocations.
Proof.
  induction allocations as [|a rest IH]; simpl; [done|].
  unfold scanned at 1.
  destruct (ParseCIDR (CIDR a)) as [n|]; [|done].
  destruct (Contains container (netIP n)); by rewrite IH.
Qed.

Lemma parseSortable_scanned allocations container :
  map alloc (parseSortable (List.filter (scanned container) allocations))
  = List.filter (scanned container) allocations.
Proof.
  induction allocations as [|a rest IH]; simpl; [done|].
  destruct (scanned container a) eqn:Hs; [|done]. simpl.
  unfold scanned in Hs.
  destruct (ParseCIDR (CIDR a)) as [n|]; [|discriminate]. simpl. by rewrite IH.
Qed.

Lemma filter_scanned_parsable allocations container :
  List.filter (scanned container) (List.filter parsable allocations)
  = List.filter (scanned container) allocations.
Proof.
  induction allocations as [|a rest IH]; simpl; [done|].
  unfold parsable at 1, scanned at 2.
  destruct (ParseCIDR (CIDR a)) as [n|] eqn:Hp; simpl; [|done].
  unfold scanned at 1. rewrite Hp, IH. done.
Qed.

Lemma filter_scanned_idemp allocations container :
  List.filter (scanned container) (List.filter (scanned container) allocations)
  = List.filter (scanned container) allocations.
Proof.
  induction allocations as [|a rest IH]; simpl; [done|].
  destruct (scanned container a) eqn:Hs; simpl; [|done].
  by rewrite Hs, IH.
Qed.

(** The allocations that reach the gap scan are, in the order of the
    existing list, those whose CIDR parses and whose network address lies
    in the container; the search gives the same outcome on them alone. *)
Lemma findNextInCIDR_scanned_only containerCIDR containerNet existing prefixLen :
  ParseCIDR containerCIDR = Some containerNet ->
  map alloc (parseSortable (filterAllocationsInCIDR existing containerNet))
  = List.filter (scanned containerNet) existing
  /\ findNextInCIDR containerCIDR (List.filter (scanned containerNet) existing) prefixLen
     = findNextInCIDR containerCIDR existing prefixLen.
Proof.
  intros Hc. split.
  - rewrite filterAllocationsInCIDR_filter. apply parseSortable_scanned.
  - unfold findNextInCIDR. rewrite Hc.
    rewrite !filterAllocationsInCIDR_filter, filter_scanned_idemp. done.
Qed.

(** Entries whose CIDR does not parse never change the outcome of the
    search: it is the outcome on the list without them. *)
Lemma findNextInCIDR_drops_unparsable containerCIDR existing prefixLen :
  findNextInCIDR containerCIDR (List.filter parsable existing) prefixLen
  = findNextInCIDR containerCIDR existing prefixLen.
Proof.
  unfold findNextInCIDR.
  destruct (ParseCIDR containerCIDR) as [containerNet|]; [|done].
  rewrite !filterAllocationsInCIDR_filter, filter_scanned_parsable. done.
Qed.

Lemma findNextInCIDR_unparsable_entry containerCIDR bad existing prefixLen :
  ParseCIDR (CIDR bad) = None ->
  findNextInCIDR containerCIDR (bad :: existing) prefixLen
  = findNextInCIDR containerCIDR existing prefixLen.
Proof.
  intros Hbad. unfold findNextInCIDR.
  destruct (ParseCIDR containerCIDR) as [containerNet|]; [|done].
  simpl. by rewrite Hbad.
Qed.

End ScannedEntries.

(** ** Bytes and integers *)

Lemma len_nil {A : Type} : len (@nil A) = 0.
Proof. done. Qed.

Lemma len_cons {A : Type} (x : A) (l : list A) : len (x :: l) = len l + 1.
Proof. unfold len. simpl. lia. Qed.

Lemma len_app {A : Type} (l1 l2 : list A) : len (l1 ++ l2) = len l1 + len l2.
Proof. unfold len. rewrite length_app. lia. Qed.

Lemma len_nonneg {A : Type} (l : list A) : 0 <= len l.
Proof. unfold len. lia. Qed.

Lemma fold_SetBytes_acc (l : list Z) (acc : Z) :
  fold_left (fun acc b => acc * 256 + b) l acc = acc * 256 ^ len l + big.SetBytes l.
Proof.
  unfold big.SetBytes. revert acc.
  induction l as [|x l IH]; intros acc; simpl.
  - rewrite len_nil. lia.
  - change (0 * 256 + x) with x.
    rewrite (IH (acc * 256 + x)), (IH x), len_cons.
    rewrite Z.pow_add_r by (pose proof (len_nonneg l); lia). lia.
Qed.

Lemma SetBytes_cons (x : Z) (l : list Z) :
  big.SetBytes (x :: l) = x * 256 ^ len l + big.SetBytes l.
Proof. unfold big.SetBytes at 1. simpl. apply fold_SetBytes_acc. Qed.

Lemma SetBytes_app (p q : list Z) :
  big.SetBytes (p ++ q) = big.SetBytes p * 256 ^ len q + big.SetBytes q.
Proof.
  unfold big.SetBytes at 1. rewrite fold_left_app.
  fold (big.SetBytes p). apply fold_SetBytes_acc.
Qed.

Lemma SetBytes_bound (l : list Z) :
  forallb isByte l = true -> 0 <= big.SetBytes l < 256 ^ len l.
Proof.
  induction l as [|x l IH]; simpl; intros Hb.
  - unfold big.SetBytes, len. simpl. lia.
  - apply andb_prop in Hb as [Hx Hl]. specialize (IH Hl).
    unfold isByte in Hx. rewrite SetBytes_cons, len_cons.
    rewrite Z.pow_add_r by (pose proof (len_nonneg l); lia).
    nia.
Qed.

(** Byte-wise comparison of two sequences of the same length is the
    order of the integers they spell, most significant byte first. *)
Lemma compareBytes_order (a b : list Z) :
  length a = length b ->
  forallb isByte a = true -> forallb isByte b = true ->
  compareBytes a b = Ret (cmp3 (big.SetBytes a) (big.SetBytes b)).
Proof.
  revert b. induction a as [|x a IH]; intros [|y b] Hlen Ha Hb;
    simpl in Hlen; try discriminate.
  - done.
  - simpl in Ha, Hb.
    apply andb_prop in Ha as [Hx Ha]. apply andb_prop in Hb as [Hy Hb].
    injection Hlen as Hlen.
    pose proof (SetBytes_bound a Ha) as Ba. pose proof (SetBytes_bound b Hb) as Bb.
    assert (len a = len b) as Hl by (unfold len; lia).
    rewrite !SetBytes_cons, <- Hl. rewrite <- Hl in Bb.
    simpl. unfold cmp3.
    destruct (Z.ltb_spec x y) as [Hxy|Hxy].
    { destruct (Z.ltb_spec (x * 256 ^ len a + big.SetBytes a)
                           (y * 256 ^ len a + big.SetBytes b)); [done|nia]. }
    destruct (Z.ltb_spec y x) as [Hyx|Hyx].
    { destruct (Z.ltb_spec (x * 256 ^ len a + big.SetBytes a)
                           (y * 256 ^ len a + big.SetBytes b)); [nia|].
      destruct (Z.ltb_spec (y * 256 ^ len a + big.SetBytes b)
                           (x * 256 ^ len a + big.SetBytes a)); [done|nia]. }
    assert (x = y) as -> by lia.
    rewrite (IH b Hlen Ha Hb). unfold cmp3. f_equal.
    destruct (Z.ltb_spec (big.SetBytes a) (big.SetBytes b));
      destruct (Z.ltb_spec (y * 256 ^ len a + big.SetBytes a)
                           (y * 256 ^ len a + big.SetBytes b)); try lia.
    destruct (Z.ltb_spec (big.SetBytes b) (big.SetBytes a));
      destruct (Z.ltb_spec (y * 256 ^ len a + big.SetBytes b)
                           (y * 256 ^ len a + big.SetBytes a)); try lia; done.
Qed.

Lemma validIP_length (ip : IP) :
  validIP ip = true ->
  (length ip = 4%nat \/ length ip = 16%nat) /\ forallb isByte ip = true.
Proof.
  unfold validIP, len. intros Hv.
  apply andb_prop in Hv as [Hlen Hb]. split; [|done].
  apply orb_prop in Hlen as [Hlen|Hlen]; apply Z.eqb_eq in Hlen; lia.
Qed.

Lemma To16_of_4 (ip : IP) : length ip = 4%nat -> To16 ip = v4InV6Prefix ++ ip.
Proof. intros Hl. unfold To16, len. by rewrite Hl. Qed.

Lemma To16_of_16 (ip : IP) : length ip = 16%nat -> To16 ip = ip.
Proof. intros Hl. unfold To16, len. by rewrite Hl. Qed.

Lemma To16_valid (ip : IP) :
  validIP ip = true ->
  length (To16 ip) = 16%nat /\ forallb isByte (To16 ip) = true.
Proof.
  intros Hv. apply validIP_length in Hv as [[Hlen|Hlen] Hb]; unfold To16, len;
    rewrite Hlen; simpl.
  - split; [by rewrite Hlen|done].
  - done.
Qed.

(** ** Comparing addresses *)

(** C8, as the code has it. For addresses of 4 or 16 bytes [compareIPs]
    returns -1, 0 or 1 according to the unsigned, most-significant-byte
    first order of their 16-byte forms, a 4-byte address being widened to
    its IPv4-mapped form; for two addresses of one width this is the order
    of the addresses themselves.  The call returns for operands of
    different widths as well. *)
Theorem compareIPs_order_of_widened (a b : IP) :
  validIP a = true -> validIP b = true ->
  compareIPs a b = Ret (cmp3 (big.SetBytes (To16 a)) (big.SetBytes (To16 b)))
  /\ (len a = len b ->
      compareIPs a b = Ret (cmp3 (big.SetBytes a) (big.SetBytes b))).
Proof.
  intros Ha Hb.
  destruct (To16_valid a Ha) as [La Ba]. destruct (To16_valid b Hb) as [Lb Bb].
  assert (compareIPs a b = Ret (cmp3 (big.SetBytes (To16 a)) (big.SetBytes (To16 b)))) as Hw.
  { unfold compareIPs. apply compareBytes_order; [congruence|done|done]. }
  split; [done|].
  intros Hlen. rewrite Hw. f_equal.
  apply validIP_length in Ha as [[Hla|Hla] Hba];
    apply validIP_length in Hb as [[Hlb|Hlb] Hbb];
    unfold len in Hlen; try lia.
  2: { by rewrite !To16_of_16. }
  rewrite !To16_of_4 by done.
  rewrite !SetBytes_app.
  pose proof (SetBytes_bound a Hba) as Va. pose proof (SetBytes_bound b Hbb) as Vb.
  unfold len. rewrite Hla, Hlb. unfold cmp3.
  destruct (Z.ltb_spec (big.SetBytes a) (big.SetBytes b));
    destruct (Z.ltb_spec (big.SetBytes v4InV6Prefix * 256 ^ Z.of_nat 4 + big.SetBytes a)
                         (big.SetBytes v4InV6Prefix * 256 ^ Z.of_nat 4 + big.SetBytes b));
    try lia.
  destruct (Z.ltb_spec (big.SetBytes b) (big.SetBytes a));
    destruct (Z.ltb_spec (big.SetBytes v4InV6Prefix * 256 ^ Z.of_nat 4 + big.SetBytes b)
                         (big.SetBytes v4InV6Prefix * 256 ^ Z.of_nat 4 + big.SetBytes a));
    try lia; done.
Qed.

Lemma compareIPs_order_of_widened_witness :
  compareIPs [10; 0; 0; 1] [10; 0; 0; 2] = Ret (-1)
  /\ compareIPs [192; 168; 0; 0] [0; 0; 0; 0; 0; 0; 0; 0; 0; 0; 0; 0; 0; 0; 0; 1] = Ret 1.
Proof.
  split.
  - exact (proj2 (compareIPs_order_of_widened [10; 0; 0; 1] [10; 0; 0; 2]
                    eq_refl eq_refl) eq_refl).
  - exact (proj1 (compareIPs_order_of_widened [192; 168; 0; 0]
                    [0; 0; 0; 0; 0; 0; 0; 0; 0; 0; 0; 0; 0; 0; 0; 1] eq_refl eq_refl)).
Defined.

(** C8, as stated, fails: the operands 10.0.0.1 (4 bytes) and ::1
    (16 bytes) do not share a width, yet the call does not fail; it
    returns 1. *)
Lemma compareIPs_mixed_width_returns :
  let a := [10; 0; 0; 1] in
  let b := [0; 0; 0; 0; 0; 0; 0; 0; 0; 0; 0; 0; 0; 0; 0; 1] in
  validIP a = true /\ validIP b = true /\ len a <> len b
  /\ compareIPs a b = Ret 1
  /\ ~ (len a <> len b -> compareIPs a b = Panic).
Proof.
  cbv zeta. repeat split; try done.
  intros Hfail. specialize (Hfail ltac:(done)). discriminate Hfail.
Qed.

Lemma compareBytes_returns (a b : list Z) :
  (length a <= length b)%nat -> compareBytes a b <> Panic.
Proof.
  revert b. induction a as [|x a IH]; intros b Hlen; simpl; [done|].
  destruct b as [|y b]; simpl in Hlen; [lia|].
  destruct (x <? y); [done|]. destruct (y <? x); [done|].
  apply IH. lia.
Qed.

(** The call fails exactly when the first operand has a 16-byte form and
    the second has none. *)
Lemma compareIPs_fails_iff (a b : IP) :
  compareIPs a b = Panic
  <-> (len a = 4 \/ len a = 16) /\ ~ (len b = 4 \/ len b = 16).
Proof.
  unfold compareIPs, To16, IPv4len, IPv6len.
  assert (forall ip : IP, len ip = 4 -> length (v4InV6Prefix ++ ip) = 16%nat) as L4.
  { intros ip Hl. rewrite length_app. unfold len in Hl. simpl. lia. }
  destruct (Z.eqb_spec (len a) 4) as [Ha4|Ha4];
    [|destruct (Z.eqb_spec (len a) 16) as [Ha16|Ha16]];
    (destruct (Z.eqb_spec (len b) 4) as [Hb4|Hb4];
      [|destruct (Z.eqb_spec (len b) 16) as [Hb16|Hb16]]).
  all: try (split; [intros Hp; exfalso; revert Hp; apply compareBytes_returns;
                    rewrite ?L4 by done; unfold len in *; simpl; lia
                   | intros [_ Hn]; exfalso; apply Hn; lia]).
  all: try (split; [intros _; split; [lia|lia] | intros _]).
  - simpl. done.
  - destruct a as [|x a]; [unfold len in Ha16; simpl in Ha16; lia|done].
  - split; [done|]. intros [Hn _]. lia.
Qed.

(** ** Overlap of networks *)

Lemma lor_disjoint (hi lo k : Z) :
  0 <= k -> 0 <= lo < 2 ^ k -> Z.lor (hi * 2 ^ k) lo = hi * 2 ^ k + lo.
Proof.
  intros Hk Hlo.
  assert (Z.land (hi * 2 ^ k) lo = 0) as Hland.
  { apply Z.bits_inj'. intros n Hn. rewrite Z.land_spec, Z.bits_0.
    destruct (Z.lt_ge_cases n k).
    - by rewrite Z.mul_pow2_bits_low by lia.
    - rewrite <- (Z.mod_small lo (2 ^ k)) by lia.
      rewrite Z.mod_pow2_bits_high by lia. apply andb_false_r. }
  by rewrite <- Z.lxor_lor, <- Z.add_nocarry_lxor.
Qed.

Lemma bytes_eqb_eq (p q : list Z) : bytes_eqb p q = true -> p = q.
Proof.
  unfold bytes_eqb, len. intros Hpq.
  apply andb_prop in Hpq as [Hlen Hall]. apply Z.eqb_eq in Hlen.
  assert (length p = length q) as Hl by lia. clear Hlen.
  revert q Hl Hall. induction p as [|x p IH]; intros [|y q] Hl Hall;
    simpl in *; try discriminate; [done|].
  apply andb_prop in Hall as [Hxy Hall]. apply Z.eqb_eq in Hxy.
  f_equal; [done|]. apply IH; [lia|done].
Qed.

Lemma isByte_range (b : Z) : isByte b = true -> 0 <= b < 256.
Proof. unfold isByte. lia. Qed.

Lemma forallb_isByte_4 (b0 b1 b2 b3 : Z) :
  forallb isByte [b0; b1; b2; b3] = true ->
  0 <= b0 < 256 /\ 0 <= b1 < 256 /\ 0 <= b2 < 256 /\ 0 <= b3 < 256.
Proof.
  simpl. rewrite !andb_true_iff. intros (H0 & H1 & H2 & H3 & _).
  auto using isByte_range.
Qed.

Lemma ipToUint32_SetBytes (b0 b1 b2 b3 : Z) :
  forallb isByte [b0; b1; b2; b3] = true ->
  ipToUint32 [b0; b1; b2; b3] = big.SetBytes [b0; b1; b2; b3].
Proof.
  intros Hb. apply forallb_isByte_4 in Hb as (H0 & H1 & H2 & H3).
  unfold ipToUint32, To4, len. simpl.
  unfold shl32, u32. rewrite !Z.shiftl_mul_pow2 by lia.
  rewrite (Z.mod_small (b0 * 2 ^ 24)) by lia.
  rewrite (Z.mod_small (b1 * 2 ^ 16)) by lia.
  rewrite (Z.mod_small (b2 * 2 ^ 8)) by lia.
  rewrite (Z.mod_small b3) by lia.
  rewrite (lor_disjoint b0 (b1 * 2 ^ 16) 24) by lia.
  replace (b0 * 2 ^ 24 + b1 * 2 ^ 16) with ((b0 * 2 ^ 8 + b1) * 2 ^ 16) by lia.
  rewrite (lor_disjoint _ (b2 * 2 ^ 8) 16) by lia.
  replace ((b0 * 2 ^ 8 + b1) * 2 ^ 16 + b2 * 2 ^ 8)
    with ((b0 * 2 ^ 16 + b1 * 2 ^ 8 + b2) * 2 ^ 8) by lia.
  rewrite lor_disjoint by lia.
  unfold big.SetBytes. simpl. lia.
Qed.

(** A byte that a byte of a CIDR mask leaves unchanged is a multiple of
    the size of the hole of that mask byte. *)
Lemma land_mask_byte (m b : Z) :
  In m [0; 128; 192; 224; 240; 248; 252; 254; 255] ->
  0 <= b < 256 -> Z.land b m = b -> b mod (256 - m) = 0.
Proof.
  intros Hm Hb Hland.
  assert (forallb (fun m => forallb (fun k => maskByteCheck m (Z.of_nat k)) (seq 0 256))
            [0; 128; 192; 224; 240; 248; 252; 254; 255] = true) as Hall
    by (vm_compute; reflexivity).
  pose proof (proj1 (forallb_forall _ _) Hall m Hm) as Hrow.
  assert (In (Z.to_nat b) (seq 0 256)) as Hin by (apply in_seq; lia).
  pose proof (proj1 (forallb_forall _ _) Hrow (Z.to_nat b) Hin) as Hcell.
  cbv beta in Hcell. rewrite Z2Nat.id in Hcell by lia.
  unfold maskByteCheck in Hcell.
  rewrite Hland, Z.eqb_refl in Hcell. cbn [implb] in Hcell.
  by apply Z.eqb_eq.
Qed.

Lemma prefix_cases (ones : Z) :
  0 <= ones <= 32 ->
  In ones [0; 1; 2; 3; 4; 5; 6; 7; 8; 9; 10; 11; 12; 13; 14; 15; 16; 17; 18; 19; 20;
           21; 22; 23; 24; 25; 26; 27; 28; 29; 30; 31; 32].
Proof.
  intros Hr. replace ones with (Z.of_nat (Z.to_nat ones)) by lia.
  assert (Z.to_nat ones < 33)%nat as Hlt by lia.
  revert Hlt. generalize (Z.to_nat ones). intros n Hn.
  do 33 (destruct n as [|n]; [simpl; tauto|]). lia.
Qed.

Ltac compute_constants :=
  repeat match goal with
  | |- context [Z.shiftl 1 ?e] =>
      let c := eval vm_compute in (Z.shiftl 1 e) in change (Z.shiftl 1 e) with c
  | |- context [2 ^ ?e] =>
      let c := eval vm_compute in (2 ^ e) in change (2 ^ e) with c
  | H : context [256 - ?m] |- _ =>
      let c := eval vm_compute in (256 - m) in change (256 - m) with c in H
  end.

Ltac mask_byte H :=
  match type of H with
  | Z.land ?b ?m = ?b =>
      let F := fresh "F" in
      assert (b mod (256 - m) = 0) as F
        by (apply land_mask_byte; [simpl; tauto | lia | exact H]);
      clear H
  end.

(** For an IPv4 network the [uint32] range of [networksOverlap] is the
    range of its addresses: the start is the big-endian value of the four
    bytes, and the end, though computed with two wrap-arounds, is the last
    address. *)
Lemma IPv4Network_range (n : IPNet) :
  IPv4Network n = true ->
  let ones := fst (Size (netMask n)) in
  let bits := snd (Size (netMask n)) in
  ipToUint32 (netIP n) = firstAddress n
  /\ u32 (u32 (ipToUint32 (netIP n) + shl32 1 (bits - ones)) - 1) = lastAddress n
  /\ 0 <= firstAddress n <= lastAddress n /\ lastAddress n < 2 ^ 32.
Proof.
  destruct n as [ip mask]. unfold IPv4Network, firstAddress, lastAddress. simpl.
  rewrite !andb_true_iff. intros ((((Hlen & Hbytes) & Hbits) & Hmask) & Hzero).
  apply Z.eqb_eq in Hlen, Hbits. apply bytes_eqb_eq in Hmask, Hzero.
  unfold len in Hlen.
  destruct ip as [|b0 [|b1 [|b2 [|b3 [|]]]]]; simpl in Hlen; try lia. clear Hlen.
  rewrite (ipToUint32_SetBytes _ _ _ _ Hbytes).
  apply forallb_isByte_4 in Hbytes as (H0 & H1 & H2 & H3).
  remember (fst (Size mask)) as ones eqn:Hones.
  assert (0 <= ones <= 32) as Hrange.
  { destruct (Z.ltb_spec ones 0) as [Hneg|Hpos].
    - exfalso. rewrite Hmask in Hbits. unfold CIDRMask in Hbits.
      replace (ones <? 0) with true in Hbits by lia. simpl in Hbits. discriminate.
    - destruct (Z.ltb_spec 32 ones) as [Hbig|Hok]; [|lia].
      exfalso. rewrite Hmask in Hbits. unfold CIDRMask in Hbits.
      replace (32 <? ones) with true in Hbits by lia.
      rewrite orb_true_r in Hbits. simpl in Hbits. discriminate. }
  rewrite Hbits. clear Hbits Hones.
  apply prefix_cases in Hrange. simpl in Hrange.
  unfold big.SetBytes, shl32, u32. simpl fold_left.
  repeat (destruct Hrange as [<-|Hrange]); try contradiction;
    subst mask; vm_compute CIDRMask in Hzero;
    unfold IP_Mask, len in Hzero; simpl in Hzero;
    injection Hzero as E0 E1 E2 E3;
    mask_byte E0; mask_byte E1; mask_byte E2; mask_byte E3;
    unfold firstAddress, big.SetBytes; cbn [fold_left netIP];
    compute_constants; Z.to_euclidean_division_equations; lia.
Qed.

(** ** Networks read from IPv4 text *)

Lemma isByte_land (b c : Z) : 0 <= b < 256 -> 0 <= c -> isByte (Z.land b c) = true.
Proof.
  intros Hb Hc. unfold isByte.
  assert (0 <= Z.land b c) by (apply Z.land_nonneg; lia).
  assert (Z.land b c = Z.land b c mod 2 ^ 8) as Hmod.
  { rewrite <- Z.land_ones by lia.
    rewrite <- Z.land_assoc, (Z.land_comm c), Z.land_assoc.
    rewrite (Z.land_ones b) by lia. by rewrite (Z.mod_small b) by lia. }
  pose proof (Z.mod_pos_bound (Z.land b c) (2 ^ 8) ltac:(lia)).
  lia.
Qed.

Lemma bytes_eqb_refl (p : list Z) : bytes_eqb p p = true.
Proof.
  unfold bytes_eqb. rewrite Z.eqb_refl. simpl.
  induction p as [|x p IH]; simpl; [done|]. by rewrite Z.eqb_refl, IH.
Qed.

Lemma length_maskBytes (l : nat) (n : Z) : length (maskBytes l n) = l.
Proof.
  revert n. induction l as [|l IH]; intros n; simpl; [done|].
  destruct (8 <=? n); simpl; by rewrite IH.
Qed.

Lemma maskBytes_nonneg (l : nat) (n : Z) : 0 <= n -> Forall (fun c => 0 <= c) (maskBytes l n).
Proof.
  revert n. induction l as [|l IH]; intros n Hn; simpl; [constructor|].
  destruct (Z.leb_spec 8 n).
  - constructor; [lia|]. apply IH. lia.
  - constructor; [|apply IH; lia].
    assert (n = 0 \/ n = 1 \/ n = 2 \/ n = 3 \/ n = 4 \/ n = 5 \/ n = 6 \/ n = 7)
      as Hcases by lia.
    repeat (destruct Hcases as [->|Hcases]; [vm_compute; discriminate|]).
    subst n. vm_compute. discriminate.
Qed.

Lemma Size_CIDRMask_32 (k : Z) : 0 <= k <= 32 -> Size (CIDRMask k 32) = (k, 32).
Proof.
  intros Hk. apply prefix_cases in Hk. simpl in Hk.
  repeat (destruct Hk as [<-|Hk]; [vm_compute; reflexivity|]). contradiction.
Qed.

Lemma IP_Mask_4_4 (b0 b1 b2 b3 c0 c1 c2 c3 : Z) :
  IP_Mask [b0; b1; b2; b3] [c0; c1; c2; c3]
  = [Z.land b0 c0; Z.land b1 c1; Z.land b2 c2; Z.land b3 c3].
Proof. reflexivity. Qed.

Lemma IP_Mask_mapped_4 (b0 b1 b2 b3 c0 c1 c2 c3 : Z) :
  IP_Mask (To16 [b0; b1; b2; b3]) [c0; c1; c2; c3]
  = [Z.land b0 c0; Z.land b1 c1; Z.land b2 c2; Z.land b3 c3].
Proof. reflexivity. Qed.

(** Four bytes masked by a CIDR mask of 32 bits form an IPv4 network. *)
Lemma IPv4Network_masked (b0 b1 b2 b3 k : Z) :
  forallb isByte [b0; b1; b2; b3] = true -> 0 <= k <= 32 ->
  IPv4Network {| netIP := IP_Mask (To16 [b0; b1; b2; b3]) (CIDRMask k 32);
                 netMask := CIDRMask k 32 |} = true.
Proof.
  intros Hb Hk. apply forallb_isByte_4 in Hb as (H0 & H1 & H2 & H3).
  pose proof (Size_CIDRMask_32 k Hk) as HS.
  assert (length (CIDRMask k 32) = 4%nat /\ Forall (fun c => 0 <= c) (CIDRMask k 32))
    as [Hlen Hpos].
  { unfold CIDRMask. simpl negb. cbn [andb].
    replace ((k <? 0) || (32 <? k)) with false by lia.
    split; [apply length_maskBytes|apply maskBytes_nonneg; lia]. }
  destruct (CIDRMask k 32) as [|c0 [|c1 [|c2 [|c3 [|]]]]] eqn:Hm;
    simpl in Hlen; try discriminate.
  apply Forall_cons in Hpos as [P0 Hpos]. apply Forall_cons in Hpos as [P1 Hpos].
  apply Forall_cons in Hpos as [P2 Hpos]. apply Forall_cons in Hpos as [P3 _].
  rewrite IP_Mask_mapped_4. unfold IPv4Network. cbn [netIP netMask].
  rewrite HS. cbn [fst snd]. rewrite Hm, IP_Mask_4_4.
  rewrite <- !Z.land_assoc, !Z.land_diag.
  rewrite !bytes_eqb_refl. cbn [forallb].
  rewrite !isByte_land by done. reflexivity.
Qed.

Lemma isDigit_digitVal (c : ascii) :
  GoText.isDigit c = true -> 0 <= GoText.digitVal c <= 9.
Proof.
  unfold GoText.isDigit, GoText.digitVal. cbv zeta. intros Hd.
  apply andb_prop in Hd as [Hlo Hhi]. apply Z.leb_le in Hlo, Hhi. lia.
Qed.

Lemma parseIPv4Fields_bytes s atStart prevDot val digLen fields r :
  0 <= val <= 255 -> forallb isByte fields = true -> (length fields <= 3)%nat ->
  GoText.parseIPv4Fields s atStart prevDot val digLen fields = Some r ->
  length r = 4%nat /\ forallb isByte r = true.
Proof.
  revert atStart prevDot val digLen fields.
  induction s as [|c s IH]; intros atStart prevDot val digLen fields Hval Hf Hlen; simpl.
  - unfold len. destruct (Z.ltb_spec (Z.of_nat (length fields)) 3); [done|].
    intros [= <-]. rewrite length_app, forallb_app. simpl.
    split; [lia|]. rewrite Hf. unfold isByte. simpl. lia.
  - destruct (GoText.isDigit c) eqn:Hd.
    + destruct ((digLen =? 1) && (val =? 0)); [done|].
      destruct (Z.ltb_spec 255 (val * 10 + GoText.digitVal c)); [done|].
      apply IH; [|done|done].
      apply isDigit_digitVal in Hd. lia.
    + destruct (GoText.isDot c); [|done].
      destruct (atStart || (len s =? 0) || prevDot); [done|].
      unfold len. destruct (Z.eqb_spec (Z.of_nat (length fields)) 3); [done|].
      apply IH; [lia| |].
      * rewrite forallb_app, Hf. simpl. unfold isByte. lia.
      * rewrite length_app. simpl. lia.
Qed.

Lemma parseIPv6_length s r : GoText.parseIPv6 s = Some r -> (16 <= length r)%nat.
Proof.
  unfold GoText.parseIPv6.
  destruct (GoText.hasPercent s); [done|].
  destruct (GoText.leadingEllipsis s) as [[s' e] only].
  destruct only; [intros [= <-]; simpl; lia|].
  destruct (GoText.parseIPv6Loop 9 s' [] e) as [[ip e']|]; [|done].
  unfold len. destruct (Z.ltb_spec (Z.of_nat (length ip)) 16).
  - destruct e' as [e'|]; [|done]. intros [= <-].
    rewrite !length_app, repeat_length.
    pose proof (firstn_skipn (Z.to_nat e') ip) as Hsplit.
    apply (f_equal (@length Z)) in Hsplit. rewrite length_app in Hsplit. lia.
  - destruct e'; [done|]. intros [= <-]. lia.
Qed.

Lemma ParseAddr_shape s ip :
  GoText.ParseAddr s = Some ip ->
  (length ip = 4%nat /\ forallb isByte ip = true) \/ (16 <= length ip)%nat.
Proof.
  unfold GoText.ParseAddr. generalize s at 2. intros whole.
  induction s as [|c s IH]; simpl; [done|].
  destruct (GoText.isDot c).
  { intros Hp. left. unfold GoText.parseIPv4 in Hp.
    apply parseIPv4Fields_bytes in Hp; [done|lia|done|simpl; lia]. }
  destruct (GoText.isColon c).
  { intros Hp. right. by apply parseIPv6_length in Hp. }
  destruct (Ascii.eqb c "%"); [done|]. exact IH.
Qed.

Lemma dtoi_nonneg s n seen k : 0 <= n -> GoText.dtoi s n seen = Some k -> 0 <= k.
Proof.
  revert n seen. induction s as [|c s IH]; intros n seen Hn; simpl.
  - destruct seen; [|done]. intros [= <-]. done.
  - destruct (GoText.isDigit c) eqn:Hd; [|done].
    destruct (16777215 <=? n * 10 + GoText.digitVal c); [done|].
    apply IH. apply isDigit_digitVal in Hd. lia.
Qed.

Lemma length_IP_Mask_4 (ip : IP) (mask : IPMask) :
  length (IP_Mask ip mask) = 4%nat ->
  length mask = 4%nat \/ (length mask = 16%nat /\ length ip = 4%nat).
Proof.
  unfold IP_Mask, IPv4len, IPv6len, len. cbv zeta.
  destruct ((Z.of_nat (length mask) =? 16) && (Z.of_nat (length ip) =? 4)
            && allFF (firstn 12 mask)) eqn:Hc1.
  { intros _. right. apply andb_prop in Hc1 as [Hc1 _].
    apply andb_prop in Hc1 as [Hm Hi]. apply Z.eqb_eq in Hm, Hi. lia. }
  destruct ((Z.of_nat (length mask) =? 4) && (Z.of_nat (length ip) =? 16)
            && bytes_eqb (firstn 12 ip) v4InV6Prefix) eqn:Hc2.
  { intros _. left. apply andb_prop in Hc2 as [Hc2 _].
    apply andb_prop in Hc2 as [Hm _]. apply Z.eqb_eq in Hm. lia. }
  destruct (Z.eqb_spec (Z.of_nat (length ip)) (Z.of_nat (length mask))) as [Heq|Hne];
    simpl; [|discriminate].
  rewrite length_map, length_combine. intros Hmin. left. lia.
Qed.

Lemma length_CIDRMask (k bits : Z) :
  length (CIDRMask k bits) = 0%nat
  \/ (bits = 32 /\ length (CIDRMask k bits) = 4%nat)
  \/ (bits = 128 /\ length (CIDRMask k bits) = 16%nat).
Proof.
  unfold CIDRMask, IPv4len, IPv6len.
  destruct (Z.eqb_spec bits (8 * 4)) as [->|H32].
  - simpl negb. cbn [andb]. destruct ((k <? 0) || (8 * 4 <? k)); [by left|].
    right. left. split; [done|]. by rewrite length_maskBytes.
  - destruct (Z.eqb_spec bits (8 * 16)) as [->|H128].
    + simpl negb. cbn [andb]. destruct ((k <? 0) || (8 * 16 <? k)); [by left|].
      right. right. split; [done|]. by rewrite length_maskBytes.
    + simpl. by left.
Qed.

(** Every network that [ParseCIDR] returns with a 4-byte address is an
    IPv4 network in the sense of [IPv4Network]. *)
Lemma ParseCIDR_IPv4Network (s : string) (n : IPNet) :
  ParseCIDR s = Some n -> len (netIP n) = 4 -> IPv4Network n = true.
Proof.
  simpl. unfold GoText.ParseCIDR.
  destruct (GoText.cutSlash _ _) as [[addr mask]|]; [|done].
  destruct (GoText.ParseAddr addr) as [ipAddr|] eqn:Haddr; [|done].
  destruct (GoText.dtoi mask 0 false) as [k|] eqn:Hk; [|done].
  apply dtoi_nonneg in Hk; [|lia].
  destruct (Z.ltb_spec (len ipAddr * 8) k) as [|Hle]; [done|].
  intros [= <-]. cbn [netIP netMask].
  apply ParseAddr_shape in Haddr as [[Hl4 Hb]|Hl16].
  - intros _.
    destruct ipAddr as [|b0 [|b1 [|b2 [|b3 [|]]]]]; simpl in Hl4; try discriminate.
    change (len [b0; b1; b2; b3] * 8) with 32 in *.
    by apply IPv4Network_masked.
  - intros Hfour. exfalso.
    assert (length (IP_Mask (To16 ipAddr) (CIDRMask k (len ipAddr * 8))) = 4%nat) as H4
      by (apply (Nat2Z.inj _ 4%nat); exact Hfour).
    clear Hfour. apply length_IP_Mask_4 in H4.
    assert (length (To16 ipAddr) <> 4%nat) as Hto.
    { unfold To16, IPv4len, IPv6len, len.
      destruct (Z.eqb_spec (Z.of_nat (length ipAddr)) 4); [lia|].
      destruct (Z.eqb_spec (Z.of_nat (length ipAddr)) 16); simpl; lia. }
    destruct (length_CIDRMask k (len ipAddr * 8)) as [L0|[[Hbits L4]|[Hbits L16]]].
    + destruct H4 as [H4|[H4 _]]; lia.
    + unfold len in Hbits. lia.
    + destruct H4 as [H4|[_ H4]]; [lia|done].
Qed.

(** ** The containment form of the overlap test *)

Lemma land_mask_range (m a x : Z) :
  In m [0; 128; 192; 224; 240; 248; 252; 254; 255] ->
  0 <= a < 256 -> 0 <= x < 256 -> Z.land a m = a ->
  (Z.land a m =? Z.land x m) = (a <=? x) && (x <? a + (256 - m)).
Proof.
  intros Hm Ha Hx Hland.
  assert (forallb (fun m =>
            forallb (fun i =>
              forallb (fun j => containsByteCheck m (Z.of_nat i) (Z.of_nat j)) (seq 0 256))
              (seq 0 256))
            [0; 128; 192; 224; 240; 248; 252; 254; 255] = true) as Hall
    by (vm_compute; reflexivity).
  pose proof (proj1 (forallb_forall _ _) Hall m Hm) as Hrow.
  assert (In (Z.to_nat a) (seq 0 256)) as Hina by (apply in_seq; lia).
  assert (In (Z.to_nat x) (seq 0 256)) as Hinx by (apply in_seq; lia).
  pose proof (proj1 (forallb_forall _ _) Hrow (Z.to_nat a) Hina) as Hcol.
  pose proof (proj1 (forallb_forall _ _) Hcol (Z.to_nat x) Hinx) as Hcell.
  cbv beta in Hcell. rewrite !Z2Nat.id in Hcell by lia.
  unfold containsByteCheck in Hcell.
  rewrite Hland in Hcell at 1. rewrite Z.eqb_refl in Hcell. cbn [implb] in Hcell.
  by apply Bool.eqb_prop in Hcell.
Qed.

Lemma Contains_4_4 (b0 b1 b2 b3 c0 c1 c2 c3 x0 x1 x2 x3 : Z) :
  Contains {| netIP := [b0; b1; b2; b3]; netMask := [c0; c1; c2; c3] |} [x0; x1; x2; x3]
  = (Z.land b0 c0 =? Z.land x0 c0) && ((Z.land b1 c1 =? Z.land x1 c1)
    && ((Z.land b2 c2 =? Z.land x2 c2) && ((Z.land b3 c3 =? Z.land x3 c3) && true))).
Proof. reflexivity. Qed.

Ltac mask_range H :=
  match type of H with
  | Z.land ?b ?m = ?b =>
      rewrite (land_mask_range m b) by (simpl; tauto || lia || exact H)
  end.

(** An IPv4 network contains exactly the addresses between its first and
    its last address. *)
Lemma Contains_IPv4_range (n : IPNet) (x0 x1 x2 x3 : Z) :
  IPv4Network n = true -> forallb isByte [x0; x1; x2; x3] = true ->
  Contains n [x0; x1; x2; x3] = true
  <-> firstAddress n <= big.SetBytes [x0; x1; x2; x3] <= lastAddress n.
Proof.
  intros Hn Hx. apply forallb_isByte_4 in Hx as (X0 & X1 & X2 & X3). revert Hn.
  destruct n as [ip mask]. unfold IPv4Network, firstAddress, lastAddress. simpl.
  rewrite !andb_true_iff. intros ((((Hlen & Hbytes) & Hbits) & Hmask) & Hzero).
  apply Z.eqb_eq in Hlen, Hbits. apply bytes_eqb_eq in Hmask, Hzero.
  unfold len in Hlen.
  destruct ip as [|b0 [|b1 [|b2 [|b3 [|]]]]]; simpl in Hlen; try lia. clear Hlen.
  apply forallb_isByte_4 in Hbytes as (H0 & H1 & H2 & H3).
  remember (fst (Size mask)) as ones eqn:Hones.
  assert (0 <= ones <= 32) as Hrange.
  { destruct (Z.ltb_spec ones 0) as [Hneg|Hpos].
    - exfalso. rewrite Hmask in Hbits. unfold CIDRMask in Hbits.
      replace (ones <? 0) with true in Hbits by lia. simpl in Hbits. discriminate.
    - destruct (Z.ltb_spec 32 ones) as [Hbig|Hok]; [|lia].
      exfalso. rewrite Hmask in Hbits. unfold CIDRMask in Hbits.
      replace (32 <? ones) with true in Hbits by lia.
      rewrite orb_true_r in Hbits. simpl in Hbits. discriminate. }
  rewrite Hbits. clear Hbits Hones.
  apply prefix_cases in Hrange. simpl in Hrange.
  unfold big.SetBytes. simpl fold_left.
  repeat (destruct Hrange as [<-|Hrange]); try contradiction;
    subst mask;
    match goal with
    | |- context [CIDRMask ?k 32] =>
        let m := eval vm_compute in (CIDRMask k 32) in
        change (CIDRMask k 32) with m in *
    end;
    rewrite IP_Mask_4_4 in Hzero; injection Hzero as E0 E1 E2 E3;
    rewrite Contains_4_4;
    rewrite E0, E1, E2, E3;
    rewrite <- E0 at 1; rewrite <- E1 at 1; rewrite <- E2 at 1; rewrite <- E3 at 1;
    mask_range E0; mask_range E1; mask_range E2; mask_range E3;
    mask_byte E0; mask_byte E1; mask_byte E2; mask_byte E3;
    rewrite !andb_true_iff, !Z.leb_le, !Z.ltb_lt;
    unfold firstAddress, big.SetBytes; cbn [fold_left netIP];
    compute_constants; Z.to_euclidean_division_equations; lia.
Qed.

(** On IPv4 networks the [uint32] computation of [networksOverlap] is the
    comparison of the first and last addresses. *)
Lemma networksOverlap_IPv4_compute (a b : IPNet) :
  IPv4Network a = true -> IPv4Network b = true ->
  networksOverlap a b
  = (firstAddress a <=? lastAddress b) && (firstAddress b <=? lastAddress a).
Proof.
  intros Ha Hb.
  destruct (IPv4Network_range a Ha) as (Sa & Ea & _).
  destruct (IPv4Network_range b Hb) as (Sb & Eb & _).
  unfold networksOverlap.
  destruct (Size (netMask a)) as [aOnes aBits].
  destruct (Size (netMask b)) as [bOnes bBits].
  simpl in Ea, Eb. by rewrite Ea, Eb, Sa, Sb.
Qed.

(** On IPv4 networks the code is the range test: for every pair of them,
    whatever their prefix lengths, [networksOverlap] holds exactly when
    the first address of each is not above the last address of the
    other. *)
Theorem networksOverlap_IPv4_ranges (a b : IPNet) :
  IPv4Network a = true -> IPv4Network b = true ->
  networksOverlap a b = true
  <-> firstAddress a <= lastAddress b /\ firstAddress b <= lastAddress a.
Proof.
  intros Ha Hb. rewrite (networksOverlap_IPv4_compute a b Ha Hb).
  by rewrite andb_true_iff, !Z.leb_le.
Qed.

Lemma networksOverlap_IPv4_ranges_witness :
  let a := {| netIP := [10; 0; 0; 0]; netMask := [255; 254; 0; 0] |} in
  let b := {| netIP := [10; 1; 0; 0]; netMask := [255; 255; 0; 0] |} in
  networksOverlap a b = true
  <-> firstAddress a <= lastAddress b /\ firstAddress b <= lastAddress a.
Proof.
  exact (networksOverlap_IPv4_ranges
           {| netIP := [10; 0; 0; 0]; netMask := [255; 254; 0; 0] |}
           {| netIP := [10; 1; 0; 0]; netMask := [255; 255; 0; 0] |}
           eq_refl eq_refl).
Defined.

Lemma IPv4Network_bytes (n : IPNet) :
  IPv4Network n = true ->
  exists x0 x1 x2 x3,
    netIP n = [x0; x1; x2; x3] /\ forallb isByte [x0; x1; x2; x3] = true.
Proof.
  unfold IPv4Network. rewrite !andb_true_iff.
  intros ((((Hlen & Hbytes) & _) & _) & _).
  apply Z.eqb_eq in Hlen. unfold len in Hlen.
  destruct (netIP n) as [|x0 [|x1 [|x2 [|x3 [|]]]]]; simpl in Hlen; try lia.
  by exists x0, x1, x2, x3.
Qed.

(** On IPv4 networks the earlier form of the test, "one network contains
    the first address of the other", and the range form agree. *)
Lemma networksOverlap_contains_IPv4 (a b : IPNet) :
  IPv4Network a = true -> IPv4Network b = true ->
  networksOverlap_contains a b = networksOverlap a b.
Proof.
  intros Ha Hb. apply Bool.eq_iff_eq_true.
  rewrite (networksOverlap_IPv4_compute a b Ha Hb), andb_true_iff, !Z.leb_le.
  unfold networksOverlap_contains. rewrite orb_true_iff.
  destruct (IPv4Network_bytes a Ha) as (a0 & a1 & a2 & a3 & Hipa & Hba).
  destruct (IPv4Network_bytes b Hb) as (b0 & b1 & b2 & b3 & Hipb & Hbb).
  destruct (IPv4Network_range a Ha) as (_ & _ & Hora & _).
  destruct (IPv4Network_range b Hb) as (_ & _ & Horb & _).
  rewrite Hipa, Hipb.
  rewrite (Contains_IPv4_range a b0 b1 b2 b3 Ha Hbb).
  rewrite (Contains_IPv4_range b a0 a1 a2 a3 Hb Hba).
  unfold firstAddress in *. rewrite Hipa, Hipb in *. lia.
Qed.

(** C2 does not hold of the code on 128-bit addresses: 2001:db8::/32 and
    2001:db9::/32 are disjoint, the first address of the second lying
    above the last address of the first, yet [networksOverlap] holds,
    because [ipToUint32] turns both networks into the range from 0 to
    2^32 - 1.  The earlier form of the test, by [Contains], answers that
    they do not overlap. *)
Lemma networksOverlap_IPv6_disjoint_reported :
  exists a b,
    ParseCIDR "2001:db8::/32" = Some a /\ ParseCIDR "2001:db9::/32" = Some b
    /\ networksOverlap a b = true
    /\ ~ (firstAddress a <= lastAddress b /\ firstAddress b <= lastAddress a)
    /\ networksOverlap_contains a b = false.
Proof.
  eexists _, _. split; [vm_compute; reflexivity|]. split; [vm_compute; reflexivity|].
  split; [vm_compute; reflexivity|]. split; [|vm_compute; reflexivity].
  vm_compute. intros [_ Hle]. apply Hle. reflexivity.
Qed.

(** ** The engine on the scenarios of the specification *)

Example scenario_empty_container :
  findNextInCIDR "10.0.0.0/8" [] 24 = Ret "10.0.0.0/24".
Proof. vm_compute. reflexivity. Qed.

Example scenario_first_taken :
  findNextInCIDR "10.0.0.0/8" [allocOf "10.0.0.0/24"] 24 = Ret "10.0.1.0/24".
Proof. vm_compute. reflexivity. Qed.

Example scenario_gap :
  findNextInCIDR "10.0.0.0/8" [allocOf "10.0.0.0/24"; allocOf "10.0.2.0/24"] 24
  = Ret "10.0.1.0/24".
Proof. vm_compute. reflexivity. Qed.

Example scenario_exhausted :
  findNextInCIDR "10.0.0.0/24" [allocOf "10.0.0.0/25"; allocOf "10.0.0.128/25"] 25
  = Err (ErrNoBlockInCIDR 25 "10.0.0.0/24").
Proof. vm_compute. reflexivity. Qed.

Example scenario_contiguous_at_start :
  findContiguousCIDR (poolOf ["10.0.0.0/16"]) [allocOf "10.0.0.0/24"] 24 "10.0.0.0/24"
  = Ret "10.0.1.0/24".
Proof. vm_compute. reflexivity. Qed.

Example scenario_capacity :
  CalculateAvailableSpace "10.0.0.0/24" [allocOf "10.0.0.0/25"] = Ret 128.
Proof. vm_compute. reflexivity. Qed.

Example scenario_second_range :
  FindNextAvailableInPool (poolOf ["10.0.0.0/24"; "10.0.1.0/24"])
    [allocOf "10.0.0.0/25"; allocOf "10.0.0.128/25"] 25
  = Ret "10.0.1.0/25".
Proof. vm_compute. reflexivity. Qed.

Example scenario_unparsable_skipped :
  FindNextAvailableInPool (poolOf ["10.0.0.0/24"])
    [allocOf "invalid-cidr"; allocOf "10.0.0.0/25"] 25
  = Ret "10.0.0.128/25".
Proof. vm_compute. reflexivity. Qed.

(** ** Where the code leaves the specification *)

(** C1. The range returned by the next-available search can overlap an
    existing entry.  The gap test compares the last address of the
    candidate with the first address of the existing block by "at most",
    so a candidate that ends exactly on that address is accepted: in
    10.0.0.0/24 with 10.0.0.0/32 taken, a request for a /32 is given
    10.0.0.0/32 again, and with 10.0.0.1/32 taken a request for a /31 is
    given 10.0.0.0/31, which contains it. *)
Theorem findNextInCIDR_returns_taken_block :
  findNextInCIDR "10.0.0.0/24" [allocOf "10.0.0.0/32"] 32 = Ret "10.0.0.0/32"
  /\ findNextInCIDR "10.0.0.0/24" [allocOf "10.0.0.1/32"] 31 = Ret "10.0.0.0/31"
  /\ (exists got taken,
        ParseCIDR "10.0.0.0/31" = Some got /\ ParseCIDR "10.0.0.1/32" = Some taken
        /\ networksOverlap got taken = true
        /\ firstAddress got <= firstAddress taken <= lastAddress got).
Proof.
  split; [vm_compute; reflexivity|]. split; [vm_compute; reflexivity|].
  eexists _, _. split; [vm_compute; reflexivity|]. split; [vm_compute; reflexivity|].
  split; [vm_compute; reflexivity|]. vm_compute. split; discriminate.
Qed.

(** C3. The contiguous search can return a block that overlaps a
    top-level allocation.  [overlapsAny] computes exclusive ends in
    [uint32]; for a block that reaches the top of the address space the
    end wraps to 0 and the block overlaps nothing.  In the pool
    255.255.0.0/16 with 255.255.253.0/24, 255.255.254.0/24 and
    255.255.255.0/24 taken, the search next to 255.255.254.0/24 returns
    255.255.255.0/24. *)
Theorem findContiguousCIDR_returns_taken_block :
  let allocs := [allocOf "255.255.253.0/24"; allocOf "255.255.254.0/24";
                 allocOf "255.255.255.0/24"] in
  findContiguousCIDR (poolOf ["255.255.0.0/16"]) allocs 24 "255.255.254.0/24"
  = Ret "255.255.255.0/24"
  /\ overlapsAny "255.255.255.0/24" allocs = false
  /\ In (allocOf "255.255.255.0/24") allocs.
Proof.
  cbv zeta. split; [vm_compute; reflexivity|]. split; [vm_compute; reflexivity|].
  simpl. tauto.
Qed.

(** C4. The gap scan considers an entry that is not inside the container.
    [filterAllocationsInCIDR] tests the first address of an entry only, so
    10.0.0.0/8 is kept for the container 10.0.0.0/16, and the search that
    succeeds without it is refused with it; 10.0.0.0/8 is dropped for the
    container 10.1.0.0/16, which it covers as well. *)
Theorem filterAllocationsInCIDR_keeps_covering_entry :
  (exists container,
     ParseCIDR "10.0.0.0/16" = Some container
     /\ filterAllocationsInCIDR [allocOf "10.0.0.0/8"] container = [allocOf "10.0.0.0/8"])
  /\ findNextInCIDR "10.0.0.0/16" [] 24 = Ret "10.0.0.0/24"
  /\ findNextInCIDR "10.0.0.0/16" [allocOf "10.0.0.0/8"] 24
     = Err (ErrNoBlockInCIDR 24 "10.0.0.0/16")
  /\ findNextInCIDR "10.1.0.0/16" [allocOf "10.0.0.0/8"] 24 = Ret "10.1.0.0/24".
Proof.
  split.
  - eexists. split; vm_compute; reflexivity.
  - repeat split; vm_compute; reflexivity.
Qed.

(** C5. The capacity is not the total minus the entries inside the
    container.  The entry 10.0.0.0/8 is not inside 10.0.0.0/16, yet its
    size is subtracted and the capacity of the container is 0, not 65536;
    and the total of a container of 2^64 addresses or more is computed by
    a 64-bit shift that yields 0, so the capacity of the empty container
    2001:db8::/32 is 0. *)
Theorem CalculateAvailableSpace_counts_covering_entry :
  CalculateAvailableSpace "10.0.0.0/16" [allocOf "10.0.0.0/8"] = Ret 0
  /\ CalculateAvailableSpace "10.0.0.0/16" [] = Ret 65536
  /\ CalculateAvailableSpace "2001:db8::/32" [] = Ret 0.
Proof. repeat split; vm_compute; reflexivity. Qed.

(** * Further properties of the code *)

(** ** The catalog of pools *)

(** X1. After [AddPool] the catalog answers the added definition for
    that id, whatever was stored under it before, and answers every other
    id as before; this holds for a catalog whose map is nil as well. *)
Theorem AddPool_then_GetPool (p : PoolsConfig) (poolID other : string) (pool : PoolDefinition) :
  GetPool (AddPool p poolID pool) poolID = Some pool
  /\ (other <> poolID -> GetPool (AddPool p poolID pool) other = GetPool p other).
Proof.
  unfold GetPool, AddPool. simpl. split.
  - by rewrite lookup_insert_eq.
  - intros Hne. rewrite lookup_insert_ne by done.
    destruct (Pools p); [done|]. by rewrite lookup_empty.
Qed.

(** X2. [RemovePool] fails exactly when the id is not in the catalog, and
    then leaves the catalog as it was; when it succeeds the id is no
    longer found and every other id is answered as before. *)
Theorem RemovePool_all_or_nothing (p : PoolsConfig) (poolID : string) :
  let '(p', err) := RemovePool p poolID in
  match err with
  | Some e => e = ErrPoolNotFound poolID /\ p' = p /\ GetPool p poolID = None
  | None =>
      GetPool p poolID <> None
      /\ GetPool p' poolID = None
      /\ (forall other, other <> poolID -> GetPool p' other = GetPool p other)
  end.
Proof.
  unfold RemovePool, GetPool.
  destruct (Pools p) as [m|] eqn:Hm; simpl; [|done].
  destruct (m !! poolID) as [pool|] eqn:Hl; simpl.
  - split; [done|]. split; [apply lookup_delete_eq|].
    intros other Hne. by rewrite lookup_delete_ne.
  - done.
Qed.

(** ** The ledger *)

Lemma removeLoop_filter id allocations :
  removeLoop id allocations [] false =
    (List.filter (fun a => negb (String.eqb (ID a) id)) allocations,
     existsb (fun a => String.eqb (ID a) id) allocations).
Proof. by rewrite removeLoop_spec. Qed.

Lemma filter_none_with_id id (l : list Allocation) :
  Forall (fun a => ID a <> id) l ->
  List.filter (fun a => negb (String.eqb (ID a) id)) l = l.
Proof.
  induction 1 as [|a l Ha _ IH]; simpl; [done|].
  destruct (String.eqb_spec (ID a) id); [done|]. simpl. by rewrite IH.
Qed.

Lemma existsb_none_with_id id (l : list Allocation) :
  Forall (fun a => ID a <> id) l ->
  existsb (fun a => String.eqb (ID a) id) l = false.
Proof.
  induction 1 as [|a l Ha _ IH]; simpl; [done|].
  destruct (String.eqb_spec (ID a) id); [done|]. done.
Qed.

(** X3. Adding an allocation whose id is not yet used in the pool and
    removing it by that id succeeds and gives back, for every pool, the
    list the ledger had before the two calls. *)
Theorem AddAllocation_then_RemoveAllocation
    (now : string) (d : AllocationsDatabase) (poolID : string) (alloc : Allocation) :
  Forall (fun a => ID a <> ID alloc) (GetAllocationsForPool d poolID) ->
  let '(d', err) := RemoveAllocation (AddAllocation now d poolID alloc) poolID (ID alloc) in
  err = None
  /\ forall q, GetAllocationsForPool d' q = GetAllocationsForPool d q.
Proof.
  intros Hfresh. unfold RemoveAllocation, AddAllocation. cbn [Allocations Version].
  rewrite lookup_insert_eq. rewrite removeLoop_filter.
  rewrite existsb_app, List.filter_app. simpl. rewrite String.eqb_refl. simpl.
  rewrite orb_true_r. simpl. split; [done|].
  intros q. unfold GetAllocationsForPool in *. cbn [Allocations].
  rewrite app_nil_r.
  destruct (decide (q = poolID)) as [->|Hne].
  - rewrite lookup_insert_eq. simpl.
    destruct (Allocations d) as [m|]; simpl in *.
    + by apply filter_none_with_id.
    + by rewrite lookup_empty.
  - rewrite !lookup_insert_ne by done.
    destruct (Allocations d) as [m|]; simpl; [done|]. by rewrite lookup_empty.
Qed.

Lemma AddAllocation_then_RemoveAllocation_witness :
  let d := AddAllocation "t0" NewAllocationsDatabase "p" (allocOf "10.0.0.0/24") in
  let alloc := {| CIDR := "10.0.1.0/24"; ID := "b"; Name := "n"; ParentCIDR := None;
                  Metadata := ∅; CreatedAt := ""; Reserved := false;
                  ContiguousWith := None |} in
  let '(d', err) := RemoveAllocation (AddAllocation "t1" d "p" alloc) "p" (ID alloc) in
  err = None /\ forall q, GetAllocationsForPool d' q = GetAllocationsForPool d q.
Proof.
  apply (AddAllocation_then_RemoveAllocation "t1"
           (AddAllocation "t0" NewAllocationsDatabase "p" (allocOf "10.0.0.0/24")) "p").
  vm_compute. repeat constructor; discriminate.
Defined.

(** X4. Once an allocation has been removed, removing the same id from
    the same pool again is refused as not found and changes nothing. *)
Theorem RemoveAllocation_twice (d d' : AllocationsDatabase) (poolID id : string) :
  RemoveAllocation d poolID id = (d', None) ->
  RemoveAllocation d' poolID id = (d', Some (ErrAllocationNotFound id poolID)).
Proof.
  unfold RemoveAllocation.
  destruct (Allocations d) as [m|]; [|discriminate].
  destruct (m !! poolID) as [allocations|]; [|discriminate].
  rewrite removeLoop_filter.
  destruct (existsb _ allocations); simpl; [|discriminate].
  intros [= <-]. cbn [Allocations]. rewrite lookup_insert_eq, removeLoop_filter.
  assert (existsb (fun a => String.eqb (ID a) id)
            (List.filter (fun a => negb (String.eqb (ID a) id)) allocations) = false) as ->.
  { induction allocations as [|a l IH]; simpl; [done|].
    destruct (String.eqb (ID a) id) eqn:E; simpl; [done|]. by rewrite E, IH. }
  done.
Qed.

Lemma RemoveAllocation_twice_witness :
  let d := AddAllocation "t0" NewAllocationsDatabase "p" (allocOf "10.0.0.0/24") in
  let d' := {| Version := "1.0"; Allocations := Some {[ "p" := [] ]} |} in
  RemoveAllocation d "p" "" = (d', None)
  /\ RemoveAllocation d' "p" "" = (d', Some (ErrAllocationNotFound "" "p")).
Proof.
  cbv zeta.
  assert (RemoveAllocation
            (AddAllocation "t0" NewAllocationsDatabase "p" (allocOf "10.0.0.0/24")) "p" ""
          = ({| Version := "1.0"; Allocations := Some {[ "p" := [] ]} |}, None)) as Hfirst
    by (vm_compute; reflexivity).
  split; [exact Hfirst|].
  exact (RemoveAllocation_twice _ _ _ _ Hfirst).
Defined.

(** ** The scans of the ledger *)

Lemma findFirst_Some test allocations a :
  findFirst test allocations = Some a -> a ∈ allocations /\ test a = true.
Proof.
  induction allocations as [|x l IH]; simpl; [done|].
  destruct (test x) eqn:Hx.
  - intros [= ->]. split; [constructor|done].
  - intros Hl. destruct (IH Hl). split; [by constructor|done].
Qed.

Lemma findFirst_None test allocations :
  findFirst test allocations = None -> Forall (fun a => test a = false) allocations.
Proof.
  induction allocations as [|x l IH]; simpl; [constructor|].
  destruct (test x) eqn:Hx; [done|]. intros Hl. constructor; [done|by apply IH].
Qed.

Lemma findInPools_Some test entries a poolID :
  findInPools test entries = Some (a, poolID) ->
  exists allocations, (poolID, allocations) ∈ entries /\ a ∈ allocations /\ test a = true.
Proof.
  induction entries as [|[pid l] rest IH]; simpl; [done|].
  destruct (findFirst test l) as [x|] eqn:Hf.
  - intros [= -> ->]. apply findFirst_Some in Hf as [Hin Ht].
    exists l. split; [constructor|done].
  - intros Hrest. destruct (IH Hrest) as (l' & Hin & Ha & Ht).
    exists l'. split; [by constructor|done].
Qed.

Lemma findInPools_None test entries :
  findInPools test entries = None ->
  forall poolID allocations a,
    (poolID, allocations) ∈ entries -> a ∈ allocations -> test a = false.
Proof.
  induction entries as [|[pid l] rest IH]; simpl.
  - intros _ poolID allocations a Hin. inversion Hin.
  - destruct (findFirst test l) as [x|] eqn:Hf; [done|].
    intros Hrest poolID allocations a Hin Ha.
    apply elem_of_cons in Hin as [[= -> ->]|Hin].
    + apply findFirst_None in Hf. rewrite Forall_forall in Hf. by apply Hf.
    + by apply (IH Hrest poolID allocations).
Qed.

Lemma visitOf_lookup (d : AllocationsDatabase) entries poolID allocations :
  visitOf (Allocations d) entries ->
  (poolID, allocations) ∈ entries <->
  (Allocations d ≫= fun m => m !! poolID) = Some allocations.
Proof.
  unfold visitOf. destruct (Allocations d) as [m|]; simpl.
  - intros Hperm. rewrite Hperm. apply elem_of_map_to_list.
  - intros ->. split; [intros Hin; inversion Hin|done].
Qed.

Lemma GetAllocationsForPool_elem (d : AllocationsDatabase) poolID a :
  a ∈ GetAllocationsForPool d poolID <->
  exists allocations,
    (Allocations d ≫= fun m => m !! poolID) = Some allocations /\ a ∈ allocations.
Proof.
  unfold GetAllocationsForPool. destruct (Allocations d) as [m|]; simpl.
  - destruct (m !! poolID) as [l|]; simpl.
    + split; [intros Ha; by exists l|intros (l' & [= <-] & Ha); done].
    + split; [intros Ha; inversion Ha|intros (l' & Hl & _); done].
  - split; [intros Ha; inversion Ha|intros (l' & Hl & _); done].
Qed.

(** X5. Whatever the order in which Go visits the map, an allocation
    that [FindAllocationByID] returns has the id asked for and belongs to
    the pool returned with it, and when nothing is returned no allocation
    of any pool has that id; if the allocations with that id are all the
    same record in one pool, every visit order gives the same answer. *)
Theorem FindAllocationByID_any_order (d : AllocationsDatabase) (id : string)
    (entries : list (string * list Allocation)) :
  visitOf (Allocations d) entries ->
  match FindAllocationByID entries id with
  | Some (a, poolID) => a ∈ GetAllocationsForPool d poolID /\ ID a = id
  | None => forall poolID a, a ∈ GetAllocationsForPool d poolID -> ID a <> id
  end
  /\ forall entries' a0 p0,
       visitOf (Allocations d) entries' ->
       (forall poolID a, a ∈ GetAllocationsForPool d poolID -> ID a = id ->
                         a = a0 /\ poolID = p0) ->
       FindAllocationByID entries' id = FindAllocationByID entries id.
Proof.
  intros Hvisit.
  assert (forall es, visitOf (Allocations d) es ->
    match FindAllocationByID es id with
    | Some (a, poolID) => a ∈ GetAllocationsForPool d poolID /\ ID a = id
    | None => forall poolID a, a ∈ GetAllocationsForPool d poolID -> ID a <> id
    end) as Hsound.
  { intros es Hes. unfold FindAllocationByID.
    destruct (findInPools _ es) as [[a poolID]|] eqn:Hf.
    - apply findInPools_Some in Hf as (l & Hin & Ha & Ht).
      apply String.eqb_eq in Ht. split; [|done].
      apply GetAllocationsForPool_elem. exists l.
      split; [by apply (visitOf_lookup d es)|done].
    - intros poolID a Ha Hid.
      apply GetAllocationsForPool_elem in Ha as (l & Hl & Ha).
      apply (visitOf_lookup d es) in Hl; [|done].
      pose proof (findInPools_None _ _ Hf poolID l a Hl Ha) as Hfalse.
      simpl in Hfalse. apply String.eqb_neq in Hfalse. done. }
  split; [by apply Hsound|].
  intros entries' a0 p0 Hvisit' Huniq.
  pose proof (Hsound entries Hvisit) as H1. pose proof (Hsound entries' Hvisit') as H2.
  destruct (FindAllocationByID entries id) as [[a1 p1]|];
    destruct (FindAllocationByID entries' id) as [[a2 p2]|]; try done.
  - destruct H1 as [Hin1 Hid1]. destruct H2 as [Hin2 Hid2].
    destruct (Huniq _ _ Hin1 Hid1) as [-> ->].
    destruct (Huniq _ _ Hin2 Hid2) as [-> ->]. done.
  - destruct H1 as [Hin1 Hid1]. exfalso. by apply (H2 p1 a1).
  - destruct H2 as [Hin2 Hid2]. exfalso. by apply (H1 p2 a2).
Qed.

Lemma FindAllocationByID_any_order_witness :
  let d := AddAllocation "t0" NewAllocationsDatabase "p" (allocOf "10.0.0.0/24") in
  match FindAllocationByID [("p", [withCreatedAt (allocOf "10.0.0.0/24") "t0"])] "" with
  | Some (a, poolID) => a ∈ GetAllocationsForPool d poolID /\ ID a = ""
  | None => forall poolID a, a ∈ GetAllocationsForPool d poolID -> ID a <> ""
  end.
Proof.
  refine (proj1 (FindAllocationByID_any_order
            (AddAllocation "t0" NewAllocationsDatabase "p" (allocOf "10.0.0.0/24")) ""
            [("p", [withCreatedAt (allocOf "10.0.0.0/24") "t0"])] _)).
  unfold visitOf. simpl. rewrite insert_empty, map_to_list_singleton. done.
Defined.

Lemma GetAllocationsForParent_elem entries parentCIDR a :
  a ∈ GetAllocationsForParent entries parentCIDR <->
  exists poolID allocations,
    (poolID, allocations) ∈ entries /\ a ∈ allocations /\ ParentCIDR a = Some parentCIDR.
Proof.
  induction entries as [|[pid l] rest IH]; simpl.
  - split; [intros Ha; inversion Ha|intros (? & ? & Hin & _); inversion Hin].
  - rewrite elem_of_app, IH. split.
    + intros [Ha|(pid' & l' & Hin & Ha & Hp)].
      * apply list_elem_of_In, filter_In in Ha as [Ha Hp].
        exists pid, l. split; [constructor|]. split; [by apply list_elem_of_In|].
        unfold hasParent in Hp. destruct (ParentCIDR a) as [p|]; [|done].
        apply String.eqb_eq in Hp. by subst.
      * exists pid', l'. split; [by constructor|done].
    + intros (pid' & l' & Hin & Ha & Hp).
      apply elem_of_cons in Hin as [[= -> ->]|Hin].
      * left. apply list_elem_of_In, filter_In. split; [by apply list_elem_of_In|].
        unfold hasParent. rewrite Hp. apply String.eqb_refl.
      * right. by exists pid', l'.
Qed.

Lemma GetAllocationsForParent_flat_map entries parentCIDR :
  GetAllocationsForParent entries parentCIDR
  = flat_map (fun e => List.filter (hasParent parentCIDR) (snd e)) entries.
Proof.
  induction entries as [|[pid l] rest IH]; simpl; [done|]. by rewrite IH.
Qed.

(** X6. Whatever the order in which Go visits the map,
    [GetAllocationsForParent] returns exactly the allocations, of any
    pool, whose parent reference is the given CIDR, and two visit orders
    return the same allocations up to their order; so whether an
    allocation has children does not depend on the visit. *)
Theorem GetAllocationsForParent_any_order (d : AllocationsDatabase) (parentCIDR : string)
    (entries entries' : list (string * list Allocation)) :
  visitOf (Allocations d) entries -> visitOf (Allocations d) entries' ->
  (forall a, a ∈ GetAllocationsForParent entries parentCIDR
             <-> (exists poolID, a ∈ GetAllocationsForPool d poolID)
                 /\ ParentCIDR a = Some parentCIDR)
  /\ GetAllocationsForParent entries parentCIDR ≡ₚ GetAllocationsForParent entries' parentCIDR.
Proof.
  intros Hv Hv'. split.
  - intros a. rewrite GetAllocationsForParent_elem. split.
    + intros (pid & l & Hin & Ha & Hp). split; [|done]. exists pid.
      apply GetAllocationsForPool_elem. exists l.
      split; [by apply (visitOf_lookup d entries)|done].
    + intros [[pid Ha] Hp]. apply GetAllocationsForPool_elem in Ha as (l & Hl & Ha).
      exists pid, l. split; [by apply (visitOf_lookup d entries)|done].
  - rewrite !GetAllocationsForParent_flat_map.
    apply Permutation_flat_map.
    unfold visitOf in *. destruct (Allocations d) as [m|].
    + by rewrite Hv, Hv'.
    + by subst.
Qed.

Lemma GetAllocationsForParent_any_order_witness :
  let child := {| CIDR := "10.0.0.0/24"; ID := "c"; Name := "n";
                  ParentCIDR := Some "10.0.0.0/16"; Metadata := ∅; CreatedAt := "";
                  Reserved := false; ContiguousWith := None |} in
  let d := AddAllocation "t0" NewAllocationsDatabase "p" child in
  let entries := [("p", [withCreatedAt child "t0"])] in
  (forall a, a ∈ GetAllocationsForParent entries "10.0.0.0/16"
             <-> (exists poolID, a ∈ GetAllocationsForPool d poolID)
                 /\ ParentCIDR a = Some "10.0.0.0/16")
  /\ GetAllocationsForParent entries "10.0.0.0/16"
     ≡ₚ GetAllocationsForParent entries "10.0.0.0/16".
Proof.
  cbv zeta.
  apply GetAllocationsForParent_any_order;
    unfold visitOf; simpl; by rewrite insert_empty, map_to_list_singleton.
Defined.

(** X7. An allocation added under an id that no allocation of the ledger
    carries is what [FindAllocationByID] returns for that id afterwards,
    stamped with the time of the insert and with the pool it was added
    to, whatever the order of the visit. *)
Theorem AddAllocation_then_FindAllocationByID
    (now : string) (d : AllocationsDatabase) (poolID : string) (alloc : Allocation)
    (entries : list (string * list Allocation)) :
  (forall q a, a ∈ GetAllocationsForPool d q -> ID a <> ID alloc) ->
  visitOf (Allocations (AddAllocation now d poolID alloc)) entries ->
  FindAllocationByID entries (ID alloc) = Some (withCreatedAt alloc now, poolID).
Proof.
  intros Hfresh Hvisit.
  set (d1 := AddAllocation now d poolID alloc) in *.
  assert (forall q a, a ∈ GetAllocationsForPool d1 q -> ID a = ID alloc ->
                      a = withCreatedAt alloc now /\ q = poolID) as Honly.
  { intros q a Ha Hid. unfold d1, GetAllocationsForPool, AddAllocation in Ha.
    cbn [Allocations] in Ha.
    destruct (decide (q = poolID)) as [->|Hne].
    - rewrite lookup_insert_eq in Ha. simpl in Ha.
      apply elem_of_app in Ha as [Ha|Ha].
      + exfalso. apply (Hfresh poolID a); [|done].
        unfold GetAllocationsForPool. by destruct (Allocations d).
      + apply list_elem_of_singleton in Ha. done.
    - exfalso. rewrite lookup_insert_ne in Ha by done.
      apply (Hfresh q a); [|done].
      unfold GetAllocationsForPool. destruct (Allocations d); [done|].
      by rewrite lookup_empty in Ha. }
  assert (withCreatedAt alloc now ∈ GetAllocationsForPool d1 poolID) as Hin.
  { unfold d1, GetAllocationsForPool, AddAllocation. cbn [Allocations].
    rewrite lookup_insert_eq. simpl. apply elem_of_app. right. constructor. }
  unfold FindAllocationByID.
  destruct (findInPools _ entries) as [[a q]|] eqn:Hf.
  - apply findInPools_Some in Hf as (l & Hl & Ha & Ht). apply String.eqb_eq in Ht.
    assert (a ∈ GetAllocationsForPool d1 q) as Haq.
    { apply GetAllocationsForPool_elem. exists l.
      split; [by apply (visitOf_lookup d1 entries)|done]. }
    destruct (Honly q a Haq Ht) as [-> ->]. done.
  - exfalso. apply GetAllocationsForPool_elem in Hin as (l & Hl & Ha).
    apply (visitOf_lookup d1 entries) in Hl; [|done].
    pose proof (findInPools_None _ _ Hf poolID l _ Hl Ha) as Hfalse.
    simpl in Hfalse. by rewrite String.eqb_refl in Hfalse.
Qed.

Lemma AddAllocation_then_FindAllocationByID_witness :
  FindAllocationByID [("p", [withCreatedAt (allocOf "10.0.0.0/24") "t0"])] ""
  = Some (withCreatedAt (allocOf "10.0.0.0/24") "t0", "p").
Proof.
  apply (AddAllocation_then_FindAllocationByID "t0" NewAllocationsDatabase "p"
           (allocOf "10.0.0.0/24")).
  - intros q a Ha. unfold GetAllocationsForPool in Ha. simpl in Ha.
    rewrite lookup_empty in Ha. inversion Ha.
  - unfold visitOf. simpl. rewrite insert_empty, map_to_list_singleton. done.
Defined.

(** ** Validation of the catalog *)

Section CatalogValidation.

Context `{NetText}.

Lemma networksOverlap_sym (a b : IPNet) : networksOverlap a b = networksOverlap b a.
Proof.
  unfold networksOverlap.
  destruct (Size (netMask a)) as [aOnes aBits], (Size (netMask b)) as [bOnes bBits].
  apply andb_comm.
Qed.

Lemma noOverlapIn_snoc (nets : list IPNet) (n : IPNet) :
  noOverlapIn (nets ++ [n])
  <-> noOverlapIn nets /\ existsb (fun existing => networksOverlap n existing) nets = false.
Proof.
  unfold noOverlapIn. induction nets as [|x l IH]; simpl.
  - split; [intros _; split; [constructor|done]|intros _; repeat constructor].
  - split.
    + intros Hfop. inversion Hfop as [|? ? Hx Hl]; subst.
      apply IH in Hl as [Hl Hex]. apply Forall_app in Hx as [Hxl Hxn].
      split; [by constructor|]. inversion Hxn; subst.
      apply orb_false_iff. done.
    + intros [Hfop Hex]. inversion Hfop as [|? ? Hx Hl]; subst.
      apply orb_false_iff in Hex as [Hnx Hex].
      constructor; [|by apply IH].
      apply Forall_app. split; [done|]. by repeat constructor.
Qed.

Lemma noOverlapIn_app_l (l1 l2 : list IPNet) : noOverlapIn (l1 ++ l2) -> noOverlapIn l1.
Proof.
  unfold noOverlapIn. induction l1 as [|x l IH]; simpl; [constructor|].
  intros Hfop. inversion Hfop as [|? ? Hx Hl]; subst.
  apply Forall_app in Hx as [Hx _]. constructor; [done|by apply IH].
Qed.

Lemma noOverlapIn_Permutation (l l' : list IPNet) :
  l ≡ₚ l' -> noOverlapIn l -> noOverlapIn l'.
Proof.
  unfold noOverlapIn. induction 1 as [|x l l' Hp IH|x y l|l l' l'' _ IH1 _ IH2].
  - done.
  - intros Hfop. inversion Hfop as [|? ? Hx Hl]; subst.
    constructor; [by rewrite <- Hp|by apply IH].
  - intros Hfop. inversion Hfop as [|? ? Hy Hl]; subst.
    inversion Hl as [|? ? Hx Hl']; subst. inversion Hy as [|? ? Hyx Hyl]; subst.
    constructor; [|by constructor].
    constructor; [|done]. by rewrite networksOverlap_sym.
  - intros Hfop. by apply IH2, IH1.
Qed.

(** The inner loop succeeds exactly when every CIDR parses and the
    networks met so far, with the new ones, stay free of overlap. *)
Lemma validateCIDRs_inl poolID cidrs allNetworks :
  noOverlapIn allNetworks ->
  (exists allNetworks', validateCIDRs poolID cidrs allNetworks = inl allNetworks')
  <-> Forall (fun c => ParseCIDR c <> None) cidrs
      /\ noOverlapIn (allNetworks ++ omap ParseCIDR cidrs).
Proof.
  revert allNetworks. induction cidrs as [|c rest IH]; intros acc Hacc; simpl.
  - rewrite app_nil_r. split; [intros _; split; [constructor|done]|intros _; by eexists].
  - destruct (ParseCIDR c) as [n|] eqn:Hc; simpl.
    + destruct (existsb _ acc) eqn:Hex.
      * split; [intros [? Habs]; discriminate|].
        intros [_ Hfop]. exfalso.
        assert (noOverlapIn ((acc ++ [n]) ++ omap ParseCIDR rest)) as Hfop'
          by (by rewrite <- app_assoc).
        apply noOverlapIn_app_l, noOverlapIn_snoc in Hfop' as [_ Hno]. congruence.
      * rewrite IH by (apply noOverlapIn_snoc; done).
        rewrite <- app_assoc. simpl. split.
        -- intros [Hall Hfop]. split; [constructor; [congruence|done]|done].
        -- intros [Hall Hfop]. inversion Hall; subst. done.
    + split; [intros [? Habs]; discriminate|].
      intros [Hall _]. inversion Hall; subst. done.
Qed.

Lemma validateCIDRs_result poolID cidrs allNetworks allNetworks' :
  validateCIDRs poolID cidrs allNetworks = inl allNetworks' ->
  allNetworks' = allNetworks ++ omap ParseCIDR cidrs.
Proof.
  revert allNetworks. induction cidrs as [|c rest IH]; intros acc; simpl.
  - intros [= <-]. by rewrite app_nil_r.
  - destruct (ParseCIDR c) as [n|]; simpl; [|discriminate].
    destruct (existsb _ acc); [discriminate|].
    intros Hrest. apply IH in Hrest. by rewrite <- app_assoc in Hrest.
Qed.

Lemma validateLoopPools_None entries allNetworks :
  noOverlapIn allNetworks ->
  validateLoopPools entries allNetworks = None
  <-> poolsWellFormed entries /\ noOverlapIn (allNetworks ++ poolNets entries).
Proof.
  unfold poolsWellFormed, poolNets.
  revert allNetworks. induction entries as [|[poolID pool] rest IH]; intros acc Hacc; simpl.
  - rewrite app_nil_r. split; [intros _; split; [constructor|done]|done].
  - destruct (PoolCIDR pool) as [|c cs] eqn:Hcidr.
    + split; [discriminate|]. intros [Hall _]. inversion Hall as [|? ? [Hne _] _]; subst.
      simpl in Hne. congruence.
    + rewrite <- Hcidr in *.
      destruct (validateCIDRs poolID (PoolCIDR pool) acc) as [acc'|err] eqn:Hv.
      * pose proof (validateCIDRs_result _ _ _ _ Hv) as ->.
        assert (Forall (fun c => ParseCIDR c <> None) (PoolCIDR pool)
                /\ noOverlapIn (acc ++ omap ParseCIDR (PoolCIDR pool))) as [Hall Hfop]
          by (apply (validateCIDRs_inl poolID); [done|by eexists]).
        rewrite IH by done. rewrite <- app_assoc. split.
        -- intros [Hrest Hno]. split; [|done]. constructor; [|done].
           simpl. split; [congruence|done].
        -- intros [Hwf Hno]. inversion Hwf; subst. done.
      * split; [discriminate|]. intros [Hwf Hno]. exfalso.
        inversion Hwf as [|? ? [_ Hall] _]; subst. simpl in Hall.
        assert (exists acc', validateCIDRs poolID (PoolCIDR pool) acc = inl acc') as [? Habs].
        { apply validateCIDRs_inl; [done|]. split; [done|].
          rewrite app_assoc in Hno. by apply noOverlapIn_app_l in Hno. }
        congruence.
Qed.

Lemma ValidatePools_None entries :
  ValidatePools entries = None
  <-> poolsWellFormed entries /\ noOverlapIn (poolNets entries).
Proof. unfold ValidatePools. apply validateLoopPools_None. constructor. Qed.

(** X8. [ValidatePools] accepts a catalog exactly when every pool has at
    least one CIDR, every CIDR parses, and none of the parsed networks
    overlaps, by [networksOverlap], one met before it; and although the
    pools are visited in an unspecified order, whether the catalog is
    accepted does not depend on that order. *)
Theorem ValidatePools_any_order (p : PoolsConfig)
    (entries entries' : list (string * PoolDefinition)) :
  visitOf (Pools p) entries -> visitOf (Pools p) entries' ->
  (ValidatePools entries = None
   <-> poolsWellFormed entries /\ noOverlapIn (poolNets entries))
  /\ (ValidatePools entries = None <-> ValidatePools entries' = None).
Proof.
  intros Hv Hv'. split; [apply ValidatePools_None|].
  assert (entries ≡ₚ entries') as Hperm.
  { unfold visitOf in *. destruct (Pools p); [by rewrite Hv, Hv'|by subst]. }
  rewrite !ValidatePools_None. unfold poolsWellFormed.
  assert (poolNets entries ≡ₚ poolNets entries') as Hnets
    by (unfold poolNets; by apply Permutation_flat_map).
  split; intros [Hwf Hno]; split.
  - by rewrite <- Hperm.
  - by apply (noOverlapIn_Permutation (poolNets entries)).
  - by rewrite Hperm.
  - by apply (noOverlapIn_Permutation (poolNets entries')).
Qed.

End CatalogValidation.

Lemma ValidatePools_any_order_witness :
  let a := poolOf ["10.0.0.0/16"] in
  let b := poolOf ["10.1.0.0/16"; "172.16.0.0/12"] in
  let p := AddPool (AddPool NewPoolsConfig "a" a) "b" b in
  ValidatePools [("a", a); ("b", b)] = None
  <-> ValidatePools [("b", b); ("a", a)] = None.
Proof.
  cbv zeta.
  refine (proj2 (ValidatePools_any_order
            (AddPool (AddPool NewPoolsConfig "a" (poolOf ["10.0.0.0/16"])) "b"
                     (poolOf ["10.1.0.0/16"; "172.16.0.0/12"]))
            [("a", poolOf ["10.0.0.0/16"]); ("b", poolOf ["10.1.0.0/16"; "172.16.0.0/12"])]
            [("b", poolOf ["10.1.0.0/16"; "172.16.0.0/12"]); ("a", poolOf ["10.0.0.0/16"])]
            _ _)).
  - unfold visitOf, AddPool, NewPoolsConfig. cbn [Pools].
    rewrite map_to_list_insert by (by rewrite lookup_insert_ne, lookup_empty).
    rewrite insert_empty, map_to_list_singleton. apply perm_swap.
  - unfold visitOf, AddPool, NewPoolsConfig. cbn [Pools].
    rewrite map_to_list_insert by (by rewrite lookup_insert_ne, lookup_empty).
    by rewrite insert_empty, map_to_list_singleton.
Defined.

(** ** Admission of a new CIDR *)

Section Admission.

Context `{NetText}.

Lemma validateLoop_None newCIDR newNet existingAllocations :
  validateLoop newCIDR newNet existingAllocations = None
  <-> forall existing existingNet,
        existing ∈ existingAllocations -> ParseCIDR (CIDR existing) = Some existingNet ->
        networksOverlap newNet existingNet = false.
Proof.
  induction existingAllocations as [|e rest IH]; simpl.
  - split; [|done]. intros _ existing existingNet Hin. inversion Hin.
  - destruct (ParseCIDR (CIDR e)) as [n|] eqn:He.
    + destruct (networksOverlap newNet n) eqn:Hov.
      * split; [discriminate|]. intros Hall.
        rewrite (Hall e n) in Hov; [discriminate|constructor|done].
      * rewrite IH. split.
        -- intros Hall existing existingNet Hin Hp.
           apply elem_of_cons in Hin as [->|Hin]; [congruence|by apply (Hall existing)].
        -- intros Hall existing existingNet Hin. apply Hall. by constructor.
    + rewrite IH. split.
      * intros Hall existing existingNet Hin Hp.
        apply elem_of_cons in Hin as [->|Hin]; [congruence|by apply (Hall existing)].
      * intros Hall existing existingNet Hin. apply Hall. by constructor.
Qed.

Lemma validateLoop_Some newCIDR newNet existingAllocations err :
  validateLoop newCIDR newNet existingAllocations = Some err ->
  exists before existing after existingNet,
    existingAllocations = before ++ existing :: after
    /\ validateLoop newCIDR newNet before = None
    /\ ParseCIDR (CIDR existing) = Some existingNet
    /\ networksOverlap newNet existingNet = true
    /\ err = ErrOverlapsExisting newCIDR (CIDR existing) (Name existing).
Proof.
  induction existingAllocations as [|e rest IH]; simpl; [discriminate|].
  destruct (ParseCIDR (CIDR e)) as [n|] eqn:He.
  - destruct (networksOverlap newNet n) eqn:Hov.
    + intros [= <-]. by exists [], e, rest, n.
    + intros Hrest. destruct (IH Hrest) as (before & x & after & xn & -> & Hb & Hx & Hxo & ->).
      exists (e :: before), x, after, xn. simpl. rewrite He, Hov. done.
  - intros Hrest. destruct (IH Hrest) as (before & x & after & xn & -> & Hb & Hx & Hxo & ->).
    exists (e :: before), x, after, xn. simpl. rewrite He. done.
Qed.

(** X9. [ValidateNoOverlap] accepts a CIDR exactly when it parses and
    overlaps, by [networksOverlap], no entry of the list that parses;
    entries that do not parse are passed over, and sub-allocations and
    reserved entries are tested like any other.  A refusal of a CIDR that
    parses names the first entry, in the order of the list, that
    overlaps it. *)
Theorem ValidateNoOverlap_first_overlap (existingAllocations : list Allocation)
    (newCIDR : string) :
  match ValidateNoOverlap existingAllocations newCIDR with
  | None =>
      exists newNet,
        ParseCIDR newCIDR = Some newNet
        /\ forall existing existingNet,
             existing ∈ existingAllocations -> ParseCIDR (CIDR existing) = Some existingNet ->
             networksOverlap newNet existingNet = false
  | Some err =>
      (ParseCIDR newCIDR = None /\ err = ErrInvalidCIDR newCIDR)
      \/ exists newNet before existing after existingNet,
           ParseCIDR newCIDR = Some newNet
           /\ existingAllocations = before ++ existing :: after
           /\ ParseCIDR (CIDR existing) = Some existingNet
           /\ networksOverlap newNet existingNet = true
           /\ err = ErrOverlapsExisting newCIDR (CIDR existing) (Name existing)
           /\ forall earlier earlierNet,
                earlier ∈ before -> ParseCIDR (CIDR earlier) = Some earlierNet ->
                networksOverlap newNet earlierNet = false
  end.
Proof.
  unfold ValidateNoOverlap.
  destruct (ParseCIDR newCIDR) as [newNet|] eqn:Hnew; [|by left].
  destruct (validateLoop newCIDR newNet existingAllocations) as [err|] eqn:Hloop.
  - right. apply validateLoop_Some in Hloop
      as (before & existing & after & existingNet & -> & Hb & Hx & Hxo & ->).
    exists newNet, before, existing, after, existingNet.
    repeat (split; [done|]). by apply (validateLoop_None newCIDR).
  - exists newNet. split; [done|]. by apply (validateLoop_None newCIDR).
Qed.

End Admission.

(** X10. With Go's text of addresses: a CIDR of IPv4 that
    [ValidateNoOverlap] accepts shares no address with any IPv4 entry of
    the list that parses, and one that shares an address with such an
    entry is refused. *)
Theorem ValidateNoOverlap_IPv4_disjoint (existingAllocations : list Allocation)
    (newCIDR : string) (newNet : IPNet) :
  ParseCIDR newCIDR = Some newNet -> len (netIP newNet) = 4 ->
  ValidateNoOverlap existingAllocations newCIDR = None
  <-> forall existing existingNet,
        existing ∈ existingAllocations ->
        ParseCIDR (CIDR existing) = Some existingNet ->
        (len (netIP existingNet) = 4 ->
         lastAddress newNet < firstAddress existingNet
         \/ lastAddress existingNet < firstAddress newNet)
        /\ (len (netIP existingNet) <> 4 -> networksOverlap newNet existingNet = false).
Proof.
  intros Hnew Hlen. unfold ValidateNoOverlap. rewrite Hnew, validateLoop_None.
  pose proof (ParseCIDR_IPv4Network _ _ Hnew Hlen) as H4.
  split.
  - intros Hall existing existingNet Hin Hp. specialize (Hall existing existingNet Hin Hp).
    split; [|done]. intros Hl.
    pose proof (ParseCIDR_IPv4Network _ _ Hp Hl) as H4'.
    rewrite (networksOverlap_IPv4_compute _ _ H4 H4') in Hall.
    apply andb_false_iff in Hall as [Hf|Hf]; apply Z.leb_gt in Hf; [by right|by left].
  - intros Hall existing existingNet Hin Hp.
    destruct (Hall existing existingNet Hin Hp) as [H1 H2].
    destruct (decide (len (netIP existingNet) = 4)) as [Hl|Hl]; [|by apply H2].
    pose proof (ParseCIDR_IPv4Network _ _ Hp Hl) as H4'.
    rewrite (networksOverlap_IPv4_compute _ _ H4 H4').
    apply andb_false_iff. destruct (H1 Hl); [right|left]; by apply Z.leb_gt.
Qed.

Lemma ValidateNoOverlap_IPv4_disjoint_witness :
  ValidateNoOverlap [allocOf "10.0.0.0/24"; allocOf "bad"] "10.0.1.0/24" = None.
Proof.
  refine (proj2 (ValidateNoOverlap_IPv4_disjoint
            [allocOf "10.0.0.0/24"; allocOf "bad"] "10.0.1.0/24"
            {| netIP := [10; 0; 1; 0]; netMask := [255; 255; 255; 0] |} _ _) _).
  - vm_compute. reflexivity.
  - reflexivity.
  - intros existing existingNet Hin Hp.
    apply elem_of_cons in Hin as [->|Hin].
    + vm_compute in Hp. injection Hp as <-. split; [|done]. intros _. right. vm_compute. reflexivity.
    + apply list_elem_of_singleton in Hin as ->. vm_compute in Hp. discriminate.
Defined.

(** ** Machine arithmetic of the contiguous search *)

Lemma lor_range (a b n : Z) :
  0 <= n -> 0 <= a < 2 ^ n -> 0 <= b < 2 ^ n -> 0 <= Z.lor a b < 2 ^ n.
Proof.
  intros Hn Ha Hb. split; [apply Z.lor_nonneg; lia|].
  destruct (decide (Z.lor a b = 0)) as [->|Hnz]; [apply Z.pow_pos_nonneg; lia|].
  assert (0 < Z.lor a b) as Hpos by (pose proof (proj2 (Z.lor_nonneg a b)); lia).
  apply Z.log2_lt_pow2; [done|]. rewrite Z.log2_lor by lia.
  destruct (decide (a = 0)) as [->|Ha0]; destruct (decide (b = 0)) as [->|Hb0];
    try (exfalso; apply Hnz; reflexivity).
  - change (Z.log2 0) with 0. rewrite Z.max_r by apply Z.log2_nonneg.
    apply Z.log2_lt_pow2; lia.
  - change (Z.log2 0) with 0. rewrite Z.max_l by apply Z.log2_nonneg.
    apply Z.log2_lt_pow2; lia.
  - apply Z.max_lub_lt; apply Z.log2_lt_pow2; lia.
Qed.

Lemma ipToUint32_range (ip : IP) : 0 <= ipToUint32 ip < 2 ^ 32.
Proof.
  unfold ipToUint32.
  destruct (To4 ip) as [|b0 [|b1 [|b2 [|b3 [|]]]]]; try (split; [lia|reflexivity]).
  assert (forall x, 0 <= u32 x < 2 ^ 32) as Hu by (intros x; apply Z.mod_pos_bound; lia).
  unfold shl32. repeat apply lor_range; try apply Hu; lia.
Qed.

(** ** The contiguous search *)

Section Contiguous.

Context `{NetText}.

Lemma overlapsAnyLoop_top_level candidateStart candidateEnd allocs :
  overlapsAnyLoop candidateStart candidateEnd (List.filter isTopLevel allocs)
  = overlapsAnyLoop candidateStart candidateEnd allocs.
Proof.
  induction allocs as [|a rest IH]; simpl; [done|].
  unfold isTopLevel at 1. destruct (ParentCIDR a) as [p|] eqn:Hp; simpl; [done|].
  rewrite Hp, IH. done.
Qed.

Lemma overlapsAnyLoop_parsable candidateStart candidateEnd allocs :
  overlapsAnyLoop candidateStart candidateEnd (List.filter parsable allocs)
  = overlapsAnyLoop candidateStart candidateEnd allocs.
Proof.
  induction allocs as [|a rest IH]; simpl; [done|].
  unfold parsable at 1. destruct (ParseCIDR (CIDR a)) as [n|] eqn:Hn; simpl.
  - rewrite Hn, IH. done.
  - rewrite IH. by destruct (ParentCIDR a).
Qed.

Lemma overlapsAny_top_level cidr allocs :
  overlapsAny cidr (List.filter isTopLevel allocs) = overlapsAny cidr allocs.
Proof.
  unfold overlapsAny. destruct (ParseCIDR cidr) as [n|]; [|done].
  destruct (Size (netMask n)). apply overlapsAnyLoop_top_level.
Qed.

Lemma overlapsAny_parsable cidr allocs :
  overlapsAny cidr (List.filter parsable allocs) = overlapsAny cidr allocs.
Proof.
  unfold overlapsAny. destruct (ParseCIDR cidr) as [n|]; [|done].
  destruct (Size (netMask n)). apply overlapsAnyLoop_parsable.
Qed.

Lemma findContiguousCIDR_overlapsAny pool allocs1 allocs2 prefixLen targetCIDR :
  (forall cidr, overlapsAny cidr allocs1 = overlapsAny cidr allocs2) ->
  findContiguousCIDR pool allocs1 prefixLen targetCIDR
  = findContiguousCIDR pool allocs2 prefixLen targetCIDR.
Proof.
  intros Hsame. unfold findContiguousCIDR, trySide.
  destruct (ParseCIDR targetCIDR) as [targetNet|]; [|done].
  destruct (Size (netMask targetNet)) as [targetOnes targetBits].
  by rewrite !Hsame.
Qed.

(** X11. The contiguous search reads the existing allocations only
    through the top-level entries whose CIDR parses: two lists that agree
    on those give the same result, so sub-allocations and entries that do
    not parse never block a neighbour of the anchor. *)
Theorem findContiguousCIDR_top_level_only (pool : PoolDefinition)
    (allocs1 allocs2 : list Allocation) (prefixLen : Z) (targetCIDR : string) :
  List.filter parsable (withoutSubAllocations allocs1)
  = List.filter parsable (withoutSubAllocations allocs2) ->
  findContiguousCIDR pool allocs1 prefixLen targetCIDR
  = findContiguousCIDR pool allocs2 prefixLen targetCIDR.
Proof.
  intros Hsame. apply findContiguousCIDR_overlapsAny. intros cidr.
  rewrite <- (overlapsAny_top_level cidr allocs1), <- (overlapsAny_top_level cidr allocs2).
  rewrite <- (overlapsAny_parsable cidr (List.filter isTopLevel allocs1)).
  rewrite <- (overlapsAny_parsable cidr (List.filter isTopLevel allocs2)).
  unfold withoutSubAllocations in Hsame. by rewrite Hsame.
Qed.

Lemma shl32_1_pos (k : Z) : 0 <= k < 32 -> shl32 1 k = 2 ^ k /\ 0 < 2 ^ k < 2 ^ 32.
Proof.
  intros Hk. unfold shl32, u32. rewrite Z.shiftl_1_l.
  assert (0 < 2 ^ k < 2 ^ 32) as Hr.
  { split; [apply Z.pow_pos_nonneg; lia|apply Z.pow_lt_mono_r; lia]. }
  split; [|done]. apply Z.mod_small. lia.
Qed.

Lemma shl32_1_zero (k : Z) : 32 <= k -> shl32 1 k = 0.
Proof.
  intros Hk. unfold shl32, u32. rewrite Z.shiftl_1_l.
  replace k with (32 + (k - 32)) by lia. rewrite Z.pow_add_r by lia.
  rewrite Z.mul_comm. apply Z.mod_mul. lia.
Qed.

(** X12. For a target that parses, the contiguous search aborts the
    program exactly when the requested prefix length is not between 1 and
    32: above 32 the shift count is negative, and at 0 or below the block
    size is 0 in [uint32] and the alignment test divides by it. *)
Theorem findContiguousCIDR_panics_iff (pool : PoolDefinition) (allocs : list Allocation)
    (prefixLen : Z) (targetCIDR : string) :
  findContiguousCIDR pool allocs prefixLen targetCIDR = Panic
  <-> ParseCIDR targetCIDR <> None /\ (prefixLen <= 0 \/ 32 < prefixLen).
Proof.
  unfold findContiguousCIDR.
  destruct (ParseCIDR targetCIDR) as [targetNet|]; [|split; [discriminate|intros [? _]; done]].
  destruct (Size (netMask targetNet)) as [targetOnes targetBits].
  destruct (Z.ltb_spec (32 - prefixLen) 0) as [Hneg|Hnn].
  { split; [intros _; split; [done|lia]|done]. }
  destruct (decide (prefixLen <= 0)) as [Hz|Hpos].
  - rewrite (shl32_1_zero (32 - prefixLen)) by lia.
    split; [intros _; split; [done|lia]|intros _].
    change (0 =? 0) with true. cbv iota.
    by destruct (0 <=? ipToUint32 (netIP targetNet)).
  - destruct (shl32_1_pos (32 - prefixLen)) as [-> Hb]; [lia|].
    assert ((2 ^ (32 - prefixLen) =? 0) = false) as -> by (apply Z.eqb_neq; lia).
    split; [|intros [_ ?]; lia]. intros Hp. exfalso. revert Hp. unfold trySide. simpl.
    repeat match goal with
           | |- context [if ?c then _ else _] => destruct c; simpl
           end; discriminate.
Qed.

Lemma findContiguousCIDR_neighbour (pool : PoolDefinition)
    (allocs : list Allocation) (prefixLen : Z) (targetCIDR result : string) :
  findContiguousCIDR pool allocs prefixLen targetCIDR = Ret result ->
  exists targetNet start,
    ParseCIDR targetCIDR = Some targetNet
    /\ 1 <= prefixLen <= 32
    /\ result = blockCIDR start prefixLen
    /\ 0 <= start < 2 ^ 32 /\ start mod 2 ^ (32 - prefixLen) = 0
    /\ isInPool pool result = true /\ overlapsAny result allocs = false
    /\ let targetStart := ipToUint32 (netIP targetNet) in
       let targetEnd :=
         u32 (targetStart
              + shl32 1 (snd (Size (netMask targetNet)) - fst (Size (netMask targetNet)))) in
       let before := blockCIDR (targetStart - 2 ^ (32 - prefixLen)) prefixLen in
       start + 2 ^ (32 - prefixLen) = targetStart
       \/ (start = targetEnd
           /\ (targetStart < 2 ^ (32 - prefixLen)
               \/ (targetStart - 2 ^ (32 - prefixLen)) mod 2 ^ (32 - prefixLen) <> 0
               \/ isInPool pool before = false
               \/ overlapsAny before allocs = true)).
Proof.
  unfold findContiguousCIDR.
  destruct (ParseCIDR targetCIDR) as [targetNet|]; [|discriminate].
  destruct (Size (netMask targetNet)) as [targetOnes targetBits] eqn:Hsize.
  destruct (Z.ltb_spec (32 - prefixLen) 0) as [Hneg|Hnn]; [discriminate|].
  destruct (decide (prefixLen <= 0)) as [Hz|Hpos].
  { rewrite (shl32_1_zero (32 - prefixLen)) by lia.
    change (0 =? 0) with true. cbv iota.
    by destruct (0 <=? ipToUint32 (netIP targetNet)). }
  destruct (shl32_1_pos (32 - prefixLen)) as [-> Hb]; [lia|].
  set (blockSize := 2 ^ (32 - prefixLen)) in *.
  set (targetStart := ipToUint32 (netIP targetNet)).
  assert ((blockSize =? 0) = false) as -> by (apply Z.eqb_neq; lia).
  assert (0 <= u32 (targetStart + shl32 1 (targetBits - targetOnes)) < 2 ^ 32) as Hend
    by (apply Z.mod_pos_bound; lia).
  set (targetEnd := u32 (targetStart + shl32 1 (targetBits - targetOnes))) in *.
  intros Hret. exists targetNet.
  (* the side after the target, once the side before is refused *)
  assert (forall beforeReason,
    match (if targetEnd mod blockSize =? 0
           then trySide pool allocs (blockCIDR targetEnd prefixLen)
                        AfterOutsidePool AfterOverlaps
           else inr (AfterNoBoundary prefixLen (uint32ToIP targetEnd) blockSize)) with
    | inl afterCIDR => Ret afterCIDR
    | inr afterReason =>
        Err (ErrNoContiguousSpace prefixLen targetCIDR beforeReason afterReason)
    end = Ret result ->
    result = blockCIDR targetEnd prefixLen /\ targetEnd mod blockSize = 0
    /\ isInPool pool result = true /\ overlapsAny result allocs = false) as Hafter.
  { intros beforeReason. destruct (Z.eqb_spec (targetEnd mod blockSize) 0) as [Hal|]; [|discriminate].
    unfold trySide.
    destruct (isInPool pool (blockCIDR targetEnd prefixLen)) eqn:Hin; simpl; [|discriminate].
    destruct (overlapsAny (blockCIDR targetEnd prefixLen) allocs) eqn:Hov; [discriminate|].
    intros [= <-]. done. }
  destruct (Z.leb_spec blockSize targetStart) as [Hle|Hgt]; simpl in Hret.
  - assert (0 <= targetStart < 2 ^ 32) as Hts by apply ipToUint32_range.
    assert (u32 (targetStart - blockSize) = targetStart - blockSize) as Hu
      by (apply Z.mod_small; lia).
    rewrite Hu in Hret.
    destruct (Z.eqb_spec ((targetStart - blockSize) mod blockSize) 0) as [Hal|Hnal];
      simpl in Hret.
    + unfold trySide in Hret at 1.
      destruct (isInPool pool (blockCIDR (targetStart - blockSize) prefixLen)) eqn:Hin;
        simpl in Hret.
      * destruct (overlapsAny (blockCIDR (targetStart - blockSize) prefixLen) allocs) eqn:Hov.
        -- apply Hafter in Hret as (-> & Hal' & Hin' & Hov').
           exists targetEnd. rewrite Hsize. simpl. fold targetStart targetEnd.
           repeat (split; [done || lia|]). right. split; [done|]. by do 3 right.
        -- injection Hret as <-. exists (targetStart - blockSize). rewrite Hsize. simpl.
           repeat (split; [done || lia|]). left. fold targetStart. lia.
      * apply Hafter in Hret as (-> & Hal' & Hin' & Hov').
        exists targetEnd. rewrite Hsize. simpl. fold targetStart targetEnd.
        repeat (split; [done || lia|]). right. split; [done|]. right. right. by left.
    + apply Hafter in Hret as (-> & Hal' & Hin' & Hov').
      exists targetEnd. rewrite Hsize. simpl. fold targetStart targetEnd.
      repeat (split; [done || lia|]). right. split; [done|]. right. by left.
  - apply Hafter in Hret as (-> & Hal' & Hin' & Hov').
    exists targetEnd. rewrite Hsize. simpl. fold targetStart targetEnd.
    repeat (split; [done || lia|]). right. split; [done|]. by left.
Qed.

(** X13. A block that the contiguous search returns has the requested
    prefix length and starts on a multiple of its size; it is the block
    that ends where the target begins or the one that begins where the
    target ends (in [uint32]); it passed the pool test and the overlap
    test of the search; and the block after the target is returned only
    when the block before it was refused. *)
Theorem findContiguousCIDR_returns_neighbour (pool : PoolDefinition)
    (allocs : list Allocation) (prefixLen : Z) (targetCIDR result : string) :
  findContiguousCIDR pool allocs prefixLen targetCIDR = Ret result ->
  exists targetNet start,
    ParseCIDR targetCIDR = Some targetNet
    /\ 1 <= prefixLen <= 32
    /\ result = blockCIDR start prefixLen
    /\ 0 <= start < 2 ^ 32 /\ start mod 2 ^ (32 - prefixLen) = 0
    /\ isInPool pool result = true /\ overlapsAny result allocs = false
    /\ let targetStart := ipToUint32 (netIP targetNet) in
       let targetEnd :=
         u32 (targetStart
              + shl32 1 (snd (Size (netMask targetNet)) - fst (Size (netMask targetNet)))) in
       let before := blockCIDR (targetStart - 2 ^ (32 - prefixLen)) prefixLen in
       start + 2 ^ (32 - prefixLen) = targetStart
       \/ (start = targetEnd
           /\ (targetStart < 2 ^ (32 - prefixLen)
               \/ (targetStart - 2 ^ (32 - prefixLen)) mod 2 ^ (32 - prefixLen) <> 0
               \/ isInPool pool before = false
               \/ overlapsAny before allocs = true)).
Proof. apply findContiguousCIDR_neighbour. Qed.

End Contiguous.

Lemma findContiguousCIDR_top_level_only_witness :
  let child := {| CIDR := "10.0.1.0/24"; ID := "c"; Name := "n";
                  ParentCIDR := Some "10.0.0.0/16"; Metadata := ∅; CreatedAt := "";
                  Reserved := false; ContiguousWith := None |} in
  findContiguousCIDR (poolOf ["10.0.0.0/16"]) [allocOf "10.0.0.0/24"; child; allocOf "bad"]
    24 "10.0.0.0/24"
  = findContiguousCIDR (poolOf ["10.0.0.0/16"]) [allocOf "10.0.0.0/24"] 24 "10.0.0.0/24".
Proof.
  cbv zeta. apply findContiguousCIDR_top_level_only. vm_compute. reflexivity.
Defined.

Lemma findContiguousCIDR_returns_neighbour_witness :
  exists targetNet start,
    ParseCIDR "10.0.1.0/24" = Some targetNet
    /\ 1 <= 24 <= 32
    /\ "10.0.0.0/24" = blockCIDR start 24
    /\ 0 <= start < 2 ^ 32 /\ start mod 2 ^ (32 - 24) = 0
    /\ isInPool (poolOf ["10.0.0.0/16"]) "10.0.0.0/24" = true
    /\ overlapsAny "10.0.0.0/24" [allocOf "10.0.1.0/24"] = false
    /\ let targetStart := ipToUint32 (netIP targetNet) in
       let targetEnd :=
         u32 (targetStart
              + shl32 1 (snd (Size (netMask targetNet)) - fst (Size (netMask targetNet)))) in
       let before := blockCIDR (targetStart - 2 ^ (32 - 24)) 24 in
       start + 2 ^ (32 - 24) = targetStart
       \/ (start = targetEnd
           /\ (targetStart < 2 ^ (32 - 24)
               \/ (targetStart - 2 ^ (32 - 24)) mod 2 ^ (32 - 24) <> 0
               \/ isInPool (poolOf ["10.0.0.0/16"]) before = false
               \/ overlapsAny before [allocOf "10.0.1.0/24"] = true)).
Proof.
  apply (findContiguousCIDR_returns_neighbour (poolOf ["10.0.0.0/16"])
           [allocOf "10.0.1.0/24"] 24 "10.0.1.0/24" "10.0.0.0/24").
  vm_compute. reflexivity.
Defined.

(** ** The capacity left in a container *)

Section Capacity.

Context `{NetText}.

Lemma sumAllocated_closed relevant allocatedAddresses :
  0 <= allocatedAddresses < 2 ^ 64 ->
  sumAllocated relevant allocatedAddresses
  = u64 (allocatedAddresses + countedAddresses relevant).
Proof.
  revert allocatedAddresses. unfold countedAddresses.
  induction relevant as [|a rest IH]; intros acc Hacc; simpl.
  - rewrite Z.add_0_r. unfold u64. symmetry. apply Z.mod_small. lia.
  - unfold addressCount at 1.
    destruct (ParseCIDR (CIDR a)) as [allocNet|].
    + destruct (Size (netMask allocNet)) as [allocPrefixLen allocBits]. simpl.
      rewrite IH by (apply Z.mod_pos_bound; lia).
      unfold u64. rewrite Zplus_mod_idemp_l. f_equal. lia.
    + by rewrite IH.
Qed.

Lemma countedAddresses_filter_Permutation (test : Allocation -> bool) (l l' : list Allocation) :
  l ≡ₚ l' ->
  countedAddresses (List.filter test l) = countedAddresses (List.filter test l').
Proof.
  unfold countedAddresses.
  induction 1 as [|x l l' _ IH|x y l|l l' l'' _ IH1 _ IH2]; simpl.
  - done.
  - destruct (test x); simpl; lia.
  - destruct (test x), (test y); simpl; lia.
  - lia.
Qed.

Lemma CalculateAvailableSpace_eq containerCIDR allocations :
  CalculateAvailableSpace containerCIDR allocations
  = match ParseCIDR containerCIDR with
    | None => Err (ErrInvalidCIDR containerCIDR)
    | Some containerNet =>
        let totalAddresses :=
          shl64 1 (snd (Size (netMask containerNet)) - fst (Size (netMask containerNet))) in
        let allocatedAddresses :=
          u64 (countedAddresses (List.filter (scanned containerNet) allocations)) in
        Ret (Z.max 0 (totalAddresses - allocatedAddresses))
    end.
Proof.
  unfold CalculateAvailableSpace.
  destruct (ParseCIDR containerCIDR) as [containerNet|]; [|done].
  destruct (Size (netMask containerNet)) as [prefixLen bits]. cbn [fst snd]. cbv zeta.
  rewrite filterAllocationsInCIDR_filter, sumAllocated_closed by lia.
  rewrite Z.add_0_l.
  destruct (Z.ltb_spec (shl64 1 (bits - prefixLen))
              (u64 (countedAddresses (List.filter (scanned containerNet) allocations))));
    f_equal; lia.
Qed.

(** X14. [CalculateAvailableSpace] fails only on a container that does
    not parse.  Otherwise it returns the container's [uint64] size minus
    the sum, modulo 2^64, of the sizes of the entries whose CIDR parses and
    whose first address the container contains (sub-allocations count like
    any other entry), and 0 when that sum is the larger; so the result is
    never more than what the container has with no entry at all, and it
    does not depend on the order of the list. *)
Theorem CalculateAvailableSpace_closed_form (containerCIDR : string)
    (allocations : list Allocation) :
  CalculateAvailableSpace containerCIDR allocations
  = match ParseCIDR containerCIDR with
    | None => Err (ErrInvalidCIDR containerCIDR)
    | Some containerNet =>
        let totalAddresses :=
          shl64 1 (snd (Size (netMask containerNet)) - fst (Size (netMask containerNet))) in
        let allocatedAddresses :=
          u64 (countedAddresses (List.filter (scanned containerNet) allocations)) in
        Ret (Z.max 0 (totalAddresses - allocatedAddresses))
    end
  /\ (forall available,
        CalculateAvailableSpace containerCIDR allocations = Ret available ->
        exists totalAddresses,
          CalculateAvailableSpace containerCIDR [] = Ret totalAddresses
          /\ 0 <= available <= totalAddresses)
  /\ (forall allocations',
        allocations ≡ₚ allocations' ->
        CalculateAvailableSpace containerCIDR allocations'
        = CalculateAvailableSpace containerCIDR allocations).
Proof.
  split; [apply CalculateAvailableSpace_eq|]. split.
  - intros available. rewrite !CalculateAvailableSpace_eq.
    destruct (ParseCIDR containerCIDR) as [containerNet|]; [|discriminate].
    cbv zeta. intros [= <-]. eexists. split; [reflexivity|].
    simpl List.filter. change (countedAddresses []) with 0.
    assert (0 <= u64 (countedAddresses (List.filter (scanned containerNet) allocations)))
      by (apply Z.mod_pos_bound; lia).
    assert (0 <= shl64 1 (snd (Size (netMask containerNet)) - fst (Size (netMask containerNet))))
      by (apply Z.mod_pos_bound; lia).
    change (u64 0) with 0. lia.
  - intros allocations' Hperm. rewrite !CalculateAvailableSpace_eq.
    destruct (ParseCIDR containerCIDR) as [containerNet|]; [|done].
    cbv zeta.
    by rewrite (countedAddresses_filter_Permutation (scanned containerNet) _ _ Hperm).
Qed.

End Capacity.

(** ** Retrying *)

Section Retry.

Context {E : Type}.

Variable config : RetryConfig.
Variable fn : Z -> bool * option E.
Variable ctxDone : Z -> bool.

Lemma retryLoop_outcome (remaining : nat) (attempt : Z) (lastErr : option E) :
  0 <= attempt -> remaining = Z.to_nat (MaxRetries config + 1 - attempt) ->
  retriedUntil fn ctxDone attempt ->
  ((attempt = 0 /\ lastErr = None) \/ 0 < attempt <= MaxRetries config) ->
  retryOutcome config fn ctxDone (retryLoop config fn ctxDone remaining attempt lastErr).
Proof.
  revert attempt lastErr.
  induction remaining as [|remaining IH]; intros attempt lastErr Hnn Hrem Hretried Hlast; simpl.
  - assert (MaxRetries config < attempt) as Hover by (clear - Hrem Hnn; lia).
    split; [done|]. destruct Hlast as [[-> ->]|Hl].
    + by left.
    + exfalso. clear - Hl Hover. lia.
  - assert (attempt <= MaxRetries config) as Hle by (clear - Hrem Hnn; lia).
    assert (remaining = Z.to_nat (MaxRetries config + 1 - (attempt + 1))) as Hrem'
      by (clear - Hrem Hnn; lia).
    destruct (Z.leb_spec attempt (MaxRetries config)) as [_|Hgt];
      [|exfalso; clear - Hle Hgt; lia].
    destruct (fn attempt) as [shouldRetry [e|]] eqn:Hfn.
    + destruct shouldRetry; simpl.
      * destruct (Z.ltb_spec attempt (MaxRetries config)) as [Hlt|Hge]; simpl.
        -- destruct (ctxDone attempt) eqn:Hctx.
           ++ exists attempt, e. done.
           ++ apply IH; [clear - Hnn; lia|done| |right; clear - Hnn Hlt; lia].
              intros earlier He. destruct (decide (earlier = attempt)) as [->|Hne].
              ** split; [by exists e|done].
              ** apply Hretried. clear - He Hne. lia.
        -- assert (attempt = MaxRetries config) as -> by (clear - Hle Hge; lia).
           assert (remaining = O) as -> by (clear - Hrem'; lia). simpl.
           split; [done|]. right. split; [done|]. split; [done|]. by exists e.
      * exists attempt. done.
    + exists attempt. rewrite Hfn. done.
Qed.

(** X15. [WithRetry] returns [nil] exactly when some attempt numbered
    between 0 and [MaxRetries] succeeds after every earlier attempt failed
    with a request to retry and no wait was cut by the context; so [fn]
    is called at most [MaxRetries + 1] times.  An error with
    [shouldRetry] false is returned as it is, a context that is done
    during a wait gives the context's error, and the error of exhaustion
    wraps the error of the last attempt, which is attempt [MaxRetries].
    The context is looked at only between two attempts: the first attempt
    runs even under a context that is already done, and with a negative
    [MaxRetries] the function is not called at all and the error of
    exhaustion wraps [nil]. *)
Theorem WithRetry_outcome :
  match WithRetry ctxDone config fn with
  | None =>
      exists attempt,
        0 <= attempt <= MaxRetries config /\ retriedUntil fn ctxDone attempt
        /\ snd (fn attempt) = None
  | Some (FromFunc e) =>
      exists attempt,
        0 <= attempt <= MaxRetries config /\ retriedUntil fn ctxDone attempt
        /\ fn attempt = (false, Some e)
  | Some FromContext =>
      exists attempt e,
        0 <= attempt < MaxRetries config /\ retriedUntil fn ctxDone attempt
        /\ fn attempt = (true, Some e) /\ ctxDone attempt = true
  | Some (ErrExceededMaxRetries maxRetries lastErr) =>
      maxRetries = MaxRetries config
      /\ ((MaxRetries config < 0 /\ lastErr = None)
          \/ (0 <= MaxRetries config /\ retriedUntil fn ctxDone (MaxRetries config)
              /\ exists e, fn (MaxRetries config) = (true, Some e) /\ lastErr = Some e))
  end.
Proof.
  change (retryOutcome config fn ctxDone (WithRetry ctxDone config fn)).
  unfold WithRetry. apply retryLoop_outcome.
  - lia.
  - f_equal. lia.
  - intros earlier He. lia.
  - by left.
Qed.

(** X16. Conversely, the attempt at which [WithRetry] stops decides what
    it returns: an attempt that succeeds, or fails without a request to
    retry, after attempts that were all retried, gives [nil], or that
    error. *)
Theorem WithRetry_stops_at (attempt : Z) :
  0 <= attempt <= MaxRetries config -> retriedUntil fn ctxDone attempt ->
  (snd (fn attempt) = None -> WithRetry ctxDone config fn = None)
  /\ (forall e, fn attempt = (false, Some e) ->
                WithRetry ctxDone config fn = Some (FromFunc e)).
Proof.
  intros Hrange Hretried.
  assert (forall remaining a lastErr,
    0 <= a <= attempt -> remaining = Z.to_nat (MaxRetries config + 1 - a) ->
    (snd (fn attempt) = None -> retryLoop config fn ctxDone remaining a lastErr = None)
    /\ (forall e, fn attempt = (false, Some e) ->
                  retryLoop config fn ctxDone remaining a lastErr = Some (FromFunc e)))
    as Hloop.
  { induction remaining as [|remaining IH]; intros a lastErr Ha Hrem;
      [exfalso; clear - Ha Hrem Hrange; lia|].
    simpl.
    destruct (Z.leb_spec a (MaxRetries config)) as [Hle|Hgt];
      [|exfalso; clear - Ha Hgt Hrange; lia].
    destruct (decide (a = attempt)) as [->|Hne].
    - split.
      + intros Hok. destruct (fn attempt) as [sr [e|]]; [discriminate|done].
      + intros e Hfn. by rewrite Hfn.
    - destruct (Hretried a) as [[e Hfn] Hctx]; [clear - Ha Hne; lia|].
      rewrite Hfn, Hctx. simpl. rewrite andb_false_r.
      apply IH; clear - Ha Hne Hrem; lia. }
  unfold WithRetry. apply Hloop; [clear - Hrange; lia|f_equal; lia].
Qed.

End Retry.

Lemma WithRetry_stops_at_witness :
  let config := {| MaxRetries := 2; BaseDelay := 200000000; MaxDelay := 5000000000 |} in
  let fn := fun attempt : Z => if attempt <? 1 then (true, Some "conflict") else (true, None) in
  WithRetry (fun _ => false) config fn = None.
Proof.
  cbv zeta.
  refine (proj1 (WithRetry_stops_at
            {| MaxRetries := 2; BaseDelay := 200000000; MaxDelay := 5000000000 |}
            (fun attempt : Z => if attempt <? 1 then (true, Some "conflict") else (true, None))
            (fun _ => false) 1 _ _) _).
  - simpl. lia.
  - intros earlier Hearlier. assert (earlier = 0) as -> by lia.
    split; [by exists "conflict"|done].
  - reflexivity.
Defined.

(** ** Big-endian bytes *)

Lemma be_bytes_length (n : nat) (x : Z) : length (big.be_bytes n x) = n.
Proof.
  revert x. induction n as [|n IH]; intros x; simpl; [done|].
  rewrite length_app, IH. simpl. lia.
Qed.

Lemma be_bytes_isByte (n : nat) (x : Z) : forallb isByte (big.be_bytes n x) = true.
Proof.
  revert x. induction n as [|n IH]; intros x; simpl; [done|].
  rewrite forallb_app, IH. simpl. rewrite andb_true_r. unfold isByte.
  pose proof (Z.mod_pos_bound x 256). apply andb_true_iff. split; [apply Z.leb_le|apply Z.ltb_lt]; lia.
Qed.

Lemma be_bytes_zero (n : nat) : big.be_bytes n 0 = repeat 0 n.
Proof.
  induction n as [|n IH]; simpl; [done|].
  change (0 / 256) with 0. change (0 mod 256) with 0. rewrite IH.
  by rewrite repeat_cons.
Qed.

Lemma be_bytes_split (n m : nat) (x : Z) :
  big.be_bytes (n + m) x = big.be_bytes n (x / 256 ^ Z.of_nat m) ++ big.be_bytes m x.
Proof.
  revert x. induction m as [|m IH]; intros x.
  - rewrite Nat.add_0_r. simpl. by rewrite Z.div_1_r, app_nil_r.
  - rewrite Nat.add_succ_r. simpl. rewrite IH, <- app_assoc. do 2 f_equal.
    rewrite Z.div_div by lia. f_equal. rewrite Nat2Z.inj_succ, Z.pow_succ_r by lia. done.
Qed.

Lemma SetBytes_be_bytes (n : nat) (x : Z) :
  big.SetBytes (big.be_bytes n x) = x mod 256 ^ Z.of_nat n.
Proof.
  revert x. induction n as [|n IH]; intros x.
  - simpl. by rewrite Z.mod_1_r.
  - cbn [big.be_bytes]. rewrite SetBytes_app, IH.
    change (len [x mod 256]) with 1. change (big.SetBytes [x mod 256]) with (0 * 256 + x mod 256).
    rewrite Nat2Z.inj_succ, Z.pow_succ_r by lia.
    rewrite (Z.rem_mul_r x 256 (256 ^ Z.of_nat n)) by lia. lia.
Qed.

Lemma be_bytes_SetBytes (l : list Z) :
  forallb isByte l = true -> big.be_bytes (length l) (big.SetBytes l) = l.
Proof.
  induction l as [|b l IH] using rev_ind; intros Hl; [done|].
  rewrite forallb_app in Hl. apply andb_true_iff in Hl as [Hl Hb].
  simpl in Hb. rewrite andb_true_r in Hb. apply isByte_range in Hb.
  rewrite length_app. simpl. rewrite Nat.add_1_r. cbn [big.be_bytes].
  rewrite SetBytes_app. change (len [b]) with 1. change (big.SetBytes [b]) with (0 * 256 + b).
  replace ((big.SetBytes l * 256 ^ 1 + (0 * 256 + b)) / 256) with (big.SetBytes l)
    by (Z.to_euclidean_division_equations; lia).
  replace ((big.SetBytes l * 256 ^ 1 + (0 * 256 + b)) mod 256) with b
    by (Z.to_euclidean_division_equations; lia).
  by rewrite IH.
Qed.

Lemma be_bytes_mod (n : nat) (x : Z) :
  big.be_bytes n (x mod 256 ^ Z.of_nat n) = big.be_bytes n x.
Proof.
  pose proof (be_bytes_SetBytes (big.be_bytes n x) (be_bytes_isByte n x)) as Hrt.
  by rewrite be_bytes_length, SetBytes_be_bytes in Hrt.
Qed.

(** [Bytes], padded on the left as [intToIP] and [alignToPrefix] do. *)
Lemma byteLen_bound (x : Z) :
  0 < x -> 256 ^ (Z.of_nat (big.byteLen x) - 1) <= x < 256 ^ Z.of_nat (big.byteLen x).
Proof.
  intros Hx. unfold big.byteLen.
  destruct (Z.leb_spec x 0) as [|_]; [lia|].
  pose proof (Z.log2_nonneg x) as Hl.
  pose proof (Z.log2_spec x Hx) as [Hlo Hhi].
  assert (0 <= Z.log2 x / 8) as Hq by (apply Z.div_pos; lia).
  rewrite Z2Nat.id by lia.
  replace 256 with (2 ^ 8) by reflexivity. rewrite <- !Z.pow_mul_r by lia.
  split.
  - eapply Z.le_trans; [|exact Hlo]. apply Z.pow_le_mono_r; [lia|].
    Z.to_euclidean_division_equations; lia.
  - eapply Z.lt_le_trans; [exact Hhi|]. apply Z.pow_le_mono_r; [lia|].
    Z.to_euclidean_division_equations; lia.
Qed.

Lemma Bytes_padded (n : nat) (x : Z) :
  0 <= x < 256 ^ Z.of_nat n ->
  (Z.of_nat n <? len (big.Bytes x)) = false
  /\ repeat 0 (Z.to_nat (Z.of_nat n - len (big.Bytes x))) ++ big.Bytes x = big.be_bytes n x.
Proof.
  intros Hx. unfold big.Bytes, len. rewrite be_bytes_length.
  destruct (decide (x = 0)) as [->|Hnz].
  - change (big.byteLen 0) with O. simpl. rewrite Z.sub_0_r, Nat2Z.id, app_nil_r.
    split; [apply Z.ltb_ge; lia|by rewrite be_bytes_zero].
  - pose proof (byteLen_bound x ltac:(lia)) as [Hlo Hhi].
    assert (big.byteLen x <= n)%nat as Hle.
    { apply Nat2Z.inj_le. destruct (Z.le_gt_cases (Z.of_nat (big.byteLen x)) (Z.of_nat n)); [done|].
      exfalso. assert (256 ^ Z.of_nat n <= 256 ^ (Z.of_nat (big.byteLen x) - 1))
        by (apply Z.pow_le_mono_r; lia). lia. }
    split; [apply Z.ltb_ge; lia|].
    replace n with ((n - big.byteLen x) + big.byteLen x)%nat at 2 by lia.
    rewrite be_bytes_split, Z.div_small by lia. rewrite be_bytes_zero.
    do 2 f_equal. lia.
Qed.

Lemma Bytes_too_long (n : nat) (x : Z) :
  256 ^ Z.of_nat n <= x -> (Z.of_nat n <? len (big.Bytes x)) = true.
Proof.
  intros Hx. unfold big.Bytes, len. rewrite be_bytes_length. apply Z.ltb_lt.
  assert (0 < x) as Hpos by (pose proof (Z.pow_pos_nonneg 256 (Z.of_nat n)); lia).
  pose proof (byteLen_bound x Hpos) as [_ Hhi].
  destruct (Z.lt_ge_cases (Z.of_nat n) (Z.of_nat (big.byteLen x))); [done|].
  exfalso. assert (256 ^ Z.of_nat (big.byteLen x) <= 256 ^ Z.of_nat n)
    by (apply Z.pow_le_mono_r; lia). lia.
Qed.

Lemma intToIP_32 (x : Z) : 0 <= x < 2 ^ 32 -> cidr.intToIP x 32 = Ret (ipv4Of x).
Proof.
  intros Hx. unfold cidr.intToIP. change (32 / 8) with (Z.of_nat 4).
  destruct (Bytes_padded 4 x) as [-> ->]; [|done].
  change (256 ^ Z.of_nat 4) with (2 ^ 32). done.
Qed.

(** ** Addresses of four bytes *)

Lemma ipv4Of_length (v : Z) : length (ipv4Of v) = 4%nat.
Proof. apply be_bytes_length. Qed.

Lemma ipv4Of_isByte (v : Z) : forallb isByte (ipv4Of v) = true.
Proof. apply be_bytes_isByte. Qed.

Lemma SetBytes_ipv4Of (v : Z) : 0 <= v < 2 ^ 32 -> big.SetBytes (ipv4Of v) = v.
Proof.
  intros Hv. unfold ipv4Of. rewrite SetBytes_be_bytes.
  change (256 ^ Z.of_nat 4) with (2 ^ 32). apply Z.mod_small. done.
Qed.

Lemma ipv4Of_SetBytes (ip : IP) :
  length ip = 4%nat -> forallb isByte ip = true -> ipv4Of (big.SetBytes ip) = ip.
Proof.
  intros Hlen Hb. unfold ipv4Of. rewrite <- Hlen. by apply be_bytes_SetBytes.
Qed.

Lemma SetBytes_4_range (ip : IP) :
  length ip = 4%nat -> forallb isByte ip = true -> 0 <= big.SetBytes ip < 2 ^ 32.
Proof.
  intros Hlen Hb. pose proof (SetBytes_bound ip Hb) as Hr.
  unfold len in Hr. rewrite Hlen in Hr. exact Hr.
Qed.

Lemma To4_mapped (r : Z) :
  0 <= r < 2 ^ 32 -> To4 (big.be_bytes 16 (65535 * 2 ^ 32 + r)) = ipv4Of r.
Proof.
  intros Hr. change 16%nat with (12 + 4)%nat. rewrite be_bytes_split.
  change (256 ^ Z.of_nat 4) with (2 ^ 32).
  replace ((65535 * 2 ^ 32 + r) / 2 ^ 32) with 65535
    by (Z.to_euclidean_division_equations; lia).
  assert (big.be_bytes 4 (65535 * 2 ^ 32 + r) = ipv4Of r) as ->.
  { unfold ipv4Of. rewrite <- (be_bytes_mod 4 (65535 * 2 ^ 32 + r)).
    change (256 ^ Z.of_nat 4) with (2 ^ 32).
    rewrite Z.add_comm, Z.mod_add by lia. by rewrite Z.mod_small. }
  pose proof (ipv4Of_length r) as Hlen.
  destruct (ipv4Of r) as [|x0 [|x1 [|x2 [|x3 [|]]]]]; try discriminate.
  vm_compute. reflexivity.
Qed.

(** ** Alignment of a candidate *)

Lemma roundUp_spec (v blockSize : Z) :
  0 < blockSize ->
  roundUp v blockSize mod blockSize = 0 /\ v <= roundUp v blockSize < v + blockSize.
Proof.
  intros Hb. unfold roundUp. pose proof (Z.mod_pos_bound v blockSize Hb) as Hm.
  destruct (Z.eqb_spec (v mod blockSize) 0) as [Hz|Hnz]; [split; [done|lia]|].
  split; [|lia].
  replace (v - v mod blockSize + blockSize) with ((v / blockSize + 1) * blockSize).
  - apply Z.mod_mul. lia.
  - pose proof (Z.div_mod v blockSize ltac:(lia)). lia.
Qed.

Lemma roundUp_aligned (v blockSize : Z) : v mod blockSize = 0 -> roundUp v blockSize = v.
Proof. intros Hz. unfold roundUp. by rewrite Hz. Qed.

Lemma pow2_split (prefixLen : Z) :
  0 <= prefixLen <= 32 -> 2 ^ 32 = 2 ^ prefixLen * 2 ^ (32 - prefixLen).
Proof. intros Hp. rewrite <- Z.pow_add_r by lia. f_equal. lia. Qed.

Lemma roundUp_top (v prefixLen : Z) :
  0 <= prefixLen <= 32 -> 0 <= v < 2 ^ 32 ->
  roundUp v (2 ^ (32 - prefixLen)) <= 2 ^ 32.
Proof.
  intros Hp Hv.
  assert (0 < 2 ^ (32 - prefixLen)) as Hb by (apply Z.pow_pos_nonneg; lia).
  destruct (roundUp_spec v _ Hb) as [Hal Hr].
  pose proof (pow2_split prefixLen Hp) as Hsplit.
  set (b := 2 ^ (32 - prefixLen)) in *. set (r := roundUp v b) in *.
  assert (r = b * (r / b)) as Hrb by (pose proof (Z.div_mod r b ltac:(lia)); lia).
  destruct (Z.le_gt_cases (r / b) (2 ^ prefixLen)) as [Hle|Hgt]; [nia|].
  exfalso. assert (2 ^ prefixLen + 1 <= r / b) as Hge by lia. nia.
Qed.

Lemma alignToPrefix_4 (ip : IP) (prefixLen : Z) :
  length ip = 4%nat -> forallb isByte ip = true -> 0 <= prefixLen <= 32 ->
  let blockSize := 2 ^ (32 - prefixLen) in
  let r := roundUp (big.SetBytes ip) blockSize in
  r mod blockSize = 0
  /\ big.SetBytes ip <= r < big.SetBytes ip + blockSize
  /\ alignToPrefix ip prefixLen 32 = Ret (if r <? 2 ^ 32 then ipv4Of r else []).
Proof.
  intros Hlen Hbytes Hp blockSize r.
  assert (0 < blockSize) as Hb by (apply Z.pow_pos_nonneg; lia).
  destruct (roundUp_spec (big.SetBytes ip) blockSize Hb) as [Hal Hr]. fold r in Hal, Hr.
  split; [done|]. split; [done|].
  pose proof (SetBytes_4_range ip Hlen Hbytes) as Hv.
  pose proof (roundUp_top _ _ Hp Hv) as Htop. fold blockSize r in Htop.
  unfold alignToPrefix. rewrite (To16_of_4 ip Hlen), SetBytes_app.
  assert (len ip = 4) as Hlen' by (unfold len; by rewrite Hlen).
  rewrite Hlen'. change (big.SetBytes v4InV6Prefix * 256 ^ 4) with (65535 * 2 ^ 32).
  destruct (Z.ltb_spec (32 - prefixLen) 0) as [|_]; [lia|].
  rewrite Z.shiftl_1_l. fold blockSize.
  assert ((65535 * 2 ^ 32 + big.SetBytes ip) mod blockSize = big.SetBytes ip mod blockSize) as ->.
  { rewrite (pow2_split prefixLen Hp). fold blockSize.
    rewrite Z.add_comm, Z.mul_assoc. apply Z.mod_add. lia. }
  assert ((if negb (big.SetBytes ip mod blockSize =? 0)
           then 65535 * 2 ^ 32 + big.SetBytes ip - big.SetBytes ip mod blockSize + blockSize
           else 65535 * 2 ^ 32 + big.SetBytes ip) = 65535 * 2 ^ 32 + r) as ->.
  { unfold r, roundUp. destruct (big.SetBytes ip mod blockSize =? 0); simpl; lia. }
  change (4 =? 4) with true. cbv iota.
  destruct (Z.ltb_spec r (2 ^ 32)) as [Hlt|Hge].
  - destruct (Bytes_padded 16 (65535 * 2 ^ 32 + r)) as [Hfit Hpad].
    { change (256 ^ Z.of_nat 16) with (2 ^ 128). lia. }
    change (Z.of_nat 16) with 16 in Hfit, Hpad. rewrite Hfit, Hpad.
    rewrite To4_mapped by lia. done.
  - assert (r = 2 ^ 32) as -> by lia. vm_compute. reflexivity.
Qed.

(** X17. On an address of four bytes [alignToPrefix] returns the first
    address, at or after the one given, that is a multiple of the block
    size of the prefix: an address on a boundary is returned as it is, and
    any other is moved up to the next boundary (not down, as the example
    in the function's comment has it).  When that boundary lies past
    255.255.255.255 the function returns [nil]. *)
Theorem alignToPrefix_rounds_up (ip : IP) (prefixLen : Z) :
  length ip = 4%nat -> forallb isByte ip = true -> 0 <= prefixLen <= 32 ->
  let blockSize := 2 ^ (32 - prefixLen) in
  let r := roundUp (big.SetBytes ip) blockSize in
  r mod blockSize = 0
  /\ big.SetBytes ip <= r < big.SetBytes ip + blockSize
  /\ alignToPrefix ip prefixLen 32 = Ret (if r <? 2 ^ 32 then ipv4Of r else []).
Proof. apply alignToPrefix_4. Qed.

Lemma alignToPrefix_rounds_up_witness :
  alignToPrefix [10; 0; 0; 5] 24 32 = Ret [10; 0; 1; 0]
  /\ alignToPrefix [10; 0; 1; 0] 24 32 = Ret [10; 0; 1; 0]
  /\ alignToPrefix [255; 255; 255; 128] 24 32 = Ret [].
Proof.
  pose proof (alignToPrefix_rounds_up [10; 0; 0; 5] 24 eq_refl eq_refl ltac:(lia)) as (_ & _ & H1).
  pose proof (alignToPrefix_rounds_up [10; 0; 1; 0] 24 eq_refl eq_refl ltac:(lia)) as (_ & _ & H2).
  pose proof (alignToPrefix_rounds_up [255; 255; 255; 128] 24 eq_refl eq_refl ltac:(lia))
    as (_ & _ & H3).
  exact (conj H1 (conj H2 H3)).
Defined.

(** ** The range of an IPv4 network *)

Lemma IPv4Network_shape (n : IPNet) :
  IPv4Network n = true ->
  exists ones,
    Size (netMask n) = (ones, 32) /\ 0 <= ones <= 32
    /\ netMask n = CIDRMask ones 32
    /\ length (netIP n) = 4%nat /\ forallb isByte (netIP n) = true
    /\ firstAddress n mod 2 ^ (32 - ones) = 0.
Proof.
  destruct n as [ip mask]. unfold IPv4Network, firstAddress. simpl.
  rewrite !andb_true_iff. intros ((((Hlen & Hbytes) & Hbits) & Hmask) & Hzero).
  apply Z.eqb_eq in Hlen, Hbits. apply bytes_eqb_eq in Hmask, Hzero.
  unfold len in Hlen.
  destruct ip as [|b0 [|b1 [|b2 [|b3 [|]]]]]; simpl in Hlen; try lia. clear Hlen.
  exists (fst (Size mask)).
  remember (fst (Size mask)) as ones eqn:Hones.
  assert (0 <= ones <= 32) as Hrange.
  { destruct (Z.ltb_spec ones 0) as [Hneg|Hpos].
    - exfalso. rewrite Hmask in Hbits. unfold CIDRMask in Hbits.
      replace (ones <? 0) with true in Hbits by lia. simpl in Hbits. discriminate.
    - destruct (Z.ltb_spec 32 ones) as [Hbig|Hok]; [|lia].
      exfalso. rewrite Hmask in Hbits. unfold CIDRMask in Hbits.
      replace (32 <? ones) with true in Hbits by lia.
      rewrite orb_true_r in Hbits. simpl in Hbits. discriminate. }
  split; [rewrite Hones, <- Hbits; by destruct (Size mask)|].
  split; [done|]. split; [done|]. split; [done|]. split; [done|].
  apply forallb_isByte_4 in Hbytes as (H0 & H1 & H2 & H3).
  clear Hbits Hones.
  pose proof (prefix_cases ones Hrange) as Hcases. simpl in Hcases.
  unfold big.SetBytes. simpl fold_left.
  repeat (destruct Hcases as [<-|Hcases]); try contradiction;
    subst mask; vm_compute CIDRMask in Hzero;
    unfold IP_Mask, len in Hzero; simpl in Hzero;
    injection Hzero as E0 E1 E2 E3;
    mask_byte E0; mask_byte E1; mask_byte E2; mask_byte E3;
    compute_constants; Z.to_euclidean_division_equations; lia.
Qed.

Lemma lor_low_ones (first k : Z) :
  0 <= k -> 0 <= first -> first mod 2 ^ k = 0 ->
  Z.lor (Z.shiftl 1 k - 1) first = first + 2 ^ k - 1.
Proof.
  intros Hk Hf Hal. rewrite Z.shiftl_1_l, Z.lor_comm.
  assert (0 < 2 ^ k) by (apply Z.pow_pos_nonneg; lia).
  assert (first = first / 2 ^ k * 2 ^ k) as Hq
    by (pose proof (Z.div_mod first (2 ^ k) ltac:(lia)); lia).
  rewrite Hq at 1. rewrite lor_disjoint by lia. lia.
Qed.

Lemma AddressRange_IPv4 (n : IPNet) :
  IPv4Network n = true -> cidr.AddressRange n = Ret (netIP n, ipv4Of (lastAddress n)).
Proof.
  intros H4. pose proof (IPv4Network_range n H4) as (_ & _ & Hfl & Htop).
  destruct (IPv4Network_shape n H4) as (ones & HS & Hones & _ & Hlen & Hbytes & Hal).
  unfold cidr.AddressRange. unfold lastAddress in *. rewrite HS in *. cbn [fst snd] in *.
  destruct (Z.eqb_spec ones 32) as [->|Hne].
  - change (2 ^ (32 - 32)) with 1. replace (firstAddress n + 1 - 1) with (firstAddress n) by lia.
    unfold firstAddress. by rewrite ipv4Of_SetBytes.
  - unfold cidr.ipToInt. assert (len (netIP n) = 4) as -> by (unfold len; by rewrite Hlen).
    change (4 =? IPv4len) with true. cbn [mbind outcome_bind].
    destruct (Z.ltb_spec (32 - ones) 0) as [|_]; [lia|].
    fold (firstAddress n). rewrite lor_low_ones by lia.
    rewrite intToIP_32 by lia. done.
Qed.

Lemma bytes4_eq (a b : IP) :
  length a = 4%nat -> forallb isByte a = true ->
  length b = 4%nat -> forallb isByte b = true ->
  big.SetBytes a = big.SetBytes b -> a = b.
Proof.
  intros Ha Hva Hb Hvb Heq.
  rewrite <- (ipv4Of_SetBytes a Ha Hva), <- (ipv4Of_SetBytes b Hb Hvb). by rewrite Heq.
Qed.

Lemma Inc_4 (ip : IP) :
  length ip = 4%nat -> forallb isByte ip = true ->
  cidr.Inc ip = ipv4Of ((big.SetBytes ip + 1) mod 2 ^ 32).
Proof.
  intros Hlen Hbytes.
  destruct ip as [|b0 [|b1 [|b2 [|b3 [|]]]]]; try discriminate. clear Hlen.
  apply forallb_isByte_4 in Hbytes as (H0 & H1 & H2 & H3).
  assert (forall x, 0 <= x mod 256 < 256) as Hm by (intros x; apply Z.mod_pos_bound; lia).
  assert (forall x, isByte x = true <-> 0 <= x < 256) as Hib.
  { intros x. unfold isByte. rewrite andb_true_iff, Z.leb_le, Z.ltb_lt. done. }
  unfold cidr.Inc, cidr.checkIPv4, To4.
  change (len [b0; b1; b2; b3] =? IPv4len) with true. cbv iota.
  change (len [b0; b1; b2; b3] =? 0) with false. cbv iota.
  change (rev [b0; b1; b2; b3]) with [b3; b2; b1; b0].
  apply bytes4_eq; try apply ipv4Of_length; try apply ipv4Of_isByte.
  - simpl. repeat (match goal with |- context [if ?c then _ else _] => destruct c end; simpl);
      reflexivity.
  - simpl. repeat (match goal with |- context [if ?c then _ else _] => destruct c end; simpl);
      rewrite ?andb_true_r, ?andb_true_iff, ?Hib; repeat split; try apply Hm; lia.
  - rewrite SetBytes_ipv4Of by (apply Z.mod_pos_bound; lia).
    unfold big.SetBytes. simpl cidr.incBytes.
    change (2 ^ 32) with 4294967296.
    destruct (Z.ltb_spec 0 ((b3 + 1) mod 256)); simpl;
      [Z.to_euclidean_division_equations; lia|].
    destruct (Z.ltb_spec 0 ((b2 + 1) mod 256)); simpl;
      [Z.to_euclidean_division_equations; lia|].
    destruct (Z.ltb_spec 0 ((b1 + 1) mod 256)); simpl;
      [Z.to_euclidean_division_equations; lia|].
    destruct (Z.ltb_spec 0 ((b0 + 1) mod 256)); simpl;
      Z.to_euclidean_division_equations; lia.
Qed.

(** ** The gap scan on IPv4 networks *)

Lemma insertLeft_Permutation x sortedRev r :
  insertLeft x sortedRev = Ret r -> r ≡ₚ x :: sortedRev.
Proof.
  revert r. induction sortedRev as [|y rest IH]; intros r; simpl.
  - by intros [= <-].
  - destruct (compareIPs (netIP (network x)) (netIP (network y))) as [c| |]; simpl;
      try discriminate.
    destruct (c <? 0).
    + destruct (insertLeft x rest) as [r'| |]; simpl; try discriminate.
      intros [= <-]. rewrite (IH r' eq_refl). apply perm_swap.
    + by intros [= <-].
Qed.

Lemma sortLoop_Permutation data sortedRev sorted :
  sortLoop data sortedRev = Ret sorted -> sorted ≡ₚ data ++ sortedRev.
Proof.
  revert sortedRev. induction data as [|x rest IH]; intros sortedRev; simpl.
  - intros [= <-]. symmetry. apply Permutation_rev.
  - destruct (insertLeft x sortedRev) as [s| |] eqn:Hs; simpl; try discriminate.
    intros Hrest. rewrite (IH _ Hrest), (insertLeft_Permutation _ _ _ Hs).
    by rewrite Permutation_middle.
Qed.

Lemma sortSlice_Permutation data sorted : sortSlice data = Ret sorted -> sorted ≡ₚ data.
Proof.
  unfold sortSlice. intros Hs. rewrite (sortLoop_Permutation _ _ _ Hs). by rewrite app_nil_r.
Qed.

Lemma Contains_IPv4_nil (n : IPNet) : IPv4Network n = true -> Contains n [] = false.
Proof.
  intros H4. destruct (IPv4Network_shape n H4) as (ones & HS & Hones & Hmask & Hlen & _).
  destruct n as [ip mask]. simpl in *.
  destruct ip as [|b0 [|b1 [|b2 [|b3 [|]]]]]; try discriminate.
  assert (length mask = 4%nat) as Hml.
  { rewrite Hmask. unfold CIDRMask. simpl negb. cbn [andb].
    replace ((ones <? 0) || (32 <? ones)) with false by lia. apply length_maskBytes. }
  destruct mask as [|c0 [|c1 [|c2 [|c3 [|]]]]]; try discriminate.
  reflexivity.
Qed.

Lemma Contains_ipv4Of (n : IPNet) (v : Z) :
  IPv4Network n = true -> 0 <= v < 2 ^ 32 ->
  Contains n (ipv4Of v) = true <-> firstAddress n <= v <= lastAddress n.
Proof.
  intros H4 Hv. pose proof (ipv4Of_length v) as Hlen. pose proof (ipv4Of_isByte v) as Hb.
  pose proof (SetBytes_ipv4Of v Hv) as Hval.
  destruct (ipv4Of v) as [|x0 [|x1 [|x2 [|x3 [|]]]]]; try discriminate.
  rewrite (Contains_IPv4_range n x0 x1 x2 x3 H4 Hb), Hval. done.
Qed.

Lemma compareIPs_ipv4Of (a b : Z) :
  0 <= a < 2 ^ 32 -> 0 <= b < 2 ^ 32 ->
  compareIPs (ipv4Of a) (ipv4Of b) = Ret (cmp3 a b).
Proof.
  intros Ha Hb. unfold compareIPs.
  rewrite !To16_of_4 by apply ipv4Of_length.
  rewrite compareBytes_order.
  - rewrite !SetBytes_app, !SetBytes_ipv4Of by done.
    unfold len. rewrite !ipv4Of_length. f_equal. unfold cmp3.
    destruct (Z.ltb_spec a b), (Z.ltb_spec b a);
      repeat match goal with |- context [?x <? ?y] => destruct (Z.ltb_spec x y) end;
      try reflexivity; lia.
  - by rewrite !length_app, !ipv4Of_length.
  - rewrite forallb_app, ipv4Of_isByte. reflexivity.
  - rewrite forallb_app, ipv4Of_isByte. reflexivity.
Qed.

Lemma compareIPs_nil (b : IP) : compareIPs [] b = Ret 0.
Proof. reflexivity. Qed.

Lemma aligned_block_top (v prefixLen : Z) :
  0 <= prefixLen <= 32 -> 0 <= v < 2 ^ 32 -> v mod 2 ^ (32 - prefixLen) = 0 ->
  v + 2 ^ (32 - prefixLen) <= 2 ^ 32.
Proof.
  intros Hp Hv Hal.
  assert (0 < 2 ^ (32 - prefixLen)) as Hb by (apply Z.pow_pos_nonneg; lia).
  pose proof (pow2_split prefixLen Hp) as Hsplit.
  set (b := 2 ^ (32 - prefixLen)) in *.
  assert (v = b * (v / b)) as Hvb by (pose proof (Z.div_mod v b ltac:(lia)); lia).
  destruct (Z.lt_ge_cases (v / b) (2 ^ prefixLen)) as [Hlt|Hge]; nia.
Qed.

Lemma AddressRange_block (v prefixLen : Z) :
  0 <= prefixLen <= 32 -> 0 <= v < 2 ^ 32 -> v mod 2 ^ (32 - prefixLen) = 0 ->
  cidr.AddressRange {| netIP := ipv4Of v; netMask := CIDRMask prefixLen 32 |}
  = Ret (ipv4Of v, ipv4Of (v + 2 ^ (32 - prefixLen) - 1)).
Proof.
  intros Hp Hv Hal. pose proof (aligned_block_top v prefixLen Hp Hv Hal) as Htop.
  unfold cidr.AddressRange. cbn [netIP netMask]. rewrite (Size_CIDRMask_32 prefixLen Hp).
  destruct (Z.eqb_spec prefixLen 32) as [->|Hne].
  - change (2 ^ (32 - 32)) with 1. by replace (v + 1 - 1) with v by lia.
  - unfold cidr.ipToInt. assert (len (ipv4Of v) = 4) as ->
      by (unfold len; by rewrite ipv4Of_length).
    change (4 =? IPv4len) with true. cbn [mbind outcome_bind].
    destruct (Z.ltb_spec (32 - prefixLen) 0) as [|_]; [lia|].
    rewrite SetBytes_ipv4Of by done. rewrite lor_low_ones by lia.
    assert (0 < 2 ^ (32 - prefixLen)) by (apply Z.pow_pos_nonneg; lia).
    rewrite intToIP_32 by lia. done.
Qed.

Lemma AddressRange_nil (prefixLen : Z) :
  0 <= prefixLen <= 32 ->
  cidr.AddressRange {| netIP := []; netMask := CIDRMask prefixLen 32 |}
  = if prefixLen =? 32 then Ret ([], []) else Panic.
Proof.
  intros Hp. unfold cidr.AddressRange. cbn [netIP netMask].
  rewrite (Size_CIDRMask_32 prefixLen Hp). by destruct (prefixLen =? 32).
Qed.

(** The candidates of the scan: no address at all, or four bytes on a
    boundary of the requested prefix. *)
Lemma next_candidate (existing : IPNet) (prefixLen : Z) :
  IPv4Network existing = true -> 0 <= prefixLen <= 32 ->
  exists existingEnd candidateIP,
    cidr.AddressRange existing = Ret (netIP existing, existingEnd)
    /\ alignToPrefix (cidr.Inc existingEnd) prefixLen 32 = Ret candidateIP
    /\ (candidateIP = []
        \/ exists v, candidateIP = ipv4Of v /\ 0 <= v < 2 ^ 32
                     /\ v mod 2 ^ (32 - prefixLen) = 0).
Proof.
  intros H4 Hp. exists (ipv4Of (lastAddress existing)).
  rewrite (AddressRange_IPv4 existing H4).
  rewrite Inc_4 by (apply ipv4Of_length || apply ipv4Of_isByte).
  set (next := ipv4Of ((big.SetBytes (ipv4Of (lastAddress existing)) + 1) mod 2 ^ 32)).
  destruct (alignToPrefix_4 next prefixLen (ipv4Of_length _) (ipv4Of_isByte _) Hp)
    as (Hal & Hr & ->).
  pose proof (SetBytes_4_range next (ipv4Of_length _) (ipv4Of_isByte _)) as Hnext.
  eexists. split; [reflexivity|]. split; [reflexivity|].
  destruct (Z.ltb_spec (roundUp (big.SetBytes next) (2 ^ (32 - prefixLen))) (2 ^ 32))
    as [Hlt|Hge]; [|by left].
  right. eexists. split; [reflexivity|]. split; [lia|done].
Qed.

Section GapScan.

Context `{NetText}.

Lemma gapScan_inside (containerCIDR : string) (containerNet : IPNet) (prefixLen : Z)
    (sortable : list sortableAllocation) (candidateIP : IP) (result : string) :
  IPv4Network containerNet = true -> 0 <= prefixLen <= 32 ->
  Forall (fun x => IPv4Network (network x) = true) sortable ->
  (candidateIP = []
   \/ exists v, candidateIP = ipv4Of v /\ 0 <= v < 2 ^ 32 /\ v mod 2 ^ (32 - prefixLen) = 0) ->
  gapScan containerCIDR containerNet prefixLen 32 sortable candidateIP = Ret result ->
  exists v,
    result = IPNet_String {| netIP := ipv4Of v; netMask := CIDRMask prefixLen 32 |}
    /\ v mod 2 ^ (32 - prefixLen) = 0
    /\ firstAddress containerNet <= v
    /\ v + 2 ^ (32 - prefixLen) - 1 <= lastAddress containerNet.
Proof.
  intros H4 Hp Hall. revert candidateIP.
  pose proof (IPv4Network_range containerNet H4) as (_ & _ & Hfl & Htop).
  assert (0 < 2 ^ (32 - prefixLen)) as Hb by (apply Z.pow_pos_nonneg; lia).
  induction Hall as [|existing rest Hx Hrest IH]; intros candidateIP Hcand.
  - (* after the last allocation *)
    cbn [gapScan]. destruct Hcand as [->|(v & -> & Hv & Hal)].
    + rewrite AddressRange_nil by done.
      destruct (prefixLen =? 32); [|discriminate]. cbn [mbind outcome_bind].
      rewrite (AddressRange_IPv4 containerNet H4). cbn [mbind outcome_bind].
      rewrite (Contains_IPv4_nil containerNet H4). discriminate.
    + pose proof (aligned_block_top v prefixLen Hp Hv Hal) as Hvtop.
      rewrite AddressRange_block by done. cbn [mbind outcome_bind].
      rewrite (AddressRange_IPv4 containerNet H4). cbn [mbind outcome_bind].
      destruct (Contains containerNet (ipv4Of v)) eqn:Hin; [|discriminate].
      apply Contains_ipv4Of in Hin; [|done|done].
      rewrite compareIPs_ipv4Of by lia. cbn [mbind outcome_bind].
      destruct (Z.leb_spec (cmp3 (v + 2 ^ (32 - prefixLen) - 1) (lastAddress containerNet)) 0)
        as [Hc|Hc]; [|discriminate].
      intros [= <-]. exists v. repeat (split; [done || lia|]).
      unfold cmp3 in Hc.
      destruct (Z.ltb_spec (v + 2 ^ (32 - prefixLen) - 1) (lastAddress containerNet)); [lia|].
      destruct (Z.ltb_spec (lastAddress containerNet) (v + 2 ^ (32 - prefixLen) - 1)); lia.
  - cbn [gapScan].
    destruct (next_candidate (network existing) prefixLen Hx Hp)
      as (existingEnd & next & Hrange & Hnext & Hshape).
    destruct Hcand as [->|(v & -> & Hv & Hal)].
    + rewrite AddressRange_nil by done.
      destruct (prefixLen =? 32); [|discriminate]. cbn [mbind outcome_bind].
      rewrite compareIPs_nil. cbn [mbind outcome_bind].
      rewrite (Contains_IPv4_nil containerNet H4). rewrite andb_false_r. cbn [andb].
      rewrite Hrange. cbn [mbind outcome_bind]. rewrite Hnext. cbn [mbind outcome_bind].
      by apply IH.
    + pose proof (aligned_block_top v prefixLen Hp Hv Hal) as Hvtop.
      rewrite AddressRange_block by done. cbn [mbind outcome_bind].
      destruct (compareIPs (ipv4Of (v + 2 ^ (32 - prefixLen) - 1)) (netIP (network existing)))
        as [c| |]; cbn [mbind outcome_bind]; try discriminate.
      destruct ((c <=? 0) && Contains containerNet (ipv4Of v)
                && Contains containerNet (ipv4Of (v + 2 ^ (32 - prefixLen) - 1))) eqn:Hcond.
      * apply andb_true_iff in Hcond as [Hcond Hend].
        apply andb_true_iff in Hcond as [_ Hstart].
        apply Contains_ipv4Of in Hstart; [|done|done].
        apply Contains_ipv4Of in Hend; [|done|lia].
        intros [= <-]. exists v. repeat (split; [done || lia|]). lia.
      * rewrite Hrange. cbn [mbind outcome_bind]. rewrite Hnext. cbn [mbind outcome_bind].
        by apply IH.
Qed.

End GapScan.

(** ** The block that [findNextInCIDR] returns *)

Section NextBlock.

Context `{NetText}.

Lemma parseSortable_elem (allocations : list Allocation) (x : sortableAllocation) :
  x ∈ parseSortable allocations ->
  alloc x ∈ allocations /\ ParseCIDR (CIDR (alloc x)) = Some (network x).
Proof.
  induction allocations as [|a rest IH]; simpl; [intros Hin; inversion Hin|].
  destruct (ParseCIDR (CIDR a)) as [n|] eqn:Hn.
  - intros Hin. apply elem_of_cons in Hin as [->|Hin].
    + split; [constructor|done].
    + destruct (IH Hin). split; [by constructor|done].
  - intros Hin. destruct (IH Hin). split; [by constructor|done].
Qed.

Lemma aligned_coarser (v ones prefixLen : Z) :
  0 <= ones <= prefixLen -> prefixLen <= 32 ->
  v mod 2 ^ (32 - ones) = 0 -> v mod 2 ^ (32 - prefixLen) = 0.
Proof.
  intros Ho Hp Hal.
  assert (2 ^ (32 - ones) = 2 ^ (prefixLen - ones) * 2 ^ (32 - prefixLen)) as Hsplit
    by (rewrite <- Z.pow_add_r by lia; f_equal; lia).
  assert (0 < 2 ^ (32 - ones)) by (apply Z.pow_pos_nonneg; lia).
  assert (0 < 2 ^ (32 - prefixLen)) by (apply Z.pow_pos_nonneg; lia).
  assert (v = v / 2 ^ (32 - ones) * 2 ^ (32 - ones)) as Hv
    by (pose proof (Z.div_mod v (2 ^ (32 - ones)) ltac:(lia)); lia).
  rewrite Hv, Hsplit, Z.mul_assoc. apply Z.mod_mul. lia.
Qed.

Lemma findNextInCIDRWith_inside sort (containerCIDR : string) (containerNet : IPNet)
    (existingAllocations : list Allocation) (prefixLen : Z) (result : string) :
  rearranges sort ->
  ParseCIDR containerCIDR = Some containerNet -> IPv4Network containerNet = true ->
  (forall a n, a ∈ existingAllocations -> ParseCIDR (CIDR a) = Some n ->
               IPv4Network n = true) ->
  findNextInCIDRWith sort containerCIDR existingAllocations prefixLen = Ret result ->
  exists v,
    result = IPNet_String {| netIP := ipv4Of v; netMask := CIDRMask prefixLen 32 |}
    /\ fst (Size (netMask containerNet)) <= prefixLen <= 32
    /\ v mod 2 ^ (32 - prefixLen) = 0
    /\ firstAddress containerNet <= v
    /\ v + 2 ^ (32 - prefixLen) - 1 <= lastAddress containerNet.
Proof.
  intros Hsorts Hc H4 Hall. unfold findNextInCIDRWith. rewrite Hc.
  destruct (IPv4Network_shape containerNet H4) as (ones & HS & Hones & _ & Hlen & Hbytes & Hal).
  rewrite HS. cbn [fst].
  destruct (Z.ltb_spec prefixLen ones) as [|Hge]; [discriminate|].
  destruct (Z.ltb_spec 32 prefixLen) as [|Hle]; [discriminate|].
  set (parsed := parseSortable (filterAllocationsInCIDR existingAllocations containerNet)).
  assert (Forall (fun x => IPv4Network (network x) = true) parsed) as Hparsed.
  { apply Forall_forall. intros x Hx.
    apply parseSortable_elem in Hx as [Hin Hp].
    rewrite filterAllocationsInCIDR_filter in Hin.
    apply list_elem_of_In, filter_In in Hin as [Hin _]. apply list_elem_of_In in Hin.
    by apply (Hall (alloc x)). }
  destruct (Hsorts parsed Hparsed) as (sortable & -> & Hperm).
  cbn [mbind outcome_bind]. unfold cloneIP.
  destruct (alignToPrefix_4 (netIP containerNet) prefixLen Hlen Hbytes ltac:(lia))
    as (Hr & Hrange & ->).
  cbn [mbind outcome_bind]. intros Hscan.
  assert (Forall (fun x => IPv4Network (network x) = true) sortable) as Hnets
    by (by rewrite Hperm).
  pose proof (SetBytes_4_range _ Hlen Hbytes).
  apply gapScan_inside in Hscan as (v & -> & Hv1 & Hv2 & Hv3); [|done|lia|done|].
  - exists v. repeat (split; [done || lia|]). done.
  - destruct (Z.ltb_spec (roundUp (big.SetBytes (netIP containerNet)) (2 ^ (32 - prefixLen)))
                (2 ^ 32)); [|by left].
    right. eexists. split; [reflexivity|]. split; [lia|done].
Qed.

Lemma findNextInCIDR_first (containerCIDR : string) (containerNet : IPNet)
    (existingAllocations : list Allocation) (prefixLen : Z) :
  ParseCIDR containerCIDR = Some containerNet -> IPv4Network containerNet = true ->
  fst (Size (netMask containerNet)) <= prefixLen <= 32 ->
  List.filter (scanned containerNet) existingAllocations = [] ->
  findNextInCIDR containerCIDR existingAllocations prefixLen
  = Ret (IPNet_String {| netIP := netIP containerNet; netMask := CIDRMask prefixLen 32 |}).
Proof.
  intros Hc H4 Hp Hnone. unfold findNextInCIDR. rewrite Hc.
  destruct (IPv4Network_shape containerNet H4) as (ones & HS & Hones & _ & Hlen & Hbytes & Hal).
  pose proof (IPv4Network_range containerNet H4) as (_ & _ & Hfl & Htop).
  unfold lastAddress in *. rewrite HS in *. cbn [fst snd] in *.
  destruct (Z.ltb_spec prefixLen ones) as [|_]; [lia|].
  destruct (Z.ltb_spec 32 prefixLen) as [|_]; [lia|].
  rewrite filterAllocationsInCIDR_filter, Hnone. cbn [parseSortable sortSlice sortLoop rev].
  cbn [mbind outcome_bind app]. unfold cloneIP.
  pose proof (aligned_coarser (firstAddress containerNet) ones prefixLen
                ltac:(lia) ltac:(lia) Hal) as Hal'.
  destruct (alignToPrefix_4 (netIP containerNet) prefixLen Hlen Hbytes ltac:(lia))
    as (_ & _ & ->).
  fold (firstAddress containerNet). rewrite (roundUp_aligned _ _ Hal').
  destruct (Z.ltb_spec (firstAddress containerNet) (2 ^ 32)) as [_|]; [|lia].
  cbn [mbind outcome_bind gapScan].
  assert (2 ^ (32 - prefixLen) <= 2 ^ (32 - ones)) as Hsize
    by (apply Z.pow_le_mono_r; lia).
  assert (0 < 2 ^ (32 - prefixLen)) as Hb by (apply Z.pow_pos_nonneg; lia).
  rewrite AddressRange_block by (done || lia). cbn [mbind outcome_bind].
  rewrite (AddressRange_IPv4 containerNet H4). cbn [mbind outcome_bind].
  assert (Contains containerNet (ipv4Of (firstAddress containerNet)) = true) as ->.
  { apply Contains_ipv4Of; [done|lia|]. unfold lastAddress. rewrite HS. cbn [fst snd]. lia. }
  unfold lastAddress. rewrite HS. cbn [fst snd].
  rewrite compareIPs_ipv4Of by lia. cbn [mbind outcome_bind].
  assert ((cmp3 (firstAddress containerNet + 2 ^ (32 - prefixLen) - 1)
                (firstAddress containerNet + 2 ^ (32 - ones) - 1) <=? 0) = true) as ->.
  { apply Z.leb_le. unfold cmp3.
    repeat match goal with |- context [?x <? ?y] => destruct (Z.ltb_spec x y) end; lia. }
  unfold firstAddress. by rewrite ipv4Of_SetBytes.
Qed.

End NextBlock.

(** ** The pool test and the overlap test of the contiguous search *)

Lemma IPv4Network_uint32 (n : IPNet) :
  IPv4Network n = true ->
  exists ones bits,
    Size (netMask n) = (ones, bits)
    /\ ipToUint32 (netIP n) = firstAddress n
    /\ u32 (u32 (firstAddress n + shl32 1 (bits - ones)) - 1) = lastAddress n
    /\ u32 (firstAddress n + shl32 1 (bits - ones))
       = (if lastAddress n =? 2 ^ 32 - 1 then 0 else lastAddress n + 1)
    /\ 0 <= firstAddress n <= lastAddress n /\ lastAddress n < 2 ^ 32.
Proof.
  intros H4. pose proof (IPv4Network_range n H4) as (Hstart & Hend & Hfl & Htop).
  destruct (Size (netMask n)) as [ones bits] eqn:HS. cbn [fst snd] in *.
  exists ones, bits. rewrite Hstart in Hend. repeat (split; [done|]).
  split; [|done].
  set (e := u32 (firstAddress n + shl32 1 (bits - ones))) in *.
  assert (0 <= e < 2 ^ 32) as He by (apply Z.mod_pos_bound; lia).
  unfold u32 in Hend. change (2 ^ 32) with 4294967296 in *.
  destruct (Z.eqb_spec (lastAddress n) (4294967296 - 1)) as [Hl|Hl];
    revert Hend; Z.to_euclidean_division_equations; lia.
Qed.

Lemma isInPoolLoop_IPv4 (candidateNet : IPNet) (poolCIDRs : list string) :
  IPv4Network candidateNet = true ->
  (forall poolCIDR poolNet,
      poolCIDR ∈ poolCIDRs -> ParseCIDR poolCIDR = Some poolNet ->
      IPv4Network poolNet = true) ->
  isInPoolLoop candidateNet poolCIDRs = true
  <-> exists poolCIDR poolNet,
        poolCIDR ∈ poolCIDRs /\ ParseCIDR poolCIDR = Some poolNet
        /\ firstAddress poolNet <= firstAddress candidateNet
        /\ lastAddress candidateNet <= lastAddress poolNet.
Proof.
  intros Hc. destruct (IPv4Network_uint32 candidateNet Hc)
    as (cOnes & cBits & HcS & Hcs & Hce & _).
  induction poolCIDRs as [|poolCIDR rest IH]; intros Hall.
  - split; [discriminate|]. intros (? & ? & Hin & _). inversion Hin.
  - cbn [isInPoolLoop].
    assert (forall pc pn, pc ∈ rest -> ParseCIDR pc = Some pn -> IPv4Network pn = true) as Hrest
      by (intros pc pn Hin; apply Hall; by constructor).
    specialize (IH Hrest).
    destruct (ParseCIDR poolCIDR) as [poolNet|] eqn:Hp.
    + pose proof (Hall poolCIDR poolNet ltac:(constructor) Hp) as H4.
      destruct (IPv4Network_uint32 poolNet H4) as (pOnes & pBits & HpS & Hps & Hpe & _).
      rewrite HcS, HpS, Hcs, Hps, Hce, Hpe.
      destruct ((firstAddress poolNet <=? firstAddress candidateNet)
                && (lastAddress candidateNet <=? lastAddress poolNet)) eqn:Htest.
      * split; [intros _|done]. apply andb_true_iff in Htest as [H1 H2].
        apply Z.leb_le in H1, H2. exists poolCIDR, poolNet.
        split; [constructor|done].
      * rewrite IH. split.
        -- intros (pc & pn & Hin & Hrestp). exists pc, pn. split; [by constructor|done].
        -- intros (pc & pn & Hin & Hpc & H1 & H2).
           apply elem_of_cons in Hin as [->|Hin]; [|by exists pc, pn].
           exfalso. rewrite Hp in Hpc. injection Hpc as <-.
           apply andb_false_iff in Htest as [Hf|Hf]; apply Z.leb_gt in Hf; lia.
    + rewrite IH. split.
      * intros (pc & pn & Hin & Hrestp). exists pc, pn. split; [by constructor|done].
      * intros (pc & pn & Hin & Hpc & H1 & H2).
        apply elem_of_cons in Hin as [->|Hin]; [congruence|by exists pc, pn].
Qed.

(** X20. With Go's text of addresses, for a candidate of IPv4 and a
    pool whose CIDRs, where they parse, are IPv4: [isInPool] holds exactly
    when the candidate's range, from its first to its last address, lies
    within the range of one CIDR of the pool that parses; a candidate that
    only straddles two adjacent CIDRs of the pool is outside. *)
Theorem isInPool_IPv4_within_one_range (pool : PoolDefinition) (cidr : string)
    (candidateNet : IPNet) :
  ParseCIDR cidr = Some candidateNet -> len (netIP candidateNet) = 4 ->
  (forall poolCIDR poolNet,
      poolCIDR ∈ PoolCIDR pool -> ParseCIDR poolCIDR = Some poolNet ->
      len (netIP poolNet) = 4) ->
  isInPool pool cidr = true
  <-> exists poolCIDR poolNet,
        poolCIDR ∈ PoolCIDR pool /\ ParseCIDR poolCIDR = Some poolNet
        /\ firstAddress poolNet <= firstAddress candidateNet
        /\ lastAddress candidateNet <= lastAddress poolNet.
Proof.
  intros Hc Hlen Hall. unfold isInPool. rewrite Hc.
  apply isInPoolLoop_IPv4.
  - by apply (ParseCIDR_IPv4Network cidr).
  - intros pc pn Hin Hp. apply (ParseCIDR_IPv4Network pc); [done|]. by apply (Hall pc).
Qed.

Lemma isInPool_IPv4_within_one_range_witness :
  isInPool (poolOf ["10.0.0.0/24"; "10.0.1.0/24"]) "10.0.0.0/23" = true
  <-> exists poolCIDR poolNet,
        poolCIDR ∈ ["10.0.0.0/24"; "10.0.1.0/24"] /\ ParseCIDR poolCIDR = Some poolNet
        /\ firstAddress poolNet
           <= firstAddress {| netIP := [10; 0; 0; 0]; netMask := [255; 255; 254; 0] |}
        /\ lastAddress {| netIP := [10; 0; 0; 0]; netMask := [255; 255; 254; 0] |}
           <= lastAddress poolNet.
Proof.
  apply (isInPool_IPv4_within_one_range (poolOf ["10.0.0.0/24"; "10.0.1.0/24"]) "10.0.0.0/23"
           {| netIP := [10; 0; 0; 0]; netMask := [255; 255; 254; 0] |}).
  - vm_compute. reflexivity.
  - reflexivity.
  - intros pc pn Hin Hp. simpl in Hin.
    apply elem_of_cons in Hin as [->|Hin].
    + vm_compute in Hp. by injection Hp as <-.
    + apply list_elem_of_singleton in Hin as ->. vm_compute in Hp. by injection Hp as <-.
Defined.

Lemma overlapsAnyLoop_IPv4 (candidateNet : IPNet) (cOnes cBits : Z) (allocs : list Allocation) :
  IPv4Network candidateNet = true -> Size (netMask candidateNet) = (cOnes, cBits) ->
  (forall a n, a ∈ allocs -> ParentCIDR a = None -> ParseCIDR (CIDR a) = Some n ->
               IPv4Network n = true) ->
  overlapsAnyLoop (ipToUint32 (netIP candidateNet))
                  (u32 (ipToUint32 (netIP candidateNet) + shl32 1 (cBits - cOnes))) allocs = true
  <-> exists a n,
        a ∈ allocs /\ ParentCIDR a = None /\ ParseCIDR (CIDR a) = Some n
        /\ lastAddress candidateNet <> 2 ^ 32 - 1 /\ lastAddress n <> 2 ^ 32 - 1
        /\ firstAddress candidateNet <= lastAddress n
        /\ firstAddress n <= lastAddress candidateNet.
Proof.
  intros Hc HcS. destruct (IPv4Network_uint32 candidateNet Hc)
    as (cOnes' & cBits' & HcS' & Hcs & _ & Hce & Hcr & Hct).
  rewrite HcS in HcS'. injection HcS' as <- <-. rewrite Hcs, Hce.
  induction allocs as [|a rest IH]; intros Hall.
  - split; [discriminate|]. intros (? & ? & Hin & _). inversion Hin.
  - cbn [overlapsAnyLoop].
    assert (forall x n, x ∈ rest -> ParentCIDR x = None -> ParseCIDR (CIDR x) = Some n ->
                        IPv4Network n = true) as Hrest
      by (intros x n Hin; apply Hall; by constructor).
    specialize (IH Hrest).
    assert ((exists x n, x ∈ rest /\ ParentCIDR x = None /\ ParseCIDR (CIDR x) = Some n
               /\ lastAddress candidateNet <> 2 ^ 32 - 1 /\ lastAddress n <> 2 ^ 32 - 1
               /\ firstAddress candidateNet <= lastAddress n
               /\ firstAddress n <= lastAddress candidateNet)
            -> exists x n, x ∈ a :: rest /\ ParentCIDR x = None /\ ParseCIDR (CIDR x) = Some n
               /\ lastAddress candidateNet <> 2 ^ 32 - 1 /\ lastAddress n <> 2 ^ 32 - 1
               /\ firstAddress candidateNet <= lastAddress n
               /\ firstAddress n <= lastAddress candidateNet) as Hweaken.
    { intros (x & n & Hin & Hx). exists x, n. split; [by constructor|done]. }
    destruct (ParentCIDR a) as [parent|] eqn:Hparent.
    { rewrite IH. split; [done|].
      intros (x & n & Hin & Hx & Hrestx).
      apply elem_of_cons in Hin as [->|Hin]; [congruence|by exists x, n]. }
    destruct (ParseCIDR (CIDR a)) as [allocNet|] eqn:Hp.
    + pose proof (Hall a allocNet ltac:(constructor) Hparent Hp) as H4.
      destruct (IPv4Network_uint32 allocNet H4)
        as (aOnes & aBits & HaS & Has & _ & Hae & Har & Hat).
      rewrite HaS, Has, Hae.
      destruct ((firstAddress candidateNet
                   <? (if lastAddress allocNet =? 2 ^ 32 - 1 then 0 else lastAddress allocNet + 1))
                && (firstAddress allocNet
                      <? (if lastAddress candidateNet =? 2 ^ 32 - 1 then 0
                          else lastAddress candidateNet + 1))) eqn:Htest.
      * split; [intros _|done]. apply andb_true_iff in Htest as [H1 H2].
        apply Z.ltb_lt in H1, H2. exists a, allocNet.
        split; [constructor|]. split; [done|]. split; [done|].
        destruct (Z.eqb_spec (lastAddress allocNet) (2 ^ 32 - 1));
          destruct (Z.eqb_spec (lastAddress candidateNet) (2 ^ 32 - 1)); lia.
      * rewrite IH. split; [done|].
        intros (x & n & Hin & Hx & Hpx & Hwc & Hwn & H1 & H2).
        apply elem_of_cons in Hin as [->|Hin]; [|by exists x, n].
        exfalso. rewrite Hp in Hpx. injection Hpx as <-.
        destruct (Z.eqb_spec (lastAddress allocNet) (2 ^ 32 - 1)); [done|].
        destruct (Z.eqb_spec (lastAddress candidateNet) (2 ^ 32 - 1)); [done|].
        apply andb_false_iff in Htest as [Hf|Hf]; apply Z.ltb_ge in Hf; lia.
    + rewrite IH. split; [done|].
      intros (x & n & Hin & Hx & Hpx & Hrestx).
      apply elem_of_cons in Hin as [->|Hin]; [congruence|by exists x, n].
Qed.

(** X21. With Go's text of addresses, for a candidate of IPv4 and a
    list whose top-level entries, where they parse, are IPv4:
    [overlapsAny] holds exactly when the candidate shares an address with
    a top-level entry that parses, provided that neither of the two
    reaches 255.255.255.255; an overlap with or of a block that ends at
    255.255.255.255 is never reported, its end being 0 in [uint32]. *)
Theorem overlapsAny_IPv4_below_top (cidr : string) (candidateNet : IPNet)
    (allocs : list Allocation) :
  ParseCIDR cidr = Some candidateNet -> len (netIP candidateNet) = 4 ->
  (forall a n, a ∈ allocs -> ParentCIDR a = None -> ParseCIDR (CIDR a) = Some n ->
               len (netIP n) = 4) ->
  overlapsAny cidr allocs = true
  <-> exists a n,
        a ∈ allocs /\ ParentCIDR a = None /\ ParseCIDR (CIDR a) = Some n
        /\ lastAddress candidateNet <> 2 ^ 32 - 1 /\ lastAddress n <> 2 ^ 32 - 1
        /\ firstAddress candidateNet <= lastAddress n
        /\ firstAddress n <= lastAddress candidateNet.
Proof.
  intros Hc Hlen Hall. unfold overlapsAny. rewrite Hc.
  destruct (Size (netMask candidateNet)) as [cOnes cBits] eqn:HS.
  apply overlapsAnyLoop_IPv4; [|done|].
  - by apply (ParseCIDR_IPv4Network cidr).
  - intros a n Hin Hpar Hp. apply (ParseCIDR_IPv4Network (CIDR a)); [done|].
    by apply (Hall a).
Qed.

Lemma overlapsAny_IPv4_below_top_witness :
  overlapsAny "10.0.0.0/24" [allocOf "10.0.0.128/25"] = true
  <-> exists a n,
        a ∈ [allocOf "10.0.0.128/25"] /\ ParentCIDR a = None /\ ParseCIDR (CIDR a) = Some n
        /\ lastAddress {| netIP := [10; 0; 0; 0]; netMask := [255; 255; 255; 0] |}
           <> 2 ^ 32 - 1
        /\ lastAddress n <> 2 ^ 32 - 1
        /\ firstAddress {| netIP := [10; 0; 0; 0]; netMask := [255; 255; 255; 0] |}
           <= lastAddress n
        /\ firstAddress n
           <= lastAddress {| netIP := [10; 0; 0; 0]; netMask := [255; 255; 255; 0] |}.
Proof.
  apply (overlapsAny_IPv4_below_top "10.0.0.0/24"
           {| netIP := [10; 0; 0; 0]; netMask := [255; 255; 255; 0] |}
           [allocOf "10.0.0.128/25"]).
  - vm_compute. reflexivity.
  - reflexivity.
  - intros a n Hin _ Hp. apply list_elem_of_singleton in Hin as ->.
    vm_compute in Hp. by injection Hp as <-.
Defined.

(** ** Where [findNextInCIDR] cannot fail at run time *)

Lemma roundUp_least (x blockSize T : Z) :
  0 < blockSize -> x <= T -> T mod blockSize = 0 -> roundUp x blockSize <= T.
Proof.
  intros Hb Hx HT. destruct (roundUp_spec x blockSize Hb) as [Hal Hr].
  set (r := roundUp x blockSize) in *.
  assert (r = blockSize * (r / blockSize)) as Hrb
    by (pose proof (Z.div_mod r blockSize ltac:(lia)); lia).
  assert (T = blockSize * (T / blockSize)) as HTb
    by (pose proof (Z.div_mod T blockSize ltac:(lia)); lia).
  destruct (Z.le_gt_cases (r / blockSize) (T / blockSize)) as [Hle|Hgt]; [nia|].
  exfalso. assert (T / blockSize + 1 <= r / blockSize) by lia. nia.
Qed.

Lemma multiple_step (x T s : Z) :
  0 < s -> x mod s = 0 -> T mod s = 0 -> x < T -> x + s <= T.
Proof.
  intros Hs Hx HT Hlt.
  assert (x = s * (x / s)) as Hxs by (pose proof (Z.div_mod x s ltac:(lia)); lia).
  assert (T = s * (T / s)) as HTs by (pose proof (Z.div_mod T s ltac:(lia)); lia).
  destruct (Z.lt_ge_cases (x / s) (T / s)) as [Hq|Hq]; nia.
Qed.

Lemma pow2_multiple (v i j : Z) :
  0 <= i <= j -> v mod 2 ^ j = 0 -> v mod 2 ^ i = 0.
Proof.
  intros Hij Hal.
  assert (2 ^ j = 2 ^ (j - i) * 2 ^ i) as Hsplit
    by (rewrite <- Z.pow_add_r by lia; f_equal; lia).
  assert (0 < 2 ^ j) by (apply Z.pow_pos_nonneg; lia).
  assert (0 < 2 ^ i) by (apply Z.pow_pos_nonneg; lia).
  assert (v = v / 2 ^ j * 2 ^ j) as Hv by (pose proof (Z.div_mod v (2 ^ j) ltac:(lia)); lia).
  rewrite Hv, Hsplit, Z.mul_assoc. apply Z.mod_mul. lia.
Qed.

(** After an allocation whose first address lies in a container that
    stops short of 255.255.255.255, the next candidate is an address. *)
Lemma next_candidate_below_top (containerNet existing : IPNet) (prefixLen : Z) :
  IPv4Network containerNet = true -> lastAddress containerNet < 2 ^ 32 - 1 ->
  fst (Size (netMask containerNet)) <= prefixLen <= 32 ->
  IPv4Network existing = true -> Contains containerNet (netIP existing) = true ->
  exists existingEnd v,
    cidr.AddressRange existing = Ret (netIP existing, existingEnd)
    /\ alignToPrefix (cidr.Inc existingEnd) prefixLen 32 = Ret (ipv4Of v)
    /\ 0 <= v < 2 ^ 32 /\ v mod 2 ^ (32 - prefixLen) = 0.
Proof.
  intros Hc Hbelow Hp He Hin.
  destruct (IPv4Network_shape containerNet Hc) as (cOnes & HcS & HcO & _ & _ & _ & Hcal).
  destruct (IPv4Network_shape existing He) as (eOnes & HeS & HeO & _ & Helen & Heb & Heal).
  pose proof (IPv4Network_range containerNet Hc) as (_ & _ & Hcfl & _).
  pose proof (IPv4Network_range existing He) as (_ & _ & Hefl & Hetop).
  rewrite HcS in Hp. cbn [fst] in Hp.
  assert (firstAddress containerNet <= firstAddress existing <= lastAddress containerNet) as Hpos.
  { rewrite <- (ipv4Of_SetBytes (netIP existing) Helen Heb) in Hin.
    apply Contains_ipv4Of in Hin; [done|done|]. unfold firstAddress in *. lia. }
  unfold lastAddress in *. rewrite HcS, HeS in *. cbn [fst snd] in *.
  assert (0 < 2 ^ (32 - prefixLen)) as Hb by (apply Z.pow_pos_nonneg; lia).
  assert (0 < 2 ^ (32 - eOnes)) as Hse by (apply Z.pow_pos_nonneg; lia).
  exists (ipv4Of (firstAddress existing + 2 ^ (32 - eOnes) - 1)).
  rewrite (AddressRange_IPv4 existing He). unfold lastAddress. rewrite HeS. cbn [fst snd].
  rewrite Inc_4 by (apply ipv4Of_length || apply ipv4Of_isByte).
  rewrite SetBytes_ipv4Of by lia.
  replace (firstAddress existing + 2 ^ (32 - eOnes) - 1 + 1)
    with (firstAddress existing + 2 ^ (32 - eOnes)) by lia.
  set (x := (firstAddress existing + 2 ^ (32 - eOnes)) mod 2 ^ 32).
  assert (0 <= x < 2 ^ 32) as Hx by (apply Z.mod_pos_bound; lia).
  destruct (alignToPrefix_4 (ipv4Of x) prefixLen (ipv4Of_length _) (ipv4Of_isByte _) ltac:(lia))
    as (Hal & Hr & ->).
  rewrite SetBytes_ipv4Of in * by done.
  assert (roundUp x (2 ^ (32 - prefixLen)) < 2 ^ 32) as Hfit.
  { destruct (Z.le_gt_cases eOnes prefixLen) as [Hcoarse|Hfine].
    - (* the allocation is at least as large as the block requested *)
      assert ((firstAddress existing + 2 ^ (32 - eOnes)) mod 2 ^ (32 - prefixLen) = 0) as Hm.
      { apply (pow2_multiple _ (32 - prefixLen) (32 - eOnes)); [lia|].
        rewrite <- Z.add_mod_idemp_l, Heal by lia. rewrite Z.add_0_l. apply Z.mod_same. lia. }
      assert (x mod 2 ^ (32 - prefixLen) = 0) as Hxm.
      { unfold x. destruct (Z.eq_dec (firstAddress existing + 2 ^ (32 - eOnes)) (2 ^ 32)) as [->|Hne].
        - rewrite Z.mod_same by lia. apply Z.mod_0_l. lia.
        - rewrite (Z.mod_small (firstAddress existing + 2 ^ (32 - eOnes)) (2 ^ 32)) by lia.
          done. }
      rewrite (roundUp_aligned _ _ Hxm). lia.
    - (* the allocation is smaller: it ends inside the container *)
      set (T := firstAddress containerNet + 2 ^ (32 - cOnes)) in *.
      assert (T mod 2 ^ (32 - prefixLen) = 0) as HT.
      { apply (pow2_multiple _ (32 - prefixLen) (32 - cOnes)); [lia|].
        unfold T. rewrite <- Z.add_mod_idemp_l, Hcal by (apply Z.pow_nonzero; lia).
        rewrite Z.add_0_l. apply Z.mod_same. apply Z.pow_nonzero; lia. }
      assert (T mod 2 ^ (32 - eOnes) = 0) as HTe
        by (apply (pow2_multiple _ (32 - eOnes) (32 - prefixLen)); [lia|done]).
      assert (firstAddress existing + 2 ^ (32 - eOnes) <= T) as Hend
        by (apply multiple_step; [done|done|done|lia]).
      assert (x = firstAddress existing + 2 ^ (32 - eOnes)) as Hxv
        by (unfold x; apply Z.mod_small; lia).
      pose proof (roundUp_least x (2 ^ (32 - prefixLen)) T Hb ltac:(lia) HT). lia. }
  destruct (Z.ltb_spec (roundUp x (2 ^ (32 - prefixLen))) (2 ^ 32)) as [_|]; [|lia].
  eexists. split; [reflexivity|]. split; [reflexivity|]. split; [lia|done].
Qed.

Lemma compareIPs_4 (a b : IP) :
  length a = 4%nat -> forallb isByte a = true ->
  length b = 4%nat -> forallb isByte b = true ->
  compareIPs a b = Ret (cmp3 (big.SetBytes a) (big.SetBytes b)).
Proof.
  intros Ha Hva Hb Hvb.
  rewrite <- (ipv4Of_SetBytes a Ha Hva) at 1. rewrite <- (ipv4Of_SetBytes b Hb Hvb) at 1.
  apply compareIPs_ipv4Of; by apply SetBytes_4_range.
Qed.

Lemma insertLeft_returns x sortedRev :
  IPv4Network (network x) = true ->
  Forall (fun y => IPv4Network (network y) = true) sortedRev ->
  exists r, insertLeft x sortedRev = Ret r.
Proof.
  intros Hx. induction 1 as [|y rest Hy _ IH]; cbn [insertLeft]; [by eexists|].
  destruct (IPv4Network_shape _ Hx) as (? & _ & _ & _ & Hxl & Hxb & _).
  destruct (IPv4Network_shape _ Hy) as (? & _ & _ & _ & Hyl & Hyb & _).
  rewrite (compareIPs_4 _ _ Hxl Hxb Hyl Hyb). cbn [mbind outcome_bind].
  destruct (_ <? 0); [|by eexists].
  destruct IH as [r ->]. by eexists.
Qed.

Lemma sortLoop_returns data sortedRev :
  Forall (fun y => IPv4Network (network y) = true) data ->
  Forall (fun y => IPv4Network (network y) = true) sortedRev ->
  exists sorted, sortLoop data sortedRev = Ret sorted.
Proof.
  intros Hdata. revert sortedRev.
  induction Hdata as [|x rest Hx _ IH]; intros sortedRev Hrev; simpl; [by eexists|].
  destruct (insertLeft_returns x sortedRev Hx Hrev) as [s Hs]. rewrite Hs.
  cbn [mbind outcome_bind]. apply IH.
  apply Forall_forall. intros y Hy.
  rewrite (insertLeft_Permutation _ _ _ Hs) in Hy.
  apply elem_of_cons in Hy as [->|Hy]; [done|].
  rewrite Forall_forall in Hrev. by apply Hrev.
Qed.

(** The insertion sort is one of the procedures that [rearranges]
    describes. *)
Lemma sortSlice_rearranges : rearranges sortSlice.
Proof.
  intros data Hdata. destruct (sortLoop_returns data [] Hdata) as [sorted Hs]; [constructor|].
  exists sorted. split; [exact Hs|]. by apply sortSlice_Permutation.
Qed.

Lemma findNextInCIDR_With `{NetText} (containerCIDR : string)
    (existingAllocations : list Allocation) (prefixLen : Z) :
  findNextInCIDR containerCIDR existingAllocations prefixLen
  = findNextInCIDRWith sortSlice containerCIDR existingAllocations prefixLen.
Proof. unfold findNextInCIDR, findNextInCIDRWith. reflexivity. Qed.

Section NoPanic.

Context `{NetText}.

Lemma gapScan_returns (containerCIDR : string) (containerNet : IPNet) (prefixLen : Z)
    (sortable : list sortableAllocation) (v : Z) :
  IPv4Network containerNet = true -> lastAddress containerNet < 2 ^ 32 - 1 ->
  fst (Size (netMask containerNet)) <= prefixLen <= 32 ->
  Forall (fun x => IPv4Network (network x) = true
                   /\ Contains containerNet (netIP (network x)) = true) sortable ->
  0 <= v < 2 ^ 32 -> v mod 2 ^ (32 - prefixLen) = 0 ->
  gapScan containerCIDR containerNet prefixLen 32 sortable (ipv4Of v) <> Panic.
Proof.
  intros Hc Hbelow Hp Hall. revert v.
  destruct (IPv4Network_shape containerNet Hc) as (cOnes & HcS & HcO & _).
  pose proof (IPv4Network_range containerNet Hc) as (_ & _ & Hcfl & Hctop).
  assert (0 <= prefixLen <= 32) as Hp' by (rewrite HcS in Hp; cbn [fst] in Hp; lia).
  assert (0 < 2 ^ (32 - prefixLen)) as Hb by (apply Z.pow_pos_nonneg; lia).
  induction Hall as [|existing rest [Hx Hin] _ IH]; intros v Hv Hal.
  - cbn [gapScan]. pose proof (aligned_block_top v prefixLen Hp' Hv Hal).
    rewrite AddressRange_block by done. cbn [mbind outcome_bind].
    rewrite (AddressRange_IPv4 containerNet Hc). cbn [mbind outcome_bind].
    destruct (Contains containerNet (ipv4Of v)); [|discriminate].
    rewrite compareIPs_ipv4Of by lia. cbn [mbind outcome_bind].
    by destruct (_ <=? 0).
  - cbn [gapScan]. pose proof (aligned_block_top v prefixLen Hp' Hv Hal).
    rewrite AddressRange_block by done. cbn [mbind outcome_bind].
    destruct (IPv4Network_shape _ Hx) as (? & _ & _ & _ & Hxl & Hxb & _).
    rewrite (compareIPs_4 _ _ (ipv4Of_length _) (ipv4Of_isByte _) Hxl Hxb).
    cbn [mbind outcome_bind].
    destruct (_ && _); [discriminate|].
    destruct (next_candidate_below_top containerNet (network existing) prefixLen
                Hc Hbelow Hp Hx Hin) as (existingEnd & v' & Hrange & Hnext & Hv' & Hal').
    rewrite Hrange. cbn [mbind outcome_bind]. rewrite Hnext. cbn [mbind outcome_bind].
    by apply IH.
Qed.

Lemma findNextInCIDRWith_returns sort (containerCIDR : string) (containerNet : IPNet)
    (existingAllocations : list Allocation) (prefixLen : Z) :
  rearranges sort ->
  ParseCIDR containerCIDR = Some containerNet -> IPv4Network containerNet = true ->
  lastAddress containerNet < 2 ^ 32 - 1 ->
  (forall a n, a ∈ existingAllocations -> ParseCIDR (CIDR a) = Some n ->
               IPv4Network n = true) ->
  findNextInCIDRWith sort containerCIDR existingAllocations prefixLen <> Panic.
Proof.
  intros Hsorts Hc H4 Hbelow Hall. unfold findNextInCIDRWith. rewrite Hc.
  destruct (IPv4Network_shape containerNet H4) as (ones & HS & Hones & _ & Hlen & Hbytes & Hal).
  rewrite HS.
  destruct (Z.ltb_spec prefixLen ones) as [|Hge]; [discriminate|].
  destruct (Z.ltb_spec 32 prefixLen) as [|Hle]; [discriminate|].
  set (parsed := parseSortable (filterAllocationsInCIDR existingAllocations containerNet)).
  assert (Forall (fun x => IPv4Network (network x) = true
                           /\ Contains containerNet (netIP (network x)) = true) parsed)
    as Hparsed.
  { apply Forall_forall. intros x Hx. apply parseSortable_elem in Hx as [Hin Hp].
    rewrite filterAllocationsInCIDR_filter in Hin.
    apply list_elem_of_In, filter_In in Hin as [Hin Hscanned]. apply list_elem_of_In in Hin.
    split; [by apply (Hall (alloc x))|].
    unfold scanned in Hscanned. by rewrite Hp in Hscanned. }
  destruct (Hsorts parsed) as (sortable & -> & Hperm).
  { eapply Forall_impl; [exact Hparsed|]. by intros x [? _]. }
  cbn [mbind outcome_bind]. unfold cloneIP.
  pose proof (aligned_coarser (firstAddress containerNet) ones prefixLen
                ltac:(lia) ltac:(lia) Hal) as Hal'.
  destruct (alignToPrefix_4 (netIP containerNet) prefixLen Hlen Hbytes ltac:(lia))
    as (_ & _ & ->).
  fold (firstAddress containerNet). rewrite (roundUp_aligned _ _ Hal').
  pose proof (IPv4Network_range containerNet H4) as (_ & _ & Hfl & Htop).
  destruct (Z.ltb_spec (firstAddress containerNet) (2 ^ 32)) as [_|]; [|lia].
  cbn [mbind outcome_bind].
  apply gapScan_returns; try done.
  - rewrite HS. cbn [fst]. lia.
  - by rewrite Hperm.
  - lia.
Qed.

End NoPanic.

(** X22. With Go's text of addresses, for a container of IPv4 that does
    not reach 255.255.255.255 and a list whose entries, where they parse,
    are IPv4: [findNextInCIDR] returns a block or an error for every
    prefix length; it never aborts the program, in whatever order
    [sort.Slice] leaves the entries (the statement is for every procedure
    that [rearranges] the slice, the insertion sort of [findNextInCIDR]
    being one).  At the top of the address space it can abort: see
    [findNextInCIDR_aborts_at_top]. *)
Theorem findNextInCIDR_never_panics_below_top
    (sort : list sortableAllocation -> outcome (list sortableAllocation))
    (containerCIDR : string) (containerNet : IPNet)
    (existingAllocations : list Allocation) (prefixLen : Z) :
  rearranges sort ->
  ParseCIDR containerCIDR = Some containerNet -> len (netIP containerNet) = 4 ->
  lastAddress containerNet < 2 ^ 32 - 1 ->
  (forall a n, a ∈ existingAllocations -> ParseCIDR (CIDR a) = Some n ->
               len (netIP n) = 4) ->
  findNextInCIDRWith sort containerCIDR existingAllocations prefixLen <> Panic.
Proof.
  intros Hsorts Hc Hlen Hbelow Hall.
  apply (findNextInCIDRWith_returns sort _ containerNet); try done.
  - by apply (ParseCIDR_IPv4Network containerCIDR).
  - intros a n Ha Hn. apply (ParseCIDR_IPv4Network (CIDR a)); [done|]. by apply (Hall a).
Qed.

Lemma findNextInCIDR_never_panics_below_top_witness :
  findNextInCIDRWith sortSlice "10.0.0.0/24" [allocOf "10.0.0.0/25"; allocOf "bad"] 24
  <> Panic.
Proof.
  apply (findNextInCIDR_never_panics_below_top sortSlice "10.0.0.0/24"
           {| netIP := [10; 0; 0; 0]; netMask := [255; 255; 255; 0] |}).
  - exact sortSlice_rearranges.
  - vm_compute. reflexivity.
  - reflexivity.
  - vm_compute. reflexivity.
  - intros a n Ha Hn. apply elem_of_cons in Ha as [->|Ha].
    + vm_compute in Hn. by injection Hn as <-.
    + apply list_elem_of_singleton in Ha as ->. vm_compute in Hn. discriminate.
Defined.

(** In the last block of the address space the search can abort: after
    255.255.255.0/25 the next boundary of a /24 lies past 255.255.255.255,
    [alignToPrefix] returns [nil], and [cidr.AddressRange] panics on an
    address of length 0. *)
Example findNextInCIDR_aborts_at_top :
  findNextInCIDR "255.255.255.0/24" [allocOf "255.255.255.0/25"] 24 = Panic.
Proof. vm_compute. reflexivity. Qed.

(** ** The text of a block *)

Lemma chars_app (s1 s2 : string) :
  list_ascii_of_string (s1 +:+ s2) = list_ascii_of_string s1 ++ list_ascii_of_string s2.
Proof. induction s1 as [|c s1 IH]; simpl; [done|]. by rewrite IH. Qed.

Lemma byte_cases (P : Z -> Prop) :
  (forall n : nat, (n < 256)%nat -> P (Z.of_nat n)) -> forall b, 0 <= b < 256 -> P b.
Proof.
  intros HP b Hb. replace b with (Z.of_nat (Z.to_nat b)) by lia. apply HP. lia.
Qed.

Lemma digits_field (b : Z) :
  0 <= b < 256 ->
  forall rest atStart prevDot fields,
    GoText.parseIPv4Fields (list_ascii_of_string (itoa b) ++ rest) atStart prevDot 0 0 fields
    = GoText.parseIPv4Fields rest false false b
        (if b <? 10 then 1 else if b <? 100 then 2 else 3) fields.
Proof.
  intros Hb. pattern b. apply byte_cases; [|done]. clear b Hb. intros n Hn.
  do 256 (destruct n as [|n]; [intros; reflexivity|]). lia.
Qed.

Lemma digits_head (b : Z) :
  0 <= b < 256 -> exists c r, list_ascii_of_string (itoa b) = c :: r.
Proof.
  intros Hb. pattern b. apply byte_cases; [|done]. clear b Hb. intros n Hn.
  do 256 (destruct n as [|n]; [by eexists _, _|]). lia.
Qed.

Lemma digits_scan (b : Z) :
  0 <= b < 256 ->
  forall rest whole,
    GoText.parseAddrScan (list_ascii_of_string (itoa b) ++ "."%char :: rest) whole
    = GoText.parseIPv4 whole.
Proof.
  intros Hb. pattern b. apply byte_cases; [|done]. clear b Hb. intros n Hn.
  do 256 (destruct n as [|n]; [intros; reflexivity|]). lia.
Qed.

Lemma digits_cutSlash (b : Z) :
  0 <= b < 256 ->
  forall rest acc,
    GoText.cutSlash (list_ascii_of_string (itoa b) ++ rest) acc
    = GoText.cutSlash rest (rev (list_ascii_of_string (itoa b)) ++ acc).
Proof.
  intros Hb. pattern b. apply byte_cases; [|done]. clear b Hb. intros n Hn.
  do 256 (destruct n as [|n]; [intros; reflexivity|]). lia.
Qed.

Lemma digits_dtoi (prefixLen : Z) :
  0 <= prefixLen <= 32 ->
  GoText.dtoi (list_ascii_of_string (itoa prefixLen)) 0 false = Some prefixLen.
Proof.
  intros Hp. apply prefix_cases in Hp. simpl in Hp.
  repeat (destruct Hp as [<-|Hp]; [vm_compute; reflexivity|]). contradiction.
Qed.

(** The four bytes that [uint32ToIP] prints. *)
Lemma uint32_bytes (v : Z) :
  0 <= v < 2 ^ 32 ->
  [Z.land (Z.shiftr v 24) 255; Z.land (Z.shiftr v 16) 255; Z.land (Z.shiftr v 8) 255;
   Z.land v 255] = ipv4Of v.
Proof.
  intros Hv.
  assert (forall x, Z.land x 255 = x mod 256) as Hland
    by (intros x; apply (Z.land_ones x 8); lia).
  rewrite !Hland, !Z.shiftr_div_pow2 by lia.
  assert (forall x, 0 <= x mod 256 < 256) as Hm by (intros x; apply Z.mod_pos_bound; lia).
  apply bytes4_eq; try done; try apply ipv4Of_length; try apply ipv4Of_isByte.
  - simpl. unfold isByte.
    repeat (apply andb_true_iff; split; [apply andb_true_iff; split;
      [apply Z.leb_le|apply Z.ltb_lt]; apply Hm|]). done.
  - rewrite SetBytes_ipv4Of by done. unfold big.SetBytes. simpl fold_left.
    change (2 ^ 32) with 4294967296 in Hv. change (2 ^ 24) with 16777216.
    change (2 ^ 16) with 65536. change (2 ^ 8) with 256.
    Z.to_euclidean_division_equations; lia.
Qed.

Lemma uint32_byte_range (v k : Z) : 0 <= Z.land (Z.shiftr v k) 255 < 256.
Proof.
  change 255 with (Z.ones 8). rewrite Z.land_ones by lia. apply Z.mod_pos_bound. lia.
Qed.

Lemma uint32ToIP_dotted (v : Z) :
  0 <= v < 2 ^ 32 -> uint32ToIP v = GoText.dotted (ipv4Of v).
Proof.
  intros Hv. rewrite <- (uint32_bytes v Hv). unfold uint32ToIP, GoText.dotted.
  by rewrite Z.shiftr_0_r || (change (Z.land v 255) with (Z.land (Z.shiftr v 0) 255); done).
Qed.

(** The text of a block is the text that [net.IPNet.String] gives for
    it, and it parses back to the block. *)
Lemma IPNet_String_block (v prefixLen : Z) :
  0 <= v < 2 ^ 32 -> 0 <= prefixLen <= 32 ->
  IPNet_String {| netIP := ipv4Of v; netMask := CIDRMask prefixLen 32 |}
  = blockCIDR v prefixLen.
Proof.
  intros Hv Hp. unfold blockCIDR. rewrite (uint32ToIP_dotted v Hv).
  change IPNet_String with GoText.IPNet_String. unfold GoText.IPNet_String.
  pose proof (ipv4Of_length v) as Hlen.
  pose proof (Size_CIDRMask_32 prefixLen Hp) as HS.
  assert (length (CIDRMask prefixLen 32) = 4%nat) as Hml.
  { unfold CIDRMask. simpl negb. cbn [andb].
    replace ((prefixLen <? 0) || (32 <? prefixLen)) with false by lia. apply length_maskBytes. }
  assert (simpleMaskLength (CIDRMask prefixLen 32) = prefixLen) as Hsml.
  { unfold Size in HS. destruct (simpleMaskLength (CIDRMask prefixLen 32) =? -1);
      [injection HS; lia|by injection HS]. }
  destruct (ipv4Of v) as [|x0 [|x1 [|x2 [|x3 [|]]]]]; try discriminate.
  destruct (CIDRMask prefixLen 32) as [|c0 [|c1 [|c2 [|c3 [|]]]]] eqn:Hm; try discriminate.
  unfold networkNumberAndMask. cbn [netIP netMask].
  change (To4 [x0; x1; x2; x3]) with [x0; x1; x2; x3].
  change (len [x0; x1; x2; x3] =? 0) with false. cbv iota.
  change (len [c0; c1; c2; c3] =? IPv4len) with true. cbv iota.
  change (len [x0; x1; x2; x3] =? IPv4len) with true. cbv iota.
  cbv zeta. rewrite Hsml.
  destruct (Z.eqb_spec prefixLen (-1)) as [|_]; [lia|].
  reflexivity.
Qed.

Lemma cutSlash_dot (rest acc : list ascii) :
  GoText.cutSlash ("."%char :: rest) acc = GoText.cutSlash rest ("."%char :: acc).
Proof. reflexivity. Qed.

Lemma cutSlash_slash (rest acc : list ascii) :
  GoText.cutSlash ("/"%char :: rest) acc = Some (rev acc, rest).
Proof. reflexivity. Qed.

Lemma parseIPv4Fields_dot (val digLen : Z) (fields : list Z) (c : ascii) (rest : list ascii) :
  GoText.parseIPv4Fields ("."%char :: c :: rest) false false val digLen fields
  = if len fields =? 3 then None
    else GoText.parseIPv4Fields (c :: rest) false true 0 0 (fields ++ [val]).
Proof. reflexivity. Qed.

Lemma dotted_text (b0 b1 b2 b3 : Z) :
  0 <= b0 < 256 -> 0 <= b1 < 256 -> 0 <= b2 < 256 -> 0 <= b3 < 256 ->
  let addr := list_ascii_of_string (itoa b0) ++ ["."%char]
              ++ list_ascii_of_string (itoa b1) ++ ["."%char]
              ++ list_ascii_of_string (itoa b2) ++ ["."%char]
              ++ list_ascii_of_string (itoa b3) in
  (forall mask, GoText.cutSlash (addr ++ "/"%char :: mask) [] = Some (addr, mask))
  /\ GoText.ParseAddr addr = Some [b0; b1; b2; b3].
Proof.
  intros H0 H1 H2 H3 addr. split.
  - intros mask. unfold addr. rewrite <- !app_assoc. cbn [app].
    rewrite digits_cutSlash, cutSlash_dot by done.
    rewrite digits_cutSlash, cutSlash_dot by done.
    rewrite digits_cutSlash, cutSlash_dot by done.
    rewrite digits_cutSlash, cutSlash_slash by done.
    do 2 f_equal. rewrite app_nil_r.
    repeat (rewrite ?rev_app_distr, ?rev_involutive; cbn [rev app]).
    rewrite <- !app_assoc. done.
  - unfold GoText.ParseAddr, addr. cbn [app]. rewrite digits_scan by done.
    unfold GoText.parseIPv4.
    destruct (digits_head b1 H1) as (c1 & r1 & Hd1).
    destruct (digits_head b2 H2) as (c2 & r2 & Hd2).
    destruct (digits_head b3 H3) as (c3 & r3 & Hd3).
    rewrite digits_field by done.
    pose proof (digits_field b1 H1) as F1. pose proof (digits_field b2 H2) as F2.
    pose proof (fun a p f => digits_field b3 H3 [] a p f) as F3. rewrite app_nil_r in F3.
    rewrite Hd1 in *. rewrite Hd2 in *. rewrite Hd3 in *. cbn [app] in *.
    rewrite parseIPv4Fields_dot. change (len [] =? 3) with false. cbv iota.
    rewrite F1, parseIPv4Fields_dot. change (len ([] ++ [b0]) =? 3) with false. cbv iota.
    rewrite F2, parseIPv4Fields_dot. change (len (([] ++ [b0]) ++ [b1]) =? 3) with false.
    cbv iota. rewrite F3. reflexivity.
Qed.

Lemma ParseCIDR_block (v prefixLen : Z) :
  0 <= v < 2 ^ 32 -> 0 <= prefixLen <= 32 ->
  ParseCIDR (blockCIDR v prefixLen)
  = Some {| netIP := IP_Mask (To16 (ipv4Of v)) (CIDRMask prefixLen 32);
            netMask := CIDRMask prefixLen 32 |}.
Proof.
  intros Hv Hp. change ParseCIDR with GoText.ParseCIDR. unfold GoText.ParseCIDR.
  unfold blockCIDR, uint32ToIP. rewrite !chars_app.
  change (list_ascii_of_string ".") with ["."%char].
  change (list_ascii_of_string "/") with ["/"%char].
  pose proof (uint32_bytes v Hv) as Hbytes.
  assert (0 <= Z.land v 255 < 256) as H3
    by (change (Z.land v 255) with (Z.land (Z.shiftr v 0) 255); apply uint32_byte_range).
  destruct (dotted_text _ _ _ _ (uint32_byte_range v 24) (uint32_byte_range v 16)
              (uint32_byte_range v 8) H3) as [Hcut Haddr].
  cbn [app] in Hcut, Haddr |- *. rewrite Hcut, Haddr, (digits_dtoi prefixLen Hp).
  rewrite Hbytes. unfold len. rewrite ipv4Of_length. change (Z.of_nat 4 * 8) with 32.
  destruct (Z.ltb_spec 32 prefixLen) as [|_]; [lia|]. done.
Qed.

(** The network that the text of a block parses to starts at the start of
    the block rounded down to a multiple of the block size. *)
Lemma masked_first (v prefixLen : Z) :
  0 <= v < 2 ^ 32 -> 0 <= prefixLen <= 32 ->
  let n := {| netIP := IP_Mask (To16 (ipv4Of v)) (CIDRMask prefixLen 32);
              netMask := CIDRMask prefixLen 32 |} in
  IPv4Network n = true
  /\ firstAddress n = v - v mod 2 ^ (32 - prefixLen)
  /\ lastAddress n = v - v mod 2 ^ (32 - prefixLen) + 2 ^ (32 - prefixLen) - 1.
Proof.
  intros Hv Hp n.
  pose proof (ipv4Of_length v) as Hlen. pose proof (ipv4Of_isByte v) as Hb.
  pose proof (SetBytes_ipv4Of v Hv) as Hval.
  assert (IPv4Network n = true /\ Contains n (ipv4Of v) = true) as [H4 Hin].
  { unfold n. destruct (ipv4Of v) as [|x0 [|x1 [|x2 [|x3 [|]]]]]; try discriminate.
    split; [by apply IPv4Network_masked|].
    assert (length (CIDRMask prefixLen 32) = 4%nat) as Hml.
    { unfold CIDRMask. simpl negb. cbn [andb].
      replace ((prefixLen <? 0) || (32 <? prefixLen)) with false by lia.
      apply length_maskBytes. }
    destruct (CIDRMask prefixLen 32) as [|c0 [|c1 [|c2 [|c3 [|]]]]]; try discriminate.
    rewrite IP_Mask_mapped_4, Contains_4_4.
    rewrite <- !Z.land_assoc, !Z.land_diag, !Z.eqb_refl. done. }
  split; [done|].
  destruct (IPv4Network_shape n H4) as (ones & HS & Hones & _ & _ & _ & Hal).
  assert (ones = prefixLen) as ->.
  { unfold n in HS. cbn [netMask] in HS. rewrite (Size_CIDRMask_32 prefixLen Hp) in HS.
    by injection HS. }
  apply Contains_ipv4Of in Hin; [|done|done].
  unfold lastAddress in *. rewrite HS in *. cbn [fst snd] in *.
  assert (0 < 2 ^ (32 - prefixLen)) as Hbs by (apply Z.pow_pos_nonneg; lia).
  assert (firstAddress n = v - v mod 2 ^ (32 - prefixLen)) as Hfirst.
  { set (b := 2 ^ (32 - prefixLen)) in *. set (f := firstAddress n) in *.
    assert (f = b * (f / b)) as Hf by (pose proof (Z.div_mod f b ltac:(lia)); lia).
    pose proof (Z.div_mod v b ltac:(lia)) as Hvd.
    pose proof (Z.mod_pos_bound v b Hbs) as Hvm.
    assert (f / b = v / b) as Hq; [|nia].
    destruct (Z.lt_trichotomy (f / b) (v / b)) as [Hlt|[Heq|Hgt]]; [|done|]; exfalso; nia. }
  split; [done|]. rewrite Hfirst. done.
Qed.

Lemma block_text (v prefixLen : Z) :
  0 <= v < 2 ^ 32 -> 0 <= prefixLen <= 32 -> v mod 2 ^ (32 - prefixLen) = 0 ->
  let block := {| netIP := ipv4Of v; netMask := CIDRMask prefixLen 32 |} in
  IPNet_String block = blockCIDR v prefixLen
  /\ ParseCIDR (blockCIDR v prefixLen) = Some block
  /\ IPv4Network block = true
  /\ Size (netMask block) = (prefixLen, 32)
  /\ firstAddress block = v
  /\ lastAddress block = v + 2 ^ (32 - prefixLen) - 1.
Proof.
  intros Hv Hp Hal block.
  destruct (masked_first v prefixLen Hv Hp) as (H4 & Hfirst & Hlast).
  rewrite Hal, Z.sub_0_r in Hfirst, Hlast.
  assert ({| netIP := IP_Mask (To16 (ipv4Of v)) (CIDRMask prefixLen 32);
             netMask := CIDRMask prefixLen 32 |} = block) as Heq.
  { unfold block. f_equal.
    destruct (IPv4Network_shape _ H4) as (_ & _ & _ & _ & Hlen & Hb & _).
    cbn [netIP] in Hlen, Hb. rewrite <- (ipv4Of_SetBytes _ Hlen Hb).
    unfold firstAddress in Hfirst. cbn [netIP] in Hfirst. by rewrite Hfirst. }
  rewrite Heq in *.
  split; [by apply IPNet_String_block|]. split; [by rewrite ParseCIDR_block, Heq|].
  split; [done|]. split; [apply (Size_CIDRMask_32 prefixLen Hp)|]. done.
Qed.

(** X23. The text that [findContiguousCIDR] prints for a block, the four
    bytes of [uint32ToIP] in decimal and the prefix length, is parsed by
    [net.ParseCIDR] as the IPv4 network of that prefix length whose first
    address is the start rounded down to a multiple of the block size;
    for a start on such a multiple the network starts there, and
    [String] prints the same text again. *)
Theorem blockCIDR_round_trip (start prefixLen : Z) :
  0 <= start < 2 ^ 32 -> 0 <= prefixLen <= 32 ->
  exists block,
    ParseCIDR (blockCIDR start prefixLen) = Some block
    /\ len (netIP block) = 4 /\ Size (netMask block) = (prefixLen, 32)
    /\ firstAddress block = start - start mod 2 ^ (32 - prefixLen)
    /\ lastAddress block = firstAddress block + 2 ^ (32 - prefixLen) - 1
    /\ (start mod 2 ^ (32 - prefixLen) = 0 ->
        IPNet_String block = blockCIDR start prefixLen).
Proof.
  intros Hs Hp. eexists. split; [by apply ParseCIDR_block|].
  destruct (masked_first start prefixLen Hs Hp) as (H4 & Hfirst & Hlast).
  destruct (IPv4Network_shape _ H4) as (ones & HS & _ & _ & Hlen & _).
  split; [unfold len; by rewrite Hlen|].
  split; [apply (Size_CIDRMask_32 prefixLen Hp)|].
  split; [done|]. split; [by rewrite Hlast, Hfirst|].
  intros Hal. destruct (block_text start prefixLen Hs Hp Hal) as (Htext & Hparse & _).
  rewrite ParseCIDR_block in Hparse by done. injection Hparse as Hip.
  rewrite Hip. exact Htext.
Qed.

Lemma blockCIDR_round_trip_witness :
  exists block,
    ParseCIDR (blockCIDR 167772165 24) = Some block
    /\ len (netIP block) = 4 /\ Size (netMask block) = (24, 32)
    /\ firstAddress block = 167772165 - 167772165 mod 2 ^ (32 - 24)
    /\ lastAddress block = firstAddress block + 2 ^ (32 - 24) - 1
    /\ (167772165 mod 2 ^ (32 - 24) = 0 -> IPNet_String block = blockCIDR 167772165 24).
Proof. apply blockCIDR_round_trip; lia. Defined.

(** X18. With Go's text of addresses, for a container of IPv4 and a list
    whose entries, where they parse, are IPv4: the text that
    [findNextInCIDR] returns parses as a network of the requested prefix
    length, which lies between the container's and 32; the network starts
    on a multiple of its size and lies within the container from its
    first to its last address.  This holds in whatever order [sort.Slice]
    leaves the entries: the statement is for every procedure that
    [rearranges] the slice, the insertion sort of [findNextInCIDR] being
    one. *)
Theorem findNextInCIDR_block_inside_container
    (sort : list sortableAllocation -> outcome (list sortableAllocation))
    (containerCIDR : string) (containerNet : IPNet)
    (existingAllocations : list Allocation) (prefixLen : Z) (result : string) :
  rearranges sort ->
  ParseCIDR containerCIDR = Some containerNet -> len (netIP containerNet) = 4 ->
  (forall a n, a ∈ existingAllocations -> ParseCIDR (CIDR a) = Some n ->
               len (netIP n) = 4) ->
  findNextInCIDRWith sort containerCIDR existingAllocations prefixLen = Ret result ->
  exists block,
    ParseCIDR result = Some block /\ IPNet_String block = result
    /\ Size (netMask block) = (prefixLen, 32)
    /\ fst (Size (netMask containerNet)) <= prefixLen <= 32
    /\ firstAddress block mod 2 ^ (32 - prefixLen) = 0
    /\ firstAddress containerNet <= firstAddress block
    /\ lastAddress block <= lastAddress containerNet.
Proof.
  intros Hsorts Hc Hlen Hall Hret.
  pose proof (ParseCIDR_IPv4Network containerCIDR containerNet Hc Hlen) as H4.
  apply (findNextInCIDRWith_inside sort containerCIDR containerNet) in Hret
    as (v & -> & Hp & Hal & Hlo & Hhi); [|done|done|done|].
  - pose proof (IPv4Network_range containerNet H4) as (_ & _ & Hfl & Htop).
    destruct (IPv4Network_shape containerNet H4) as (ones & HS & Hones & _).
    rewrite HS in Hp. cbn [fst] in Hp.
    assert (0 < 2 ^ (32 - prefixLen)) as Hb by (apply Z.pow_pos_nonneg; lia).
    destruct (block_text v prefixLen ltac:(lia) ltac:(lia) Hal)
      as (Htext & Hparse & _ & Hsize & Hfirst & Hlast).
    eexists. rewrite Htext. split; [exact Hparse|]. split; [exact Htext|].
    split; [exact Hsize|]. rewrite HS, Hfirst, Hlast. cbn [fst]. done.
  - intros a n Ha Hn. apply (ParseCIDR_IPv4Network (CIDR a)); [done|]. by apply (Hall a).
Qed.

Lemma findNextInCIDR_block_inside_container_witness :
  exists block,
    ParseCIDR "10.0.1.0/24" = Some block /\ IPNet_String block = "10.0.1.0/24"
    /\ Size (netMask block) = (24, 32)
    /\ fst (Size [255; 0; 0; 0]) <= 24 <= 32
    /\ firstAddress block mod 2 ^ (32 - 24) = 0
    /\ firstAddress {| netIP := [10; 0; 0; 0]; netMask := [255; 0; 0; 0] |}
       <= firstAddress block
    /\ lastAddress block
       <= lastAddress {| netIP := [10; 0; 0; 0]; netMask := [255; 0; 0; 0] |}.
Proof.
  apply (findNextInCIDR_block_inside_container sortSlice "10.0.0.0/8"
           {| netIP := [10; 0; 0; 0]; netMask := [255; 0; 0; 0] |}
           [allocOf "10.0.0.0/24"; allocOf "bad"] 24 "10.0.1.0/24").
  - exact sortSlice_rearranges.
  - vm_compute. reflexivity.
  - reflexivity.
  - intros a n Ha Hn. apply elem_of_cons in Ha as [->|Ha].
    + vm_compute in Hn. by injection Hn as <-.
    + apply list_elem_of_singleton in Ha as ->. vm_compute in Hn. discriminate.
  - vm_compute. reflexivity.
Defined.

(** X19. With Go's text of addresses, for a container of IPv4: when no
    entry of the list has a CIDR that parses with its first address in
    the container (an empty list, for one), [findNextInCIDR] returns, for
    every prefix length from the container's to 32, the text of the
    network of that prefix length that starts at the container's first
    address. *)
Theorem findNextInCIDR_first_block (containerCIDR : string) (containerNet : IPNet)
    (existingAllocations : list Allocation) (prefixLen : Z) :
  ParseCIDR containerCIDR = Some containerNet -> len (netIP containerNet) = 4 ->
  fst (Size (netMask containerNet)) <= prefixLen <= 32 ->
  List.filter (scanned containerNet) existingAllocations = [] ->
  let block := {| netIP := netIP containerNet; netMask := CIDRMask prefixLen 32 |} in
  findNextInCIDR containerCIDR existingAllocations prefixLen = Ret (IPNet_String block)
  /\ ParseCIDR (IPNet_String block) = Some block.
Proof.
  intros Hc Hlen Hp Hnone block.
  pose proof (ParseCIDR_IPv4Network containerCIDR containerNet Hc Hlen) as H4.
  split; [by apply findNextInCIDR_first|].
  destruct (IPv4Network_shape containerNet H4) as (ones & HS & Hones & _ & Hl & Hb & Hal).
  pose proof (IPv4Network_range containerNet H4) as (_ & _ & Hfl & Htop).
  rewrite HS in Hp. cbn [fst] in Hp.
  pose proof (aligned_coarser (firstAddress containerNet) ones prefixLen
                ltac:(lia) ltac:(lia) Hal) as Hal'.
  destruct (block_text (firstAddress containerNet) prefixLen ltac:(lia) ltac:(lia) Hal')
    as (Htext & Hparse & _).
  unfold firstAddress in Htext, Hparse. rewrite (ipv4Of_SetBytes _ Hl Hb) in Htext, Hparse.
  unfold block. by rewrite Htext.
Qed.

Lemma findNextInCIDR_first_block_witness :
  let block := {| netIP := [10; 0; 0; 0]; netMask := CIDRMask 24 32 |} in
  findNextInCIDR "10.0.0.0/8" [allocOf "192.168.0.0/24"; allocOf "bad"] 24
  = Ret (IPNet_String block)
  /\ ParseCIDR (IPNet_String block) = Some block.
Proof.
  apply (findNextInCIDR_first_block "10.0.0.0/8"
           {| netIP := [10; 0; 0; 0]; netMask := [255; 0; 0; 0] |}).
  - vm_compute. reflexivity.
  - reflexivity.
  - vm_compute. split; discriminate.
  - vm_compute. reflexivity.
Defined.

(** X24. With Go's text of addresses, for a target of IPv4, a pool whose
    CIDRs, where they parse, are IPv4, and a list whose top-level entries,
    where they parse, are IPv4: the text that [findContiguousCIDR] returns
    parses as a network of the requested prefix length that ends just
    before the target's first address or starts just after its last (in
    [uint32]), lies within one parsable CIDR of the pool, and shares no
    address with any top-level entry that parses, unless the block or the
    entry reaches 255.255.255.255. *)
Theorem findContiguousCIDR_block_is_free (pool : PoolDefinition) (allocs : list Allocation)
    (prefixLen : Z) (targetCIDR result : string) (targetNet : IPNet) :
  ParseCIDR targetCIDR = Some targetNet -> len (netIP targetNet) = 4 ->
  (forall poolCIDR poolNet,
      poolCIDR ∈ PoolCIDR pool -> ParseCIDR poolCIDR = Some poolNet ->
      len (netIP poolNet) = 4) ->
  (forall a n, a ∈ allocs -> ParentCIDR a = None -> ParseCIDR (CIDR a) = Some n ->
               len (netIP n) = 4) ->
  findContiguousCIDR pool allocs prefixLen targetCIDR = Ret result ->
  exists block,
    ParseCIDR result = Some block /\ Size (netMask block) = (prefixLen, 32)
    /\ (lastAddress block + 1 = firstAddress targetNet
        \/ firstAddress block = (lastAddress targetNet + 1) mod 2 ^ 32)
    /\ (exists poolCIDR poolNet,
          poolCIDR ∈ PoolCIDR pool /\ ParseCIDR poolCIDR = Some poolNet
          /\ firstAddress poolNet <= firstAddress block
          /\ lastAddress block <= lastAddress poolNet)
    /\ (forall a n,
          a ∈ allocs -> ParentCIDR a = None -> ParseCIDR (CIDR a) = Some n ->
          lastAddress block <> 2 ^ 32 - 1 -> lastAddress n <> 2 ^ 32 - 1 ->
          lastAddress block < firstAddress n \/ lastAddress n < firstAddress block).
Proof.
  intros Ht Hlen Hpool Hallocs Hret.
  pose proof (ParseCIDR_IPv4Network targetCIDR targetNet Ht Hlen) as H4.
  apply findContiguousCIDR_neighbour in Hret
    as (targetNet' & start & Ht' & Hp & -> & Hstart & Hal & Hin & Hov & Hside).
  rewrite Ht in Ht'. injection Ht' as <-.
  destruct (block_text start prefixLen Hstart ltac:(lia) Hal)
    as (_ & Hparse & Hb4 & Hsize & Hfirst & Hlast).
  set (block := {| netIP := ipv4Of start; netMask := CIDRMask prefixLen 32 |}) in *.
  exists block. split; [done|]. split; [done|].
  destruct (IPv4Network_uint32 targetNet H4)
    as (tOnes & tBits & HtS & Hts & _ & Hte & Htr & Htt).
  split; [|split].
  - cbv zeta in Hside. rewrite HtS in Hside. cbn [fst snd] in Hside.
    rewrite !Hts, ?Hte in Hside.
    rewrite Hfirst, Hlast. destruct Hside as [Hbefore|[Hafter _]]; [left; lia|right].
    rewrite Hafter. destruct (Z.eqb_spec (lastAddress targetNet) (2 ^ 32 - 1)) as [->|Hne].
    + reflexivity.
    + symmetry. apply Z.mod_small. lia.
  - unfold isInPool in Hin. rewrite Hparse in Hin.
    apply isInPoolLoop_IPv4 in Hin; [done|done|].
    intros pc pn Hpc Hpn. apply (ParseCIDR_IPv4Network pc); [done|]. by apply (Hpool pc).
  - intros a n Ha Hpar Hn Hbt Hnt.
    destruct (Z.lt_ge_cases (lastAddress block) (firstAddress n)) as [|Hge1]; [by left|].
    destruct (Z.lt_ge_cases (lastAddress n) (firstAddress block)) as [|Hge2]; [by right|].
    exfalso. unfold overlapsAny in Hov. rewrite Hparse in Hov.
    destruct (Size (netMask block)) as [bOnes bBits] eqn:HbS.
    assert (overlapsAnyLoop (ipToUint32 (netIP block))
              (u32 (ipToUint32 (netIP block) + shl32 1 (bBits - bOnes))) allocs = true) as Hyes;
      [|congruence].
    apply (overlapsAnyLoop_IPv4 block bOnes bBits allocs Hb4 HbS).
    + intros x m Hx Hxp Hm. apply (ParseCIDR_IPv4Network (CIDR x)); [done|].
      by apply (Hallocs x).
    + exists a, n. repeat (split; [done|]). lia || (split; lia).
Qed.

Lemma findContiguousCIDR_block_is_free_witness :
  exists block,
    ParseCIDR "10.0.0.0/24" = Some block /\ Size (netMask block) = (24, 32)
    /\ (lastAddress block + 1
        = firstAddress {| netIP := [10; 0; 1; 0]; netMask := [255; 255; 255; 0] |}
        \/ firstAddress block
           = (lastAddress {| netIP := [10; 0; 1; 0]; netMask := [255; 255; 255; 0] |} + 1)
             mod 2 ^ 32)
    /\ (exists poolCIDR poolNet,
          poolCIDR ∈ ["10.0.0.0/16"] /\ ParseCIDR poolCIDR = Some poolNet
          /\ firstAddress poolNet <= firstAddress block
          /\ lastAddress block <= lastAddress poolNet)
    /\ (forall a n,
          a ∈ [allocOf "10.0.1.0/24"] -> ParentCIDR a = None ->
          ParseCIDR (CIDR a) = Some n ->
          lastAddress block <> 2 ^ 32 - 1 -> lastAddress n <> 2 ^ 32 - 1 ->
          lastAddress block < firstAddress n \/ lastAddress n < firstAddress block).
Proof.
  apply (findContiguousCIDR_block_is_free (poolOf ["10.0.0.0/16"]) [allocOf "10.0.1.0/24"]
           24 "10.0.1.0/24" "10.0.0.0/24"
           {| netIP := [10; 0; 1; 0]; netMask := [255; 255; 255; 0] |}).
  - vm_compute. reflexivity.
  - reflexivity.
  - intros pc pn Hin Hp. apply list_elem_of_singleton in Hin as ->.
    vm_compute in Hp. by injection Hp as <-.
  - intros a n Hin _ Hp. apply list_elem_of_singleton in Hin as ->.
    vm_compute in Hp. by injection Hp as <-.
  - vm_compute. reflexivity.
Defined.

(** ** The gap scan on a ledger without overlaps *)

Lemma ForallOrdPairs_cons_inv {A : Type} (R : A -> A -> Prop) (x : A) (l : list A) :
  ForallOrdPairs R (x :: l) <-> Forall (R x) l /\ ForallOrdPairs R l.
Proof.
  split.
  - intros Hfop. inversion Hfop; subst. done.
  - intros [Hx Hl]. by constructor.
Qed.

Lemma ForallOrdPairs_snoc {A : Type} (R : A -> A -> Prop) (l : list A) (x : A) :
  ForallOrdPairs R (l ++ [x]) <-> ForallOrdPairs R l /\ Forall (fun y => R y x) l.
Proof.
  induction l as [|y l IH]; simpl.
  - split; [intros _; split; constructor|intros _; repeat constructor].
  - rewrite !ForallOrdPairs_cons_inv, IH. split.
    + intros [Hyall [Hl Hlx]]. apply Forall_app in Hyall as [Hy Hyx].
      inversion Hyx; subst. repeat split; try done. by constructor.
    + intros [[Hy Hl] Hall]. inversion Hall; subst.
      split; [|done]. apply Forall_app. split; [done|]. by repeat constructor.
Qed.

Lemma ForallOrdPairs_rev {A : Type} (R : A -> A -> Prop) (l : list A) :
  ForallOrdPairs R (rev l) <-> ForallOrdPairs (fun a b => R b a) l.
Proof.
  induction l as [|x l IH]; simpl; [split; constructor|].
  rewrite ForallOrdPairs_snoc, ForallOrdPairs_cons_inv, IH.
  assert (Forall (fun y => R y x) (rev l) <-> Forall (fun b => R b x) l) as ->; [|tauto].
  rewrite !Forall_forall. split; intros Hall y Hy; apply Hall.
  - apply list_elem_of_In. apply -> in_rev. by apply list_elem_of_In.
  - apply list_elem_of_In. apply <- in_rev. by apply list_elem_of_In.
Qed.

Lemma ForallOrdPairs_sym_Permutation {A : Type} (R : A -> A -> Prop) (l l' : list A) :
  (forall a b, R a b -> R b a) -> l ≡ₚ l' -> ForallOrdPairs R l -> ForallOrdPairs R l'.
Proof.
  intros Hsym. induction 1 as [|x l l' Hp IH|x y l|l l' l'' _ IH1 _ IH2].
  - done.
  - rewrite !ForallOrdPairs_cons_inv. intros [Hx Hl]. split; [by rewrite <- Hp|by apply IH].
  - rewrite !ForallOrdPairs_cons_inv, !Forall_cons. intros [[Hyx Hy] [Hx Hl]].
    split; [split; [by apply Hsym|done]|done].
  - intros Hfop. by apply IH2, IH1.
Qed.

(** The key of the sort: the first address of the network. *)
Lemma insertLeft_descending x sortedRev r :
  IPv4Network (network x) = true ->
  Forall (fun y => IPv4Network (network y) = true) sortedRev ->
  ForallOrdPairs (fun a b => firstAddress (network b) <= firstAddress (network a)) sortedRev ->
  insertLeft x sortedRev = Ret r ->
  ForallOrdPairs (fun a b => firstAddress (network b) <= firstAddress (network a)) r.
Proof.
  intros Hx Hall. revert r.
  induction Hall as [|y rest Hy Hrest IH]; intros r Hsorted; cbn [insertLeft].
  - intros [= <-]. repeat constructor.
  - destruct (IPv4Network_shape _ Hx) as (? & _ & _ & _ & Hxl & Hxb & _).
    destruct (IPv4Network_shape _ Hy) as (? & _ & _ & _ & Hyl & Hyb & _).
    rewrite (compareIPs_4 _ _ Hxl Hxb Hyl Hyb). cbn [mbind outcome_bind].
    apply ForallOrdPairs_cons_inv in Hsorted as [Hyrest Hsorted].
    fold (firstAddress (network x)). fold (firstAddress (network y)).
    destruct (Z.ltb_spec (cmp3 (firstAddress (network x)) (firstAddress (network y))) 0)
      as [Hlt|Hge].
    + destruct (insertLeft x rest) as [r'| |] eqn:Hr'; cbn [mbind outcome_bind];
        try discriminate.
      intros [= <-]. apply ForallOrdPairs_cons_inv. split; [|by apply IH].
      apply Forall_forall. intros z Hz.
      rewrite (insertLeft_Permutation _ _ _ Hr') in Hz.
      apply elem_of_cons in Hz as [->|Hz].
      * unfold cmp3 in Hlt.
        destruct (Z.ltb_spec (firstAddress (network x)) (firstAddress (network y))); [lia|].
        destruct (Z.ltb_spec (firstAddress (network y)) (firstAddress (network x))); lia.
      * rewrite Forall_forall in Hyrest. by apply Hyrest.
    + intros [= <-]. apply ForallOrdPairs_cons_inv. split; [|by apply ForallOrdPairs_cons_inv].
      assert (firstAddress (network y) <= firstAddress (network x)) as Hyx.
      { unfold cmp3 in Hge.
        destruct (Z.ltb_spec (firstAddress (network x)) (firstAddress (network y))); [lia|].
        done. }
      constructor; [done|].
      eapply Forall_impl; [exact Hyrest|]. intros z Hz. simpl in Hz. lia.
Qed.

Lemma sortLoop_ascending data sortedRev sorted :
  Forall (fun y => IPv4Network (network y) = true) data ->
  Forall (fun y => IPv4Network (network y) = true) sortedRev ->
  ForallOrdPairs (fun a b => firstAddress (network b) <= firstAddress (network a)) sortedRev ->
  sortLoop data sortedRev = Ret sorted ->
  ForallOrdPairs (fun a b => firstAddress (network a) <= firstAddress (network b)) sorted.
Proof.
  intros Hdata. revert sortedRev.
  induction Hdata as [|x rest Hx _ IH]; intros sortedRev Hrev Hdesc; cbn [sortLoop].
  - intros [= <-]. by apply ForallOrdPairs_rev.
  - destruct (insertLeft x sortedRev) as [s| |] eqn:Hs; cbn [mbind outcome_bind];
      try discriminate.
    apply IH.
    + apply Forall_forall. intros y Hy.
      rewrite (insertLeft_Permutation _ _ _ Hs) in Hy.
      apply elem_of_cons in Hy as [->|Hy]; [done|].
      rewrite Forall_forall in Hrev. by apply Hrev.
    + by apply (insertLeft_descending x sortedRev).
Qed.

Lemma ForallOrdPairs_combine {A : Type} (R1 R2 R3 : A -> A -> Prop) (l : list A) :
  (forall a b, R1 a b -> R2 a b -> R3 a b) ->
  ForallOrdPairs R1 l -> ForallOrdPairs R2 l -> ForallOrdPairs R3 l.
Proof.
  intros Himp. induction l as [|x l IH]; [constructor|].
  rewrite !ForallOrdPairs_cons_inv. intros [H1 Hl1] [H2 Hl2]. split; [|by apply IH].
  rewrite Forall_forall in *. intros y Hy. apply Himp; [by apply H1|by apply H2].
Qed.

Lemma ForallOrdPairs_Forall_r {A : Type} (R : A -> A -> Prop) (P : A -> Prop) (l : list A) :
  ForallOrdPairs R l -> Forall P l -> ForallOrdPairs (fun a b => R a b /\ P b) l.
Proof.
  induction l as [|x l IH]; [constructor|].
  rewrite !ForallOrdPairs_cons_inv, Forall_cons. intros [Hx Hl] [_ HP].
  split; [|by apply IH]. rewrite Forall_forall in *. intros y Hy. split; [by apply Hx|by apply HP].
Qed.

Lemma roundUp_mono (x y blockSize : Z) :
  0 < blockSize -> x <= y -> roundUp x blockSize <= roundUp y blockSize.
Proof.
  intros Hb Hxy. destruct (roundUp_spec y blockSize Hb) as [Hal Hr].
  apply roundUp_least; [done|lia|done].
Qed.

Lemma block_end_odd (v prefixLen : Z) :
  0 <= prefixLen < 32 -> v mod 2 ^ (32 - prefixLen) = 0 ->
  (v + 2 ^ (32 - prefixLen) - 1) mod 2 = 1.
Proof.
  intros Hp Hal.
  assert (v mod 2 ^ 1 = 0) as Hv by (apply (pow2_multiple v 1 (32 - prefixLen)); [lia|done]).
  assert (2 ^ (32 - prefixLen) mod 2 ^ 1 = 0) as Hb.
  { apply (pow2_multiple _ 1 (32 - prefixLen)); [lia|]. apply Z.mod_same.
    apply Z.pow_nonzero; lia. }
  change (2 ^ 1) with 2 in *. Z.to_euclidean_division_equations; lia.
Qed.

Lemma network_start_even (n : IPNet) :
  IPv4Network n = true -> fst (Size (netMask n)) < 32 -> firstAddress n mod 2 = 0.
Proof.
  intros H4 Hones. destruct (IPv4Network_shape n H4) as (ones & HS & Ho & _ & _ & _ & Hal).
  rewrite HS in Hones. cbn [fst] in Hones.
  apply (pow2_multiple _ 1 (32 - ones)); [lia|done].
Qed.

(** After an allocation that ends before 255.255.255.255 the next
    candidate is the first boundary after its last address. *)
Lemma next_candidate_value (existing : IPNet) (prefixLen : Z) :
  IPv4Network existing = true -> lastAddress existing < 2 ^ 32 - 1 ->
  0 <= prefixLen <= 32 ->
  let r := roundUp (lastAddress existing + 1) (2 ^ (32 - prefixLen)) in
  cidr.AddressRange existing = Ret (netIP existing, ipv4Of (lastAddress existing))
  /\ alignToPrefix (cidr.Inc (ipv4Of (lastAddress existing))) prefixLen 32
     = Ret (if r <? 2 ^ 32 then ipv4Of r else []).
Proof.
  intros H4 Hbelow Hp r. split; [by apply AddressRange_IPv4|].
  pose proof (IPv4Network_range existing H4) as (_ & _ & Hfl & _).
  rewrite Inc_4 by (apply ipv4Of_length || apply ipv4Of_isByte).
  rewrite SetBytes_ipv4Of by lia. rewrite (Z.mod_small (lastAddress existing + 1)) by lia.
  destruct (alignToPrefix_4 (ipv4Of (lastAddress existing + 1)) prefixLen
              (ipv4Of_length _) (ipv4Of_isByte _) Hp) as (_ & _ & ->).
  rewrite SetBytes_ipv4Of by lia. done.
Qed.

Section FreeBlock.

Context `{NetText}.

Lemma gapScan_free (containerCIDR : string) (containerNet : IPNet) (prefixLen : Z)
    (sortable : list sortableAllocation) (v x0 : Z) (result : string) :
  IPv4Network containerNet = true -> lastAddress containerNet < 2 ^ 32 - 1 ->
  fst (Size (netMask containerNet)) <= prefixLen < 32 ->
  Forall (fun x => IPv4Network (network x) = true
                   /\ fst (Size (netMask (network x))) < 32
                   /\ lastAddress (network x) <= lastAddress containerNet) sortable ->
  ForallOrdPairs (fun a b => lastAddress (network a) < firstAddress (network b)) sortable ->
  0 <= v < 2 ^ 32 -> v = roundUp x0 (2 ^ (32 - prefixLen)) ->
  Forall (fun x => x0 <= firstAddress (network x)) sortable ->
  gapScan containerCIDR containerNet prefixLen 32 sortable (ipv4Of v) = Ret result ->
  exists v',
    result = IPNet_String {| netIP := ipv4Of v'; netMask := CIDRMask prefixLen 32 |}
    /\ 0 <= v' < 2 ^ 32 /\ v' mod 2 ^ (32 - prefixLen) = 0
    /\ firstAddress containerNet <= v'
    /\ v' + 2 ^ (32 - prefixLen) - 1 <= lastAddress containerNet
    /\ v <= v'
    /\ Forall (fun x => v' + 2 ^ (32 - prefixLen) - 1 < firstAddress (network x)
                        \/ lastAddress (network x) < v') sortable.
Proof.
  intros Hc Hbelow Hp Hall. revert v x0.
  destruct (IPv4Network_shape containerNet Hc) as (cOnes & HcS & HcO & _ & _ & _ & Hcal).
  pose proof (IPv4Network_range containerNet Hc) as (_ & _ & Hcfl & Hctop).
  rewrite HcS in Hp. cbn [fst] in Hp.
  assert (0 <= prefixLen <= 32) as Hp' by lia.
  assert (0 < 2 ^ (32 - prefixLen)) as Hb by (apply Z.pow_pos_nonneg; lia).
  assert ((lastAddress containerNet + 1) mod 2 ^ (32 - prefixLen) = 0) as HT.
  { apply (pow2_multiple _ (32 - prefixLen) (32 - cOnes)); [lia|].
    unfold lastAddress. rewrite HcS. cbn [fst snd].
    replace (firstAddress containerNet + 2 ^ (32 - cOnes) - 1 + 1)
      with (firstAddress containerNet + 2 ^ (32 - cOnes)) by lia.
    rewrite <- Z.add_mod_idemp_l, Hcal by (apply Z.pow_nonzero; lia).
    rewrite Z.add_0_l. apply Z.mod_same. apply Z.pow_nonzero; lia. }
  induction Hall as [|existing rest (Hx & Hxo & Hxin) _ IH];
    intros v x0 Hsorted Hv Hround Hx0 Hscan.
  - cbn [gapScan] in Hscan.
    assert (v mod 2 ^ (32 - prefixLen) = 0) as Hal
      by (rewrite Hround; by apply roundUp_spec).
    pose proof (aligned_block_top v prefixLen Hp' Hv Hal).
    rewrite AddressRange_block in Hscan by done. cbn [mbind outcome_bind] in Hscan.
    rewrite (AddressRange_IPv4 containerNet Hc) in Hscan. cbn [mbind outcome_bind] in Hscan.
    destruct (Contains containerNet (ipv4Of v)) eqn:Hin; [|discriminate].
    apply Contains_ipv4Of in Hin; [|done|done].
    rewrite compareIPs_ipv4Of in Hscan by lia. cbn [mbind outcome_bind] in Hscan.
    destruct (Z.leb_spec (cmp3 (v + 2 ^ (32 - prefixLen) - 1) (lastAddress containerNet)) 0)
      as [Hcmp|]; [|discriminate].
    injection Hscan as <-. exists v.
    assert (v + 2 ^ (32 - prefixLen) - 1 <= lastAddress containerNet).
    { unfold cmp3 in Hcmp.
      destruct (Z.ltb_spec (v + 2 ^ (32 - prefixLen) - 1) (lastAddress containerNet)); [lia|].
      destruct (Z.ltb_spec (lastAddress containerNet) (v + 2 ^ (32 - prefixLen) - 1)); lia. }
    repeat (split; [done || lia|]). constructor.
  - cbn [gapScan] in Hscan.
    assert (v mod 2 ^ (32 - prefixLen) = 0) as Hal
      by (rewrite Hround; by apply roundUp_spec).
    pose proof (aligned_block_top v prefixLen Hp' Hv Hal).
    apply ForallOrdPairs_cons_inv in Hsorted as [Hafter Hsorted].
    apply Forall_cons in Hx0 as [Hx0 Hx0rest].
    pose proof (IPv4Network_range _ Hx) as (_ & _ & Hxfl & Hxtop).
    destruct (IPv4Network_shape _ Hx) as (? & _ & _ & _ & Hxl & Hxb & _).
    rewrite AddressRange_block in Hscan by done. cbn [mbind outcome_bind] in Hscan.
    rewrite (compareIPs_4 _ _ (ipv4Of_length _) (ipv4Of_isByte _) Hxl Hxb) in Hscan.
    rewrite SetBytes_ipv4Of in Hscan by lia. fold (firstAddress (network existing)) in Hscan.
    cbn [mbind outcome_bind] in Hscan.
    destruct ((cmp3 (v + 2 ^ (32 - prefixLen) - 1) (firstAddress (network existing)) <=? 0)
              && Contains containerNet (ipv4Of v)
              && Contains containerNet (ipv4Of (v + 2 ^ (32 - prefixLen) - 1))) eqn:Hcond.
    + injection Hscan as <-.
      apply andb_true_iff in Hcond as [Hcond Hend].
      apply andb_true_iff in Hcond as [Hcmp Hstart].
      apply Contains_ipv4Of in Hstart; [|done|done].
      apply Contains_ipv4Of in Hend; [|done|lia].
      apply Z.leb_le in Hcmp.
      assert (v + 2 ^ (32 - prefixLen) - 1 < firstAddress (network existing)) as Hstrict.
      { pose proof (block_end_odd v prefixLen ltac:(lia) Hal) as Hodd.
        pose proof (network_start_even _ Hx Hxo) as Heven.
        unfold cmp3 in Hcmp.
        destruct (Z.ltb_spec (v + 2 ^ (32 - prefixLen) - 1) (firstAddress (network existing)));
          [done|].
        destruct (Z.ltb_spec (firstAddress (network existing)) (v + 2 ^ (32 - prefixLen) - 1));
          [lia|].
        exfalso. assert (v + 2 ^ (32 - prefixLen) - 1 = firstAddress (network existing)) as Heq
          by lia.
        rewrite Heq in Hodd. lia. }
      exists v. repeat (split; [done || lia|]).
      constructor; [by left|].
      eapply Forall_impl; [exact Hafter|]. intros z Hz. simpl in Hz. left. lia.
    + destruct (next_candidate_value (network existing) prefixLen Hx ltac:(lia) Hp')
        as [Hrange Hnext].
      rewrite Hrange in Hscan. cbn [mbind outcome_bind] in Hscan.
      rewrite Hnext in Hscan. cbn [mbind outcome_bind] in Hscan.
      set (r := roundUp (lastAddress (network existing) + 1) (2 ^ (32 - prefixLen))) in *.
      assert (r <= lastAddress containerNet + 1) as Hrtop
        by (apply roundUp_least; [done|lia|done]).
      destruct (roundUp_spec (lastAddress (network existing) + 1) _ Hb) as [Hral Hrr].
      fold r in Hral, Hrr.
      destruct (Z.ltb_spec r (2 ^ 32)) as [_|]; [|lia].
      apply (IH r (lastAddress (network existing) + 1)) in Hscan
        as (v' & -> & Hv' & Hal' & Hlo & Hhi & Hge & Hfree); [|done|lia|done|].
      * exists v'. repeat (split; [done || lia|]).
        split.
        -- rewrite Hround. etransitivity; [|exact Hge].
           apply roundUp_mono; [done|lia].
        -- constructor; [right; lia|done].
      * eapply Forall_impl; [exact Hafter|]. intros z Hz. simpl in Hz. lia.
Qed.

End FreeBlock.

Section FreeBlockOfList.

Context `{NetText}.

Lemma parseSortable_complete (allocations : list Allocation) (a : Allocation) (n : IPNet) :
  a ∈ allocations -> ParseCIDR (CIDR a) = Some n ->
  {| network := n; alloc := a |} ∈ parseSortable allocations.
Proof.
  induction allocations as [|b rest IH]; intros Hin Hn; [inversion Hin|].
  simpl. apply elem_of_cons in Hin as [<-|Hin].
  - rewrite Hn. constructor.
  - destruct (ParseCIDR (CIDR b)); [constructor|]; by apply IH.
Qed.

Lemma parseSortable_pairs (R : IPNet -> IPNet -> Prop) (allocations : list Allocation)
    (test : Allocation -> bool) :
  ForallOrdPairs (fun a b => forall n m, ParseCIDR (CIDR a) = Some n ->
                                         ParseCIDR (CIDR b) = Some m -> R n m) allocations ->
  ForallOrdPairs (fun x y => R (network x) (network y))
                 (parseSortable (List.filter test allocations)).
Proof.
  induction allocations as [|a rest IH]; [constructor|].
  rewrite ForallOrdPairs_cons_inv. intros [Ha Hrest]. simpl.
  destruct (test a); [|by apply IH]. simpl.
  destruct (ParseCIDR (CIDR a)) as [n|] eqn:Hn; [|by apply IH].
  apply ForallOrdPairs_cons_inv. split; [|by apply IH].
  apply Forall_forall. intros y Hy. apply parseSortable_elem in Hy as [Hin Hp].
  apply list_elem_of_In, filter_In in Hin as [Hin _]. apply list_elem_of_In in Hin.
  rewrite Forall_forall in Ha. by apply (Ha (alloc y) Hin n (network y)).
Qed.

Lemma findNextInCIDR_free (containerCIDR : string) (containerNet : IPNet)
    (existingAllocations : list Allocation) (prefixLen : Z) (result : string) :
  ParseCIDR containerCIDR = Some containerNet -> IPv4Network containerNet = true ->
  lastAddress containerNet < 2 ^ 32 - 1 -> prefixLen < 32 ->
  (forall a n, a ∈ existingAllocations -> ParseCIDR (CIDR a) = Some n ->
               IPv4Network n = true /\ fst (Size (netMask n)) < 32
               /\ (withinRange containerNet n \/ disjointRanges containerNet n)) ->
  ForallOrdPairs (fun a b => forall n m, ParseCIDR (CIDR a) = Some n ->
                                         ParseCIDR (CIDR b) = Some m -> disjointRanges n m)
                 existingAllocations ->
  findNextInCIDR containerCIDR existingAllocations prefixLen = Ret result ->
  exists v,
    result = IPNet_String {| netIP := ipv4Of v; netMask := CIDRMask prefixLen 32 |}
    /\ 0 <= v < 2 ^ 32 /\ v mod 2 ^ (32 - prefixLen) = 0
    /\ fst (Size (netMask containerNet)) <= prefixLen
    /\ firstAddress containerNet <= v
    /\ v + 2 ^ (32 - prefixLen) - 1 <= lastAddress containerNet
    /\ forall a n, a ∈ existingAllocations -> ParseCIDR (CIDR a) = Some n ->
                   v + 2 ^ (32 - prefixLen) - 1 < firstAddress n \/ lastAddress n < v.
Proof.
  intros Hc H4 Hbelow Hp32 Hwf Hdisj. unfold findNextInCIDR. rewrite Hc.
  destruct (IPv4Network_shape containerNet H4) as (ones & HS & Hones & _ & Hlen & Hbytes & Hal).
  pose proof (IPv4Network_range containerNet H4) as (_ & _ & Hfl & Htop).
  rewrite HS. cbn [fst].
  destruct (Z.ltb_spec prefixLen ones) as [|Hge]; [discriminate|].
  destruct (Z.ltb_spec 32 prefixLen) as [|_]; [discriminate|].
  rewrite filterAllocationsInCIDR_filter.
  set (parsed := parseSortable (List.filter (scanned containerNet) existingAllocations)).
  assert (forall x, x ∈ parsed ->
            IPv4Network (network x) = true /\ fst (Size (netMask (network x))) < 32
            /\ withinRange containerNet (network x)) as Hparsed.
  { intros x Hx. apply parseSortable_elem in Hx as [Hin Hpx].
    apply list_elem_of_In, filter_In in Hin as [Hin Hscanned]. apply list_elem_of_In in Hin.
    destruct (Hwf (alloc x) (network x) Hin Hpx) as (Hx4 & Hxo & Hplace).
    split; [done|]. split; [done|].
    destruct Hplace as [|Hout]; [done|]. exfalso.
    unfold scanned in Hscanned. rewrite Hpx in Hscanned.
    destruct (IPv4Network_shape _ Hx4) as (? & _ & _ & _ & Hxl & Hxb & _).
    pose proof (IPv4Network_range _ Hx4) as (_ & _ & Hxfl & Hxtop).
    rewrite <- (ipv4Of_SetBytes _ Hxl Hxb) in Hscanned.
    apply Contains_ipv4Of in Hscanned; [|done|unfold firstAddress in *; lia].
    fold (firstAddress (network x)) in Hscanned. unfold disjointRanges in Hout. lia. }
  destruct (sortSlice parsed) as [sortable| |] eqn:Hsort; cbn [mbind outcome_bind];
    try discriminate.
  pose proof (sortSlice_Permutation _ _ Hsort) as Hperm.
  unfold cloneIP.
  pose proof (aligned_coarser (firstAddress containerNet) ones prefixLen
                ltac:(lia) ltac:(lia) Hal) as Hal'.
  destruct (alignToPrefix_4 (netIP containerNet) prefixLen Hlen Hbytes ltac:(lia))
    as (_ & _ & ->).
  fold (firstAddress containerNet). rewrite (roundUp_aligned _ _ Hal').
  destruct (Z.ltb_spec (firstAddress containerNet) (2 ^ 32)) as [_|]; [|lia].
  cbn [mbind outcome_bind]. intros Hscan.
  apply (gapScan_free containerCIDR containerNet prefixLen sortable
           (firstAddress containerNet) (firstAddress containerNet)) in Hscan
    as (v & -> & Hv & Hval & Hlo & Hhi & _ & Hfree).
  - exists v. repeat (split; [done || lia|]).
    intros a n Ha Hn.
    destruct (Hwf a n Ha Hn) as (Hn4 & Hno & Hplace).
    destruct (scanned containerNet a) eqn:Hscanned.
    + assert ({| network := n; alloc := a |} ∈ sortable) as Hin.
      { rewrite Hperm. apply parseSortable_complete; [|done].
        apply list_elem_of_In, filter_In. split; [by apply list_elem_of_In|done]. }
      rewrite Forall_forall in Hfree. apply (Hfree _ Hin).
    + destruct Hplace as [[Hin1 Hin2]|Hout].
      * exfalso. unfold scanned in Hscanned. rewrite Hn in Hscanned.
        destruct (IPv4Network_shape _ Hn4) as (? & _ & _ & _ & Hxl & Hxb & _).
        pose proof (IPv4Network_range _ Hn4) as (_ & _ & Hxfl & Hxtop).
        assert (Contains containerNet (netIP n) = true) as Hyes; [|congruence].
        rewrite <- (ipv4Of_SetBytes _ Hxl Hxb).
        apply Contains_ipv4Of; [done|unfold firstAddress in *; lia|].
        fold (firstAddress n). lia.
      * unfold disjointRanges in Hout. destruct Hout; [left|right]; lia.
  - done.
  - done.
  - rewrite HS. cbn [fst]. lia.
  - apply Forall_forall. intros x Hx. rewrite Hperm in Hx.
    destruct (Hparsed x Hx) as (Hx4 & Hxo & [_ Hxin]). done.
  - (* sorted by first address and pairwise disjoint: each ends before the next *)
    apply (ForallOrdPairs_combine
             (fun a b => firstAddress (network a) <= firstAddress (network b))
             (fun a b => disjointRanges (network a) (network b)
                         /\ firstAddress (network b) <= lastAddress (network b))).
    + intros a b Hab [[Hd|Hd] Hb]; [done|]. lia.
    + apply (sortLoop_ascending parsed []); [|constructor|constructor|exact Hsort].
      apply Forall_forall. intros x Hx. by destruct (Hparsed x Hx).
    + apply ForallOrdPairs_Forall_r.
      * apply (ForallOrdPairs_sym_Permutation _ parsed).
        -- intros a b [Hd|Hd]; [by right|by left].
        -- done.
        -- by apply parseSortable_pairs.
      * apply Forall_forall. intros x Hx. rewrite Hperm in Hx.
        destruct (Hparsed x Hx) as (Hx4 & _).
        pose proof (IPv4Network_range _ Hx4) as (_ & _ & Hxfl & _). lia.
  - lia.
  - by rewrite (roundUp_aligned _ _ Hal').
  - apply Forall_forall. intros x Hx. rewrite Hperm in Hx.
    destruct (Hparsed x Hx) as (_ & _ & [Hxlo _]). done.
Qed.

End FreeBlockOfList.

(** X25. With Go's text of addresses, on a ledger without overlaps:
    for a container of IPv4 that does not reach 255.255.255.255, a prefix
    length below 32, and a list whose entries, where they parse, are IPv4
    networks of prefix length at most 31 that lie within the container or
    apart from it and that pairwise share no address, the text that
    [findNextInCIDR] returns parses as a network of the requested prefix
    length that lies within the container and shares no address with any
    entry of the list.  (For a prefix length of 32, or next to an entry
    of prefix length 32, the block returned can be a taken one.) *)
Theorem findNextInCIDR_block_is_free (containerCIDR : string) (containerNet : IPNet)
    (existingAllocations : list Allocation) (prefixLen : Z) (result : string) :
  ParseCIDR containerCIDR = Some containerNet -> len (netIP containerNet) = 4 ->
  lastAddress containerNet < 2 ^ 32 - 1 -> prefixLen < 32 ->
  (forall a n, a ∈ existingAllocations -> ParseCIDR (CIDR a) = Some n ->
               len (netIP n) = 4 /\ fst (Size (netMask n)) < 32
               /\ (withinRange containerNet n \/ disjointRanges containerNet n)) ->
  ForallOrdPairs (fun a b => forall n m, ParseCIDR (CIDR a) = Some n ->
                                         ParseCIDR (CIDR b) = Some m -> disjointRanges n m)
                 existingAllocations ->
  findNextInCIDR containerCIDR existingAllocations prefixLen = Ret result ->
  exists block,
    ParseCIDR result = Some block /\ Size (netMask block) = (prefixLen, 32)
    /\ withinRange containerNet block
    /\ forall a n, a ∈ existingAllocations -> ParseCIDR (CIDR a) = Some n ->
                   disjointRanges block n.
Proof.
  intros Hc Hlen Hbelow Hp Hwf Hdisj Hret.
  pose proof (ParseCIDR_IPv4Network containerCIDR containerNet Hc Hlen) as H4.
  apply (findNextInCIDR_free containerCIDR containerNet) in Hret
    as (v & -> & Hv & Hal & Hge & Hlo & Hhi & Hfree); try done.
  - destruct (IPv4Network_shape containerNet H4) as (ones & HS & Hones & _).
    rewrite HS in Hge. cbn [fst] in Hge.
    destruct (block_text v prefixLen Hv ltac:(lia) Hal)
      as (Htext & Hparse & _ & Hsize & Hfirst & Hlast).
    eexists. rewrite Htext. split; [exact Hparse|]. split; [exact Hsize|].
    unfold withinRange, disjointRanges. rewrite Hfirst, Hlast. split; [done|].
    intros a n Ha Hn. apply (Hfree a n Ha Hn).
  - intros a n Ha Hn. destruct (Hwf a n Ha Hn) as (Hl & Ho & Hplace).
    split; [|done]. by apply (ParseCIDR_IPv4Network (CIDR a)).
Qed.

Lemma findNextInCIDR_block_is_free_witness :
  exists block,
    ParseCIDR "10.0.0.64/26" = Some block /\ Size (netMask block) = (26, 32)
    /\ withinRange {| netIP := [10; 0; 0; 0]; netMask := [255; 255; 255; 0] |} block
    /\ forall a n,
         a ∈ [allocOf "10.0.0.128/25"; allocOf "bad"; allocOf "10.0.0.0/26"] ->
         ParseCIDR (CIDR a) = Some n -> disjointRanges block n.
Proof.
  apply (findNextInCIDR_block_is_free "10.0.0.0/24"
           {| netIP := [10; 0; 0; 0]; netMask := [255; 255; 255; 0] |}
           [allocOf "10.0.0.128/25"; allocOf "bad"; allocOf "10.0.0.0/26"] 26 "10.0.0.64/26").
  - vm_compute. reflexivity.
  - reflexivity.
  - vm_compute. reflexivity.
  - lia.
  - intros a n Ha Hn.
    apply elem_of_cons in Ha as [->|Ha];
      [|apply elem_of_cons in Ha as [->|Ha]; [|apply list_elem_of_singleton in Ha as ->]];
      vm_compute in Hn; try discriminate; injection Hn as <-;
      (split; [reflexivity|]); (split; [vm_compute; reflexivity|]);
      left; split; vm_compute; discriminate.
  - repeat match goal with
           | |- ForallOrdPairs _ _ => constructor
           | |- Forall _ _ => constructor
           end; intros n m Hn Hm; vm_compute in Hn, Hm; try discriminate.
    injection Hn as <-. injection Hm as <-. right. vm_compute. reflexivity.
  - vm_compute. reflexivity.
Defined.

(** X26. With Go's text of addresses, on a ledger without overlaps: for a
    pool whose CIDRs parse as IPv4 and do not reach 255.255.255.255, a
    prefix length below 32, and a list whose top-level entries, where they
    parse, are IPv4 networks of prefix length at most 31 that lie within a
    CIDR of the pool or apart from it, for each CIDR of the pool, and
    that pairwise share no address, the text that
    [FindNextAvailableInPool] returns parses as a network of the requested
    prefix length that lies within one CIDR of the pool and shares no
    address with any top-level entry of the list. *)
Theorem FindNextAvailableInPool_block_is_free (poolDef : PoolDefinition)
    (existingAllocations : list Allocation) (prefixLen : Z) (result : string) :
  prefixLen < 32 ->
  (forall poolCIDR, poolCIDR ∈ PoolCIDR poolDef ->
     exists poolNet,
       ParseCIDR poolCIDR = Some poolNet /\ len (netIP poolNet) = 4
       /\ lastAddress poolNet < 2 ^ 32 - 1
       /\ forall a n, a ∈ existingAllocations -> ParentCIDR a = None ->
                      ParseCIDR (CIDR a) = Some n ->
                      withinRange poolNet n \/ disjointRanges poolNet n) ->
  (forall a n, a ∈ existingAllocations -> ParentCIDR a = None ->
               ParseCIDR (CIDR a) = Some n ->
               len (netIP n) = 4 /\ fst (Size (netMask n)) < 32) ->
  ForallOrdPairs (fun a b => forall n m, ParentCIDR a = None -> ParentCIDR b = None ->
                                         ParseCIDR (CIDR a) = Some n ->
                                         ParseCIDR (CIDR b) = Some m -> disjointRanges n m)
                 existingAllocations ->
  FindNextAvailableInPool poolDef existingAllocations prefixLen = Ret result ->
  exists block poolCIDR poolNet,
    ParseCIDR result = Some block /\ Size (netMask block) = (prefixLen, 32)
    /\ poolCIDR ∈ PoolCIDR poolDef /\ ParseCIDR poolCIDR = Some poolNet
    /\ withinRange poolNet block
    /\ forall a n, a ∈ existingAllocations -> ParentCIDR a = None ->
                   ParseCIDR (CIDR a) = Some n -> disjointRanges block n.
Proof.
  intros Hp Hpool Hwf Hdisj Hret. unfold FindNextAvailableInPool in Hret.
  apply poolLoop_success_inv in Hret as (before & poolCIDR & after & Hcidrs & _ & Hret).
  assert (poolCIDR ∈ PoolCIDR poolDef) as Hin
    by (rewrite Hcidrs; apply elem_of_app; right; constructor).
  destruct (Hpool poolCIDR Hin) as (poolNet & Hparse & Hlen & Hbelow & Hplace).
  rewrite filterTopLevelAllocations_filter in Hret.
  assert (forall a, a ∈ List.filter isTopLevel existingAllocations
                    <-> a ∈ existingAllocations /\ ParentCIDR a = None) as Htop.
  { intros a. rewrite !list_elem_of_In, filter_In. unfold isTopLevel.
    destruct (ParentCIDR a); split; intros [? ?]; done. }
  apply (findNextInCIDR_block_is_free poolCIDR poolNet) in Hret
    as (block & Hblock & Hsize & Hwithin & Hfree); try done.
  - exists block, poolCIDR, poolNet. repeat (split; [done|]).
    intros a n Ha Hpar Hn. apply (Hfree a); [|done]. by apply Htop.
  - intros a n Ha Hn. apply Htop in Ha as [Ha Hpar].
    destruct (Hwf a n Ha Hpar Hn) as [Hl Ho]. split; [done|]. split; [done|].
    by apply (Hplace a).
  - clear -Hdisj. induction existingAllocations as [|a rest IH]; [constructor|].
    apply ForallOrdPairs_cons_inv in Hdisj as [Ha Hrest]. simpl.
    unfold isTopLevel at 1. destruct (ParentCIDR a) eqn:Hpar; [by apply IH|].
    apply ForallOrdPairs_cons_inv. split; [|by apply IH].
    apply Forall_forall. intros b Hb.
    apply list_elem_of_In, filter_In in Hb as [Hb Hbtop]. apply list_elem_of_In in Hb.
    rewrite Forall_forall in Ha. intros n m Hn Hm. apply (Ha b Hb n m); try done.
    unfold isTopLevel in Hbtop. by destruct (ParentCIDR b).
Qed.

Lemma FindNextAvailableInPool_block_is_free_witness :
  exists block poolCIDR poolNet,
    ParseCIDR "10.0.1.0/25" = Some block /\ Size (netMask block) = (25, 32)
    /\ poolCIDR ∈ ["10.0.0.0/24"; "10.0.1.0/24"] /\ ParseCIDR poolCIDR = Some poolNet
    /\ withinRange poolNet block
    /\ forall a n,
         a ∈ [allocOf "10.0.0.0/25"; allocOf "10.0.0.128/25"] -> ParentCIDR a = None ->
         ParseCIDR (CIDR a) = Some n -> disjointRanges block n.
Proof.
  apply (FindNextAvailableInPool_block_is_free (poolOf ["10.0.0.0/24"; "10.0.1.0/24"])
           [allocOf "10.0.0.0/25"; allocOf "10.0.0.128/25"] 25 "10.0.1.0/25").
  - lia.
  - intros poolCIDR Hin. simpl in Hin.
    apply elem_of_cons in Hin as [->|Hin]; [|apply list_elem_of_singleton in Hin as ->].
    + exists {| netIP := [10; 0; 0; 0]; netMask := [255; 255; 255; 0] |}.
      split; [vm_compute; reflexivity|]. split; [reflexivity|].
      split; [vm_compute; reflexivity|].
      intros a n Ha _ Hn.
      apply elem_of_cons in Ha as [->|Ha]; [|apply list_elem_of_singleton in Ha as ->];
        vm_compute in Hn; injection Hn as <-; left; split; vm_compute; discriminate.
    + exists {| netIP := [10; 0; 1; 0]; netMask := [255; 255; 255; 0] |}.
      split; [vm_compute; reflexivity|]. split; [reflexivity|].
      split; [vm_compute; reflexivity|].
      intros a n Ha _ Hn.
      apply elem_of_cons in Ha as [->|Ha]; [|apply list_elem_of_singleton in Ha as ->];
        vm_compute in Hn; injection Hn as <-; right; right; vm_compute; reflexivity.
  - intros a n Ha _ Hn.
    apply elem_of_cons in Ha as [->|Ha]; [|apply list_elem_of_singleton in Ha as ->];
      vm_compute in Hn; injection Hn as <-; (split; [reflexivity|vm_compute; reflexivity]).
  - repeat match goal with
           | |- ForallOrdPairs _ _ => constructor
           | |- Forall _ _ => constructor
           end.
    intros n m _ _ Hn Hm. vm_compute in Hn, Hm.
    injection Hn as <-. injection Hm as <-. left. vm_compute. reflexivity.
  - vm_compute. reflexivity.
Defined.

(** ** The earlier search of pool_resource.go *)

Lemma append_assoc (s1 s2 s3 : string) : (s1 +:+ s2) +:+ s3 = s1 +:+ (s2 +:+ s3).
Proof.
  induction s1 as [|c s1 IH]; [done|].
  change (String c ((s1 +:+ s2) +:+ s3) = String c (s1 +:+ (s2 +:+ s3))). by rewrite IH.
Qed.

Lemma uint32ToCIDR_blockCIDR (ip prefixLen : Z) :
  uint32ToCIDR ip prefixLen = blockCIDR ip prefixLen.
Proof. unfold uint32ToCIDR, blockCIDR, uint32ToIP. by rewrite !append_assoc. Qed.

Lemma existsb_overlap_IPv4 (block : IPNet) (existingNets : list IPNet) :
  IPv4Network block = true -> Forall (fun n => IPv4Network n = true) existingNets ->
  existsb (fun existing => networksOverlap_contains block existing) existingNets = false
  <-> Forall (disjointRanges block) existingNets.
Proof.
  intros Hb. induction 1 as [|n rest Hn _ IH]; simpl; [split; [constructor|done]|].
  rewrite orb_false_iff, IH, Forall_cons.
  rewrite (networksOverlap_contains_IPv4 _ _ Hb Hn), (networksOverlap_IPv4_compute _ _ Hb Hn).
  rewrite andb_false_iff, !Z.leb_gt. unfold disjointRanges. tauto.
Qed.

Lemma overlap_IPv4_ranges (block n : IPNet) :
  IPv4Network block = true -> IPv4Network n = true ->
  networksOverlap_contains block n = true
  <-> firstAddress block <= lastAddress n /\ firstAddress n <= lastAddress block.
Proof.
  intros Hb Hn.
  rewrite (networksOverlap_contains_IPv4 _ _ Hb Hn), (networksOverlap_IPv4_compute _ _ Hb Hn).
  by rewrite andb_true_iff, !Z.leb_le.
Qed.

Lemma blockOf_facts (v prefixLen : Z) :
  0 <= v < 2 ^ 32 -> 0 <= prefixLen <= 32 -> v mod 2 ^ (32 - prefixLen) = 0 ->
  ParseCIDR (uint32ToCIDR v prefixLen) = Some (blockOf v prefixLen)
  /\ IPv4Network (blockOf v prefixLen) = true
  /\ Size (netMask (blockOf v prefixLen)) = (prefixLen, 32)
  /\ firstAddress (blockOf v prefixLen) = v
  /\ lastAddress (blockOf v prefixLen) = v + 2 ^ (32 - prefixLen) - 1.
Proof.
  intros Hv Hp Hal. rewrite uint32ToCIDR_blockCIDR.
  destruct (block_text v prefixLen Hv Hp Hal) as (_ & Hparse & H4 & HS & Hf & Hl). done.
Qed.

(** The candidates of the loop: from [v] on, in steps of the block size,
    as long as the block ends within the parent. *)
Lemma searchLoop_first_fit (iterations : nat) (parentCIDR : string) (existingNets : list IPNet)
    (prefixLen lastIP v : Z) :
  1 <= prefixLen <= 32 -> Forall (fun n => IPv4Network n = true) existingNets ->
  0 <= v -> v mod 2 ^ (32 - prefixLen) = 0 -> (lastIP + 1) mod 2 ^ (32 - prefixLen) = 0 ->
  v <= lastIP + 1 -> lastIP + 1 + 2 ^ (32 - prefixLen) <= 2 ^ 32 ->
  (lastIP + 1 - v) / 2 ^ (32 - prefixLen) < Z.of_nat iterations ->
  match searchLoop iterations parentCIDR existingNets prefixLen (2 ^ (32 - prefixLen)) lastIP v with
  | Found cidr =>
      exists v',
        cidr = uint32ToCIDR v' prefixLen
        /\ v <= v' /\ v' mod 2 ^ (32 - prefixLen) = 0
        /\ v' + 2 ^ (32 - prefixLen) - 1 <= lastIP
        /\ existsb (fun existing => networksOverlap_contains (blockOf v' prefixLen) existing)
                   existingNets = false
        /\ forall u, v <= u < v' -> u mod 2 ^ (32 - prefixLen) = 0 ->
             existsb (fun existing => networksOverlap_contains (blockOf u prefixLen) existing)
                     existingNets = true
  | Failed err =>
      err = ErrNoBlockInParent prefixLen parentCIDR
      /\ forall u, v <= u -> u + 2 ^ (32 - prefixLen) - 1 <= lastIP ->
           u mod 2 ^ (32 - prefixLen) = 0 ->
           existsb (fun existing => networksOverlap_contains (blockOf u prefixLen) existing)
                   existingNets = true
  | Aborted | Unfinished => False
  end.
Proof.
  intros Hp Hnets. revert v.
  assert (0 < 2 ^ (32 - prefixLen)) as Hb by (apply Z.pow_pos_nonneg; lia).
  set (step := 2 ^ (32 - prefixLen)) in *.
  induction iterations as [|iterations IH]; intros v Hv Hal HT Hle Htop Hfuel.
  - exfalso. assert (0 <= (lastIP + 1 - v) / step) by (apply Z.div_pos; lia). lia.
  - cbn [searchLoop].
    assert (u32 (u32 (v + step) - 1) = v + step - 1) as ->.
    { unfold u32. destruct (Z.eq_dec (v + step) (2 ^ 32)) as [Heq|Hne].
      - rewrite Heq, Z.mod_same by lia. rewrite Z.sub_0_l.
        change ((- (1)) mod 2 ^ 32) with (2 ^ 32 - 1). lia.
      - rewrite (Z.mod_small (v + step)) by lia. apply Z.mod_small. lia. }
    destruct (Z.leb_spec (v + step - 1) lastIP) as [Hin|Hout].
    + assert (v + step <= lastIP + 1) as Hnext by lia.
      destruct (blockOf_facts v prefixLen ltac:(lia) ltac:(lia) Hal) as (-> & _).
      assert (u32 (v + step) = v + step) as Hu by (apply Z.mod_small; lia).
      assert ((v + step) mod step = 0) as Hal'.
      { rewrite <- Z.add_mod_idemp_l, Hal by lia. rewrite Z.add_0_l. apply Z.mod_same. lia. }
      assert ((lastIP + 1 - (v + step)) / step = (lastIP + 1 - v) / step - 1) as Hmeasure.
      { replace (lastIP + 1 - (v + step)) with (lastIP + 1 - v + (-1) * step) by lia.
        rewrite Z.div_add by lia. lia. }
      destruct (existsb _ existingNets) eqn:Hov.
      * rewrite Hu. specialize (IH (v + step) ltac:(lia) Hal' HT ltac:(lia) Htop ltac:(lia)).
        destruct (searchLoop iterations parentCIDR existingNets prefixLen step lastIP (v + step))
          as [cidr|err| |]; try done.
        -- destruct IH as (v' & -> & Hge & Hv'al & Hv'in & Hfree & Hearlier).
           exists v'. repeat (split; [done || lia|]).
           intros u Hu' Hual. destruct (Z.lt_ge_cases u (v + step)) as [Hlt|Hge'].
           ++ assert (u = v) as ->; [|done].
              destruct (Z.eq_dec u v) as [|Hne]; [done|]. exfalso.
              pose proof (multiple_step v u step Hb Hal Hual ltac:(lia)). lia.
           ++ apply Hearlier; [lia|done].
        -- destruct IH as (-> & Hall). split; [done|].
           intros u Hu' Huin Hual. destruct (Z.lt_ge_cases u (v + step)) as [Hlt|Hge'].
           ++ assert (u = v) as ->; [|done].
              destruct (Z.eq_dec u v) as [|Hne]; [done|]. exfalso.
              pose proof (multiple_step v u step Hb Hal Hual ltac:(lia)). lia.
           ++ by apply Hall.
      * exists v. repeat (split; [done || lia|]). intros u Hu'. lia.
    + split; [done|]. intros u Hu' Huin. lia.
Qed.

Lemma below_top_prefix (n : IPNet) :
  IPv4Network n = true -> lastAddress n < 2 ^ 32 - 1 ->
  1 <= fst (Size (netMask n))
  /\ lastAddress n + 1 + 2 ^ (32 - fst (Size (netMask n))) <= 2 ^ 32.
Proof.
  intros H4 Hbelow.
  destruct (IPv4Network_shape n H4) as (ones & HS & Hones & _ & _ & _ & Hal).
  pose proof (IPv4Network_range n H4) as (_ & _ & Hfl & _).
  unfold lastAddress in *. rewrite HS in *. cbn [fst snd] in *.
  assert (0 < 2 ^ (32 - ones)) as Hs by (apply Z.pow_pos_nonneg; lia).
  assert (2 ^ 32 mod 2 ^ (32 - ones) = 0) as Htop.
  { apply (pow2_multiple _ (32 - ones) 32); [lia|]. apply Z.mod_same. lia. }
  assert ((firstAddress n + 2 ^ (32 - ones)) mod 2 ^ (32 - ones) = 0) as Hend.
  { rewrite <- Z.add_mod_idemp_l, Hal by lia. rewrite Z.add_0_l. apply Z.mod_same. lia. }
  pose proof (multiple_step (firstAddress n + 2 ^ (32 - ones)) (2 ^ 32) (2 ^ (32 - ones))
                Hs Hend Htop ltac:(lia)) as Hstep.
  split; [|lia].
  destruct (Z.eq_dec ones 0) as [->|]; [|lia]. exfalso.
  change (2 ^ (32 - 0)) with (2 ^ 32) in *. lia.
Qed.

(** X27. With Go's text of addresses, the earlier search is a first fit:
    for a parent of IPv4 that does not reach 255.255.255.255, a prefix
    length from the parent's to 32, existing CIDRs that are IPv4 where
    they parse, and enough turns of the loop for the blocks of the parent,
    [findNextAvailableCIDR] neither aborts nor runs on.  The text it
    returns parses as a network of the requested prefix length that lies
    within the parent, shares no address with any existing CIDR that
    parses, and is the lowest such block: every block of that size before
    it in the parent shares an address with an existing CIDR.  It fails
    with "no available block" exactly when every block of that size in the
    parent does. *)
Theorem findNextAvailableCIDR_first_fit (iterations : nat) (parentCIDR : string)
    (parentNet : IPNet) (existingCIDRs : list string) (prefixLen : Z) :
  ParseCIDR parentCIDR = Some parentNet -> len (netIP parentNet) = 4 ->
  lastAddress parentNet < 2 ^ 32 - 1 ->
  fst (Size (netMask parentNet)) <= prefixLen <= 32 ->
  (forall c n, c ∈ existingCIDRs -> ParseCIDR c = Some n -> len (netIP n) = 4) ->
  2 ^ (prefixLen - fst (Size (netMask parentNet))) < Z.of_nat iterations ->
  let taken u :=
    exists c n, c ∈ existingCIDRs /\ ParseCIDR c = Some n
                /\ u <= lastAddress n /\ firstAddress n <= u + 2 ^ (32 - prefixLen) - 1 in
  match findNextAvailableCIDR iterations parentCIDR existingCIDRs prefixLen with
  | Found cidr =>
      exists block,
        ParseCIDR cidr = Some block /\ Size (netMask block) = (prefixLen, 32)
        /\ firstAddress block mod 2 ^ (32 - prefixLen) = 0
        /\ withinRange parentNet block
        /\ (forall c n, c ∈ existingCIDRs -> ParseCIDR c = Some n -> disjointRanges block n)
        /\ forall u, firstAddress parentNet <= u < firstAddress block ->
                     u mod 2 ^ (32 - prefixLen) = 0 -> taken u
  | Failed err =>
      err = ErrNoBlockInParent prefixLen parentCIDR
      /\ forall u, firstAddress parentNet <= u ->
                   u + 2 ^ (32 - prefixLen) - 1 <= lastAddress parentNet ->
                   u mod 2 ^ (32 - prefixLen) = 0 -> taken u
  | Aborted | Unfinished => False
  end.
Proof.
  intros Hparent Hlen Hbelow Hp Hexisting Hfuel taken.
  pose proof (ParseCIDR_IPv4Network parentCIDR parentNet Hparent Hlen) as H4.
  destruct (below_top_prefix parentNet H4 Hbelow) as [Hone Hroom].
  destruct (IPv4Network_shape parentNet H4) as (ones & HS & Hones & _ & _ & _ & Hal).
  destruct (IPv4Network_uint32 parentNet H4)
    as (ones' & bits' & HS' & Hstart & Hend & _ & Hfl & Htop).
  rewrite HS in HS'. injection HS' as <- <-.
  rewrite HS in Hp, Hfuel, Hone, Hroom. cbn [fst] in Hp, Hfuel, Hone, Hroom.
  assert (0 < 2 ^ (32 - prefixLen)) as Hb by (apply Z.pow_pos_nonneg; lia).
  assert (0 < 2 ^ (32 - ones)) as Hs by (apply Z.pow_pos_nonneg; lia).
  assert (2 ^ (32 - ones) = 2 ^ (prefixLen - ones) * 2 ^ (32 - prefixLen)) as Hsplit
    by (rewrite <- Z.pow_add_r by lia; f_equal; lia).
  assert (2 ^ (32 - prefixLen) <= 2 ^ (32 - ones)) as Hsize
    by (apply Z.pow_le_mono_r; lia).
  pose proof (aligned_coarser (firstAddress parentNet) ones prefixLen
                ltac:(lia) ltac:(lia) Hal) as Hal'.
  set (existingNets := omap ParseCIDR existingCIDRs).
  assert (Forall (fun n => IPv4Network n = true) existingNets) as Hnets.
  { apply Forall_forall. intros n Hn. apply list_elem_of_omap in Hn as (c & Hc & Hcn).
    apply (ParseCIDR_IPv4Network c); [done|]. by apply (Hexisting c). }
  assert (forall u, 0 <= u < 2 ^ 32 -> u mod 2 ^ (32 - prefixLen) = 0 ->
            existsb (fun existing => networksOverlap_contains (blockOf u prefixLen) existing)
                    existingNets = true -> taken u) as Htaken.
  { intros u Hu Hual Hex. apply existsb_exists in Hex as (n & Hn & Hov).
    destruct (blockOf_facts u prefixLen Hu ltac:(lia) Hual) as (_ & Hb4 & _ & Hbf & Hbl).
    apply list_elem_of_In in Hn. pose proof Hn as Hn'.
    apply list_elem_of_omap in Hn as (c & Hc & Hcn).
    rewrite Forall_forall in Hnets.
    apply (overlap_IPv4_ranges _ _ Hb4 (Hnets n Hn')) in Hov. rewrite Hbf, Hbl in Hov.
    exists c, n. done. }
  unfold findNextAvailableCIDR. rewrite Hparent, HS. cbn [fst].
  destruct (Z.ltb_spec prefixLen ones) as [|_]; [lia|].
  destruct (Z.ltb_spec (32 - prefixLen) 0) as [|_]; [lia|].
  destruct (Z.ltb_spec (32 - ones) 0) as [|_]; [lia|].
  destruct (shl32_1_pos (32 - prefixLen) ltac:(lia)) as [-> _].
  rewrite Hstart, Hend.
  destruct (Z.eqb_spec (2 ^ (32 - prefixLen)) 0) as [|_]; [lia|].
  rewrite Hal'. change (0 =? 0) with true. cbn [negb].
  fold existingNets.
  assert (lastAddress parentNet + 1 = firstAddress parentNet + 2 ^ (32 - ones)) as Hlast
    by (unfold lastAddress; rewrite HS; cbn [fst snd]; lia).
  pose proof (searchLoop_first_fit iterations parentCIDR existingNets prefixLen
                (lastAddress parentNet) (firstAddress parentNet)
                ltac:(lia) Hnets ltac:(lia) Hal') as Hloop.
  destruct (searchLoop iterations parentCIDR existingNets prefixLen (2 ^ (32 - prefixLen))
              (lastAddress parentNet) (firstAddress parentNet)) as [cidr|err| |].
  - destruct Hloop as (v & -> & Hge & Hval & Hvin & Hfree & Hearlier).
    + rewrite Hlast, <- Z.add_mod_idemp_l, Hal' by lia. rewrite Z.add_0_l, Hsplit.
      apply Z.mod_mul. lia.
    + lia.
    + lia.
    + rewrite Hlast. replace (firstAddress parentNet + 2 ^ (32 - ones) - firstAddress parentNet)
        with (2 ^ (32 - ones)) by lia.
      rewrite Hsplit, Z.div_mul by lia. done.
    + destruct (blockOf_facts v prefixLen ltac:(lia) ltac:(lia) Hval)
        as (Hparse & Hb4 & Hsz & Hbf & Hbl).
      exists (blockOf v prefixLen). split; [done|]. split; [done|]. rewrite Hbf.
      split; [done|]. split; [unfold withinRange; rewrite Hbf, Hbl; lia|].
      split.
      * intros c n Hc Hcn.
        apply (existsb_overlap_IPv4 _ _ Hb4 Hnets) in Hfree. rewrite Forall_forall in Hfree.
        apply Hfree. apply list_elem_of_omap. by exists c.
      * intros u Hu Hual. apply Htaken; [lia|done|]. by apply Hearlier.
  - destruct Hloop as (-> & Hall).
    + rewrite Hlast, <- Z.add_mod_idemp_l, Hal' by lia. rewrite Z.add_0_l, Hsplit.
      apply Z.mod_mul. lia.
    + lia.
    + lia.
    + rewrite Hlast. replace (firstAddress parentNet + 2 ^ (32 - ones) - firstAddress parentNet)
        with (2 ^ (32 - ones)) by lia.
      rewrite Hsplit, Z.div_mul by lia. done.
    + split; [done|]. intros u Hu Huin Hual. apply Htaken; [lia|done|]. by apply Hall.
  - apply Hloop; try lia.
    + rewrite Hlast, <- Z.add_mod_idemp_l, Hal' by lia. rewrite Z.add_0_l, Hsplit.
      apply Z.mod_mul. lia.
    + rewrite Hlast. replace (firstAddress parentNet + 2 ^ (32 - ones) - firstAddress parentNet)
        with (2 ^ (32 - ones)) by lia.
      rewrite Hsplit, Z.div_mul by lia. done.
  - apply Hloop; try lia.
    + rewrite Hlast, <- Z.add_mod_idemp_l, Hal' by lia. rewrite Z.add_0_l, Hsplit.
      apply Z.mod_mul. lia.
    + rewrite Hlast. replace (firstAddress parentNet + 2 ^ (32 - ones) - firstAddress parentNet)
        with (2 ^ (32 - ones)) by lia.
      rewrite Hsplit, Z.div_mul by lia. done.
Qed.

Lemma findNextAvailableCIDR_first_fit_witness :
  let parentNet := {| netIP := [10; 0; 0; 0]; netMask := [255; 255; 255; 0] |} in
  let taken u :=
    exists c n, c ∈ ["10.0.0.0/25"; "bad"] /\ ParseCIDR c = Some n
                /\ u <= lastAddress n /\ firstAddress n <= u + 2 ^ (32 - 25) - 1 in
  match findNextAvailableCIDR 3 "10.0.0.0/24" ["10.0.0.0/25"; "bad"] 25 with
  | Found cidr =>
      exists block,
        ParseCIDR cidr = Some block /\ Size (netMask block) = (25, 32)
        /\ firstAddress block mod 2 ^ (32 - 25) = 0
        /\ withinRange parentNet block
        /\ (forall c n, c ∈ ["10.0.0.0/25"; "bad"] -> ParseCIDR c = Some n ->
                        disjointRanges block n)
        /\ forall u, firstAddress parentNet <= u < firstAddress block ->
                     u mod 2 ^ (32 - 25) = 0 -> taken u
  | Failed err =>
      err = ErrNoBlockInParent 25 "10.0.0.0/24"
      /\ forall u, firstAddress parentNet <= u ->
                   u + 2 ^ (32 - 25) - 1 <= lastAddress parentNet ->
                   u mod 2 ^ (32 - 25) = 0 -> taken u
  | Aborted | Unfinished => False
  end.
Proof.
  apply (findNextAvailableCIDR_first_fit 3 "10.0.0.0/24"
           {| netIP := [10; 0; 0; 0]; netMask := [255; 255; 255; 0] |}
           ["10.0.0.0/25"; "bad"] 25).
  - vm_compute. reflexivity.
  - reflexivity.
  - vm_compute. reflexivity.
  - vm_compute. split; discriminate.
  - intros c n Hc Hn. apply elem_of_cons in Hc as [->|Hc].
    + vm_compute in Hn. by injection Hn as <-.
    + apply list_elem_of_singleton in Hc as ->. vm_compute in Hn. discriminate.
  - vm_compute. reflexivity.
Defined.

(** At the top of the address space the counter of the loop wraps around
    and the search leaves the parent: here it returns a block at the
    bottom of the address space, and it runs on when every block is
    taken. *)
Example findNextAvailableCIDR_wraps_at_top :
  findNextAvailableCIDR 3 "255.255.255.0/24" ["255.255.255.0/24"] 24 = Found "0.0.0.0/24"
  /\ findNextAvailableCIDR 100 "255.255.255.255/32" ["0.0.0.0/0"] 32 = Unfinished.
Proof. split; vm_compute; reflexivity. Qed.

(** ** The ids of the catalog *)

(** X28. Whatever the order in which Go visits the map, [ListPoolIDs]
    returns every pool id once: an id is in the list exactly when
    [GetPool] finds a pool for it, and no id is listed twice; the list of
    a catalog whose map is nil is empty. *)
Theorem ListPoolIDs_lists_each_pool_once (p : PoolsConfig)
    (entries : list (string * PoolDefinition)) :
  visitOf (Pools p) entries ->
  NoDup (ListPoolIDs entries)
  /\ (forall poolID, poolID ∈ ListPoolIDs entries <-> GetPool p poolID <> None)
  /\ (Pools p = None -> ListPoolIDs entries = []).
Proof.
  unfold visitOf, ListPoolIDs, GetPool. destruct (Pools p) as [m|].
  - intros Hperm. split; [|split; [|done]].
    + rewrite Hperm. apply NoDup_fst_map_to_list.
    + intros poolID. rewrite Hperm, list_elem_of_fmap. split.
      * intros ([id pool] & -> & Hin). apply elem_of_map_to_list in Hin. simpl. congruence.
      * intros Hfound. destruct (m !! poolID) as [pool|] eqn:Hl; [|done].
        exists (poolID, pool). split; [done|]. by apply elem_of_map_to_list.
  - intros ->. split; [constructor|]. split; [|done].
    intros poolID. split; [intros Hin; inversion Hin|done].
Qed.

Lemma ListPoolIDs_lists_each_pool_once_witness :
  let p := AddPool NewPoolsConfig "a" (poolOf ["10.0.0.0/16"]) in
  let entries := [("a", poolOf ["10.0.0.0/16"])] in
  NoDup (ListPoolIDs entries)
  /\ (forall poolID, poolID ∈ ListPoolIDs entries <-> GetPool p poolID <> None)
  /\ (Pools p = None -> ListPoolIDs entries = []).
Proof.
  cbv zeta. apply ListPoolIDs_lists_each_pool_once.
  unfold visitOf, AddPool, NewPoolsConfig. cbn [Pools].
  by rewrite insert_empty, map_to_list_singleton.
Defined.

(** ** The flat list of the ledger *)

Lemma AllAllocations_flat_map entries :
  AllAllocations entries = flat_map snd entries.
Proof.
  induction entries as [|[pid l] rest IH]; simpl; [done|]. by rewrite IH.
Qed.

Lemma AllAllocations_Permutation entries entries' :
  entries ≡ₚ entries' -> AllAllocations entries ≡ₚ AllAllocations entries'.
Proof.
  intros Hp. rewrite !AllAllocations_flat_map. by apply Permutation_flat_map.
Qed.

Lemma AllAllocations_elem entries a :
  a ∈ AllAllocations entries <->
  exists poolID allocations, (poolID, allocations) ∈ entries /\ a ∈ allocations.
Proof.
  induction entries as [|[pid l] rest IH]; simpl.
  - split; [intros Ha; inversion Ha|intros (? & ? & Hin & _); inversion Hin].
  - rewrite elem_of_app, IH. split.
    + intros [Ha|(pid' & l' & Hin & Ha)].
      * exists pid, l. split; [constructor|done].
      * exists pid', l'. split; [by constructor|done].
    + intros (pid' & l' & Hin & Ha).
      apply elem_of_cons in Hin as [[= -> ->]|Hin]; [by left|].
      right. by exists pid', l'.
Qed.

(** Replacing the list of one pool in the map: the flat lists before and
    after differ by the two lists of that pool. *)
Lemma AllAllocations_replace (m : gmap string (list Allocation)) (poolID : string)
    (new : list Allocation) entries entries' :
  entries ≡ₚ map_to_list m -> entries' ≡ₚ map_to_list (<[poolID := new]> m) ->
  AllAllocations entries' ++ default [] (m !! poolID) ≡ₚ AllAllocations entries ++ new.
Proof.
  intros Hp Hp'.
  rewrite (AllAllocations_Permutation _ _ Hp), (AllAllocations_Permutation _ _ Hp').
  rewrite <- (insert_delete_eq m).
  rewrite (AllAllocations_Permutation _ _
             (map_to_list_insert (delete poolID m) poolID new (lookup_delete_eq m poolID))).
  cbn [AllAllocations].
  destruct (m !! poolID) as [old|] eqn:Hl; cbn [default from_option Datatypes.id].
  - rewrite <- (AllAllocations_Permutation _ _ (map_to_list_delete m poolID old Hl)).
    cbn [AllAllocations]. solve_Permutation.
  - rewrite (delete_id m poolID Hl). rewrite app_nil_r. solve_Permutation.
Qed.

Lemma filter_split_Permutation {A} (f : A -> bool) (l : list A) :
  l ≡ₚ List.filter (fun a => negb (f a)) l ++ List.filter f l.
Proof.
  induction l as [|x l IH]; simpl; [done|].
  destruct (f x); simpl.
  - rewrite <- Permutation_middle. by constructor.
  - by constructor.
Qed.

Lemma existsb_false_filter {A} (f : A -> bool) (l : list A) :
  existsb f l = false -> List.filter f l = [].
Proof.
  induction l as [|x l IH]; simpl; [done|].
  destruct (f x); simpl; [done|]. apply IH.
Qed.

(** X29. [AllAllocations] follows the two updates of the ledger, whatever
    the order in which Go visits the map: it lists exactly the allocations
    of the pools; after [AddAllocation] it holds the allocations it held
    before and the stamped record once more, and before [RemoveAllocation]
    it held what it holds after the call and the allocations of that pool
    with that id, all of which the call removes while it leaves the
    allocations with that id in the other pools. *)
Theorem AllAllocations_follows_updates (now : string) (d : AllocationsDatabase)
    (poolID id : string) (alloc : Allocation)
    (entries added removed : list (string * list Allocation)) :
  visitOf (Allocations d) entries ->
  visitOf (Allocations (AddAllocation now d poolID alloc)) added ->
  visitOf (Allocations (fst (RemoveAllocation d poolID id))) removed ->
  (forall a, a ∈ AllAllocations entries <-> exists q, a ∈ GetAllocationsForPool d q)
  /\ AllAllocations added ≡ₚ AllAllocations entries ++ [withCreatedAt alloc now]
  /\ AllAllocations entries
     ≡ₚ AllAllocations removed
        ++ List.filter (fun a => String.eqb (ID a) id) (GetAllocationsForPool d poolID).
Proof.
  intros Hv Ha Hr. split; [|split].
  - intros a. rewrite AllAllocations_elem. split.
    + intros (q & l & Hin & Hl). exists q. apply GetAllocationsForPool_elem.
      exists l. split; [by apply (visitOf_lookup d entries)|done].
    + intros (q & Hq). apply GetAllocationsForPool_elem in Hq as (l & Hl & Hin).
      exists q, l. split; [by apply (visitOf_lookup d entries)|done].
  - unfold AddAllocation in Ha. cbn [Allocations] in Ha.
    unfold visitOf in Hv, Ha.
    set (m := match Allocations d with Some m => m | None => ∅ end) in *.
    assert (entries ≡ₚ map_to_list m) as Hm.
    { unfold m. destruct (Allocations d); [done|]. by rewrite Hv, map_to_list_empty. }
    pose proof (AllAllocations_replace m poolID _ entries added Hm Ha) as Hrep.
    apply (Permutation_app_inv_r (default [] (m !! poolID))).
    rewrite Hrep. solve_Permutation.
  - unfold RemoveAllocation, GetAllocationsForPool in *. unfold visitOf in Hv.
    destruct (Allocations d) as [m|] eqn:Hd.
    + destruct (m !! poolID) as [allocations|] eqn:Hl; cbn [default from_option Datatypes.id].
      * rewrite removeLoop_filter in Hr.
        destruct (existsb _ allocations) eqn:Hfound; cbn [negb fst Allocations] in Hr.
        -- unfold visitOf in Hr.
           pose proof (AllAllocations_replace m poolID _ entries removed Hv Hr) as Hrep.
           rewrite Hl in Hrep. cbn [default from_option Datatypes.id] in Hrep.
           apply (Permutation_app_inv_r
                    (List.filter (fun a => negb (String.eqb (ID a) id)) allocations)).
           rewrite <- Hrep, <- app_assoc.
           rewrite (Permutation_app_comm (List.filter _ allocations)).
           by rewrite <- (filter_split_Permutation (fun a => String.eqb (ID a) id)).
        -- rewrite Hd in Hr. unfold visitOf in Hr.
           rewrite (existsb_false_filter _ _ Hfound), app_nil_r.
           apply AllAllocations_Permutation. by rewrite Hv, Hr.
      * cbn [fst] in Hr. rewrite Hd in Hr. unfold visitOf in Hr. simpl.
        rewrite app_nil_r. apply AllAllocations_Permutation. by rewrite Hv, Hr.
    + cbn [fst] in Hr. rewrite Hd in Hr. unfold visitOf in Hr. subst. done.
Qed.

Lemma AllAllocations_follows_updates_witness :
  let first := allocOf "10.0.0.0/24" in
  let second := allocOf "10.0.1.0/24" in
  let d := AddAllocation "t0" NewAllocationsDatabase "p" first in
  let entries := [("p", [withCreatedAt first "t0"])] in
  let added := [("p", [withCreatedAt first "t0"; withCreatedAt second "t1"])] in
  let removed := [("p", [])] in
  (forall a, a ∈ AllAllocations entries <-> exists q, a ∈ GetAllocationsForPool d q)
  /\ AllAllocations added ≡ₚ AllAllocations entries ++ [withCreatedAt second "t1"]
  /\ AllAllocations entries
     ≡ₚ AllAllocations removed
        ++ List.filter (fun a => String.eqb (ID a) "") (GetAllocationsForPool d "p").
Proof.
  cbv zeta. apply AllAllocations_follows_updates.
  - unfold visitOf. simpl. by rewrite insert_empty, map_to_list_singleton.
  - unfold visitOf, AddAllocation. cbn [Allocations NewAllocationsDatabase].
    rewrite lookup_empty, lookup_insert_eq, insert_insert_eq, insert_empty,
      map_to_list_singleton. done.
  - unfold visitOf, RemoveAllocation, AddAllocation. cbn [Allocations NewAllocationsDatabase].
    rewrite lookup_empty, lookup_insert_eq. simpl.
    rewrite insert_insert_eq, insert_empty, map_to_list_singleton. done.
Defined.

(** ** Looking an allocation up by its CIDR *)

Lemma findInPools_visit (d : AllocationsDatabase) (test : Allocation -> bool) entries :
  visitOf (Allocations d) entries ->
  match findInPools test entries with
  | Some (a, poolID) => a ∈ GetAllocationsForPool d poolID /\ test a = true
  | None => forall poolID a, a ∈ GetAllocationsForPool d poolID -> test a = false
  end.
Proof.
  intros Hv. destruct (findInPools test entries) as [[a poolID]|] eqn:Hf.
  - apply findInPools_Some in Hf as (l & Hin & Ha & Ht). split; [|done].
    apply GetAllocationsForPool_elem. exists l.
    split; [by apply (visitOf_lookup d entries)|done].
  - intros poolID a Ha.
    apply GetAllocationsForPool_elem in Ha as (l & Hl & Ha).
    apply (visitOf_lookup d entries) in Hl; [|done].
    apply (findInPools_None _ _ Hf poolID l a Hl Ha).
Qed.

Lemma AddAllocation_elem now (d : AllocationsDatabase) poolID alloc q a :
  a ∈ GetAllocationsForPool (AddAllocation now d poolID alloc) q <->
  a ∈ GetAllocationsForPool d q \/ (q = poolID /\ a = withCreatedAt alloc now).
Proof.
  unfold GetAllocationsForPool, AddAllocation. cbn [Allocations].
  destruct (decide (q = poolID)) as [->|Hne].
  - rewrite lookup_insert_eq. cbn [default from_option Datatypes.id].
    rewrite elem_of_app, list_elem_of_singleton.
    destruct (Allocations d) as [m|]; [|rewrite lookup_empty]; tauto.
  - rewrite lookup_insert_ne by done.
    destruct (Allocations d) as [m|]; [|rewrite lookup_empty]; tauto.
Qed.

(** X30. [FindAllocationByCIDR] looks an allocation up by the text of its
    CIDR, whatever the order in which Go visits the map: what it returns
    carries the text asked for and belongs to the pool returned with it,
    and it returns nothing only when no allocation of any pool carries
    that text; after [AddAllocation] of a record whose text no allocation
    of the ledger carries, it returns that record, stamped, and the pool
    it was added to. *)
Theorem FindAllocationByCIDR_by_text (d : AllocationsDatabase) (cidr : string)
    (entries : list (string * list Allocation)) :
  visitOf (Allocations d) entries ->
  match FindAllocationByCIDR entries cidr with
  | Some (a, poolID) => a ∈ GetAllocationsForPool d poolID /\ CIDR a = cidr
  | None => forall poolID a, a ∈ GetAllocationsForPool d poolID -> CIDR a <> cidr
  end
  /\ forall now poolID alloc added,
       (forall q a, a ∈ GetAllocationsForPool d q -> CIDR a <> CIDR alloc) ->
       visitOf (Allocations (AddAllocation now d poolID alloc)) added ->
       FindAllocationByCIDR added (CIDR alloc) = Some (withCreatedAt alloc now, poolID).
Proof.
  intros Hv. unfold FindAllocationByCIDR. split.
  - pose proof (findInPools_visit d (fun a => String.eqb (CIDR a) cidr) entries Hv) as Hf.
    destruct (findInPools _ entries) as [[a poolID]|].
    + destruct Hf as [Hin Ht]. by apply String.eqb_eq in Ht.
    + intros poolID a Ha. apply String.eqb_neq. by apply (Hf poolID a).
  - intros now poolID alloc added Hfresh Hadded.
    pose proof (findInPools_visit _ (fun a => String.eqb (CIDR a) (CIDR alloc)) added Hadded)
      as Hf.
    destruct (findInPools _ added) as [[a q]|].
    + destruct Hf as [Hin Ht]. apply String.eqb_eq in Ht.
      apply AddAllocation_elem in Hin as [Hold|[-> ->]]; [|done].
      by destruct (Hfresh q a Hold).
    + exfalso.
      assert (withCreatedAt alloc now
                ∈ GetAllocationsForPool (AddAllocation now d poolID alloc) poolID) as Hin.
      { apply AddAllocation_elem. by right. }
      apply Hf in Hin. simpl in Hin. by rewrite String.eqb_refl in Hin.
Qed.

Lemma FindAllocationByCIDR_by_text_witness :
  let d := AddAllocation "t0" NewAllocationsDatabase "p" (allocOf "10.0.0.0/24") in
  let entries := [("p", [withCreatedAt (allocOf "10.0.0.0/24") "t0"])] in
  match FindAllocationByCIDR entries "10.0.0.0/24" with
  | Some (a, poolID) => a ∈ GetAllocationsForPool d poolID /\ CIDR a = "10.0.0.0/24"
  | None => forall poolID a, a ∈ GetAllocationsForPool d poolID -> CIDR a <> "10.0.0.0/24"
  end.
Proof.
  refine (proj1 (FindAllocationByCIDR_by_text
            (AddAllocation "t0" NewAllocationsDatabase "p" (allocOf "10.0.0.0/24"))
            "10.0.0.0/24" [("p", [withCreatedAt (allocOf "10.0.0.0/24") "t0"])] _)).
  unfold visitOf. simpl. by rewrite insert_empty, map_to_list_singleton.
Defined.

(** The look-up compares texts, not networks: "10.0.0.1/24" is read by
    [net.ParseCIDR] as the network of "10.0.0.0/24", and is not found. *)
Example FindAllocationByCIDR_other_text :
  ParseCIDR "10.0.0.1/24" = ParseCIDR "10.0.0.0/24"
  /\ FindAllocationByCIDR [("p", [allocOf "10.0.0.0/24"])] "10.0.0.1/24" = None.
Proof. split; reflexivity. Qed.
